(** * Token-based distributed mutual exclusion (TDDD25 lab 5)

    A shallow embedding of
      - [modules/Server/Lock/distributedLock.py]  (class [DistributedLock]),
      - [modules/Server/peerList.py]              (class [PeerList]),
      - [lab5/mutexPeer.py]                       (class [Client], the
                                                   command loop),
    and the properties of the token algorithm stated against it.

    Python dictionaries keep insertion order, and that order is observable
    here (broadcast order in [acquire], hand-off order in [_offload_token],
    [items()] in [_prepare]); they are therefore modelled as association
    lists in insertion order.  Remote calls are synchronous and nest, so
    every method runs in a monad that threads the state of the whole
    network, may raise, may block, and carries fuel for the nesting.

    The transport ([Common.orb]) and the name service are not among these
    sources: the liveness probe, the directory, and the start and stop of a
    process are modelled from the specification and marked as such.  The
    file has three parts: the program, the scenarios and notions the
    statements use, and the properties, first those the specification
    states and then further ones read off the code. *)

From Stdlib Require Import ZArith Lia.
From stdpp Require Import base tactics option list sorting strings numbers
  relations.

Local Open Scope Z_scope.
#[local] Set Warnings "-clear-no-such-hyp".

(** * The program *)

(** ** Python dictionaries and [collections.Counter] *)

Module Dict.
Section Dict.
Context {K V : Type} `{EqDecision K}.

Definition dict := list (K * V).

(** [d.get(k)] *)
Fixpoint get (d : dict) (k : K) : option V :=
  match d with
  | [] => None
  | (k', v) :: d' => if decide (k' = k) then Some v else get d' k
  end.

(** [k in d] *)
Definition mem (k : K) (d : dict) : bool :=
  match get d k with Some _ => true | None => false end.

(** [d[k] = v]: an existing key keeps its position, a new key goes last. *)
Fixpoint set (d : dict) (k : K) (v : V) : dict :=
  match d with
  | [] => [(k, v)]
  | (k', v') :: d' =>
      if decide (k' = k) then (k', v) :: d' else (k', v') :: set d' k v
  end.

(** [del d[k]] on a key that may be absent (the caller decides whether an
    absent key is an error). *)
Fixpoint del (d : dict) (k : K) : dict :=
  match d with
  | [] => []
  | (k', v') :: d' =>
      if decide (k' = k) then del d' k else (k', v') :: del d' k
  end.

Definition keys (d : dict) : list K := d.*1.
Definition values (d : dict) : list V := d.*2.
Definition items (d : dict) : list (K * V) := d.

(** [dict(pairs)] / [d.update(pairs)] from the empty dictionary. *)
Definition of_items (l : list (K * V)) : dict :=
  foldl (λ acc kv, set acc kv.1 kv.2) [] l.

(** [{kf(x): vf(x) for x in l}], built on top of [acc]. *)
Definition comprehension_from {A} (acc : dict) (l : list A)
    (kf : A → K) (vf : A → V) : dict :=
  foldl (λ acc x, set acc (kf x) (vf x)) acc l.

(** [{kf(x): vf(x) for x in l}] *)
Definition comprehension {A} (l : list A) (kf : A → K) (vf : A → V) : dict :=
  comprehension_from [] l kf vf.
End Dict.
Global Arguments dict : clear implicits.
End Dict.

Abbreviation dict := Dict.dict.

(** [collections.Counter]: a dictionary of integer counts whose lookup of an
    absent key yields [0] and does not insert it. *)
Module Counter.
Section Counter.
Context {K : Type} `{EqDecision K}.

Definition Counter := dict K Z.

(** [c[k]] *)
Definition get (c : Counter) (k : K) : Z := default 0 (Dict.get c k).

(** [Counter(mapping)]: on an empty counter [update] copies the items. *)
Definition of_mapping (m : dict K Z) : Counter := Dict.of_items (Dict.items m).

(** [Counter(iterable)] for an iterable that is not a mapping: every
    element is counted, [self[elem] = self.get(elem, 0) + 1]. *)
Definition of_iterable (l : list K) : Counter :=
  foldl (λ acc elem, Dict.set acc elem (get acc elem + 1)) [] l.

(** [del c[k]]: [Counter.__delitem__] does not raise on an absent key. *)
Definition del (c : Counter) (k : K) : Counter := Dict.del c k.

(** One step of a stable sort by descending count: the item goes behind
    every item whose count is at least its own. *)
Fixpoint insert_by_count (kv : K * Z) (l : list (K * Z)) : list (K * Z) :=
  match l with
  | [] => [kv]
  | kv' :: l' =>
      if decide (kv'.2 < kv.2) then kv :: l else kv' :: insert_by_count kv l'
  end.

(** [c.most_common()], that is
    [sorted(self.items(), key=itemgetter(1), reverse=True)]: the items by
    descending count, equal counts in insertion order (the sort is stable).
    It is the order in which [repr(c)] and [str(c)] show the items,
    [Counter({3: 6, 5: 6, 1: 2})]. *)
Definition most_common (c : Counter) : list (K * Z) :=
  foldl (λ acc kv, insert_by_count kv acc) [] (Dict.items c).
End Counter.
Global Arguments Counter : clear implicits.
End Counter.

Abbreviation Counter := Counter.Counter.

(** ** Data model *)

(** [NO_TOKEN = 0], [TOKEN_PRESENT = 1], [TOKEN_HELD = 2] *)
Inductive LockState := NO_TOKEN | TOKEN_PRESENT | TOKEN_HELD.

Global Instance LockState_eq_dec : EqDecision LockState.
Proof. solve_decision. Defined.

(** [(socket.gethostname(), local_port)] *)
Definition Address : Type := string * Z.

(** [orb.Stub(paddr)]: a handle on the peer that listens at [paddr]. *)
Record Stub := mkStub { stub_address : Address }.

(** The attributes of a [DistributedLock]; [localLock] is [true] while the
    [threading.Lock] is taken. *)
Record DistributedLock := mkLock {
  time : Z;
  state : LockState;
  localLock : bool;
  token : Counter Z;
  request : Counter Z
}.

(** [PeerList.peers], "ID -> STUB". *)
Record PeerList := mkPeerList { peers : dict Z Stub }.

(** A [Client]: the identity it got from [orb.Peer], its peer list and its
    lock. *)
Record Client := mkClient {
  id : Z;
  address : Address;
  peer_list : PeerList;
  distributed_lock : DistributedLock
}.

(** The remote operations a peer serves. *)
Inductive Call :=
| request_token_call (time pid : Z)
| obtain_token_call (token : Counter Z)
| register_peer_call (pid : Z) (paddr : Address)
| unregister_peer_call (pid : Z).

Record Message := mkMessage {
  msg_from : Address;
  msg_to : Address;
  msg_call : Call
}.

(** The network: the running processes by address, every remote call issued
    so far (oldest first), and the directory of [(id, addr)] entries. *)
Record Network := mkNetwork {
  procs : dict Address Client;
  sent : list Message;
  name_service : list (Z * Address)
}.

Inductive exn :=
| KeyError (k : Z)
| ConnectionError (a : Address)
| NoPeerWithId (pid : Z)
| ProcessGone (a : Address).

(** What a call does to the network. [Blocked]: the calling thread is
    parked inside the call (on a [localLock] that an enclosing call holds,
    or polling in [acquire]); the network is as the call left it. *)
Inductive outcome (A : Type) :=
| Return (net : Network) (a : A)
| Raise (net : Network) (e : exn)
| Blocked (net : Network)
| OutOfFuel.
Global Arguments Return {A}.
Global Arguments Raise {A}.
Global Arguments Blocked {A}.
Global Arguments OutOfFuel {A}.

Definition M (A : Type) : Type := Network → outcome A.

Global Instance M_ret : MRet M := λ A a net, Return net a.
Global Instance M_bind : MBind M := λ A B f m net,
  match m net with
  | Return net' a => f a net'
  | Raise net' e => Raise net' e
  | Blocked net' => Blocked net'
  | OutOfFuel => OutOfFuel
  end.

Definition raise {A} (e : exn) : M A := λ net, Raise net e.
Definition block {A} : M A := λ net, Blocked net.
Definition out_of_fuel {A} : M A := λ _, OutOfFuel.

(** [try: body except Exception as e: handler(e)] *)
Definition try_except {A} (body : M A) (handler : exn → M A) : M A := λ net,
  match body net with
  | Raise net' e => handler e net'
  | o => o
  end.

(** [for x in l: body(x)] without [break]. *)
Fixpoint for_each {A} (l : list A) (body : A → M unit) : M unit :=
  match l with
  | [] => mret tt
  | x :: l' => body x ;; for_each l' body
  end.

(** The state of the network the outcome carries, if any. *)
Definition final {A} (o : outcome A) : option Network :=
  match o with
  | Return net _ | Raise net _ | Blocked net => Some net
  | OutOfFuel => None
  end.

(** *** Record updates *)

Definition set_time (v : Z) (l : DistributedLock) : DistributedLock :=
  mkLock v (state l) (localLock l) (token l) (request l).
Definition set_state (v : LockState) (l : DistributedLock) : DistributedLock :=
  mkLock (time l) v (localLock l) (token l) (request l).
Definition set_localLock (v : bool) (l : DistributedLock) : DistributedLock :=
  mkLock (time l) (state l) v (token l) (request l).
Definition set_token (v : Counter Z) (l : DistributedLock) : DistributedLock :=
  mkLock (time l) (state l) (localLock l) v (request l).
Definition set_request (v : Counter Z) (l : DistributedLock) : DistributedLock :=
  mkLock (time l) (state l) (localLock l) (token l) v.

Definition with_lock (f : DistributedLock → DistributedLock) (c : Client) : Client :=
  mkClient (id c) (address c) (peer_list c) (f (distributed_lock c)).
Definition with_peers (f : dict Z Stub → dict Z Stub) (c : Client) : Client :=
  mkClient (id c) (address c) (mkPeerList (f (peers (peer_list c))))
           (distributed_lock c).

(** The network with the process at [a] replaced by [c]. *)
Definition upd (net : Network) (a : Address) (c : Client) : Network :=
  mkNetwork (Dict.set (procs net) a c) (sent net) (name_service net).

(** *** The running object [self] at an address *)

(** [self.owner] *)
Definition owner (a : Address) : M Client := λ net,
  match Dict.get (procs net) a with
  | Some c => Return net c
  | None => Raise net (ProcessGone a)
  end.

Definition modify (a : Address) (f : Client → Client) : M unit := λ net,
  match Dict.get (procs net) a with
  | Some c => Return (upd net a (f c)) tt
  | None => Raise net (ProcessGone a)
  end.

(** The [DistributedLock] object of the process at [a], and assignments to
    its attributes. *)
Definition self (a : Address) : M DistributedLock :=
  c ← owner a; mret (distributed_lock c).
Definition assign (a : Address) (f : DistributedLock → DistributedLock) : M unit :=
  modify a (with_lock f).

(** [d[k]] on a plain dictionary. *)
Definition subscript {V} (d : dict Z V) (k : Z) : M V :=
  match Dict.get d k with
  | Some v => mret v
  | None => raise (KeyError k)
  end.

(** [sorted(l)] on integers. *)
Definition sorted (l : list Z) : list Z := merge_sort Z.le l.

(** [int(k)] on a key that is an integer already. *)
Definition py_int (k : Z) : Z := k.

(** ** [class DistributedLock] *)

Module DistributedLock.

(** [__init__]: no token, clock at zero, empty counters, lock free. *)
Definition __init__ : DistributedLock := mkLock 0 NO_TOKEN false [] [].

(** Hashable Python values as far as [_prepare] and [_unprepare] meet them:
    integers and the pairs [items()] yields. *)
Inductive PyVal :=
| PyInt (n : Z)
| PyTuple (a b : PyVal).

Global Instance PyVal_eq_dec : EqDecision PyVal.
Proof. solve_decision. Defined.

(** A token as the lock holds it, keys seen as Python values. *)
Definition py_token (token : Counter Z) : Counter PyVal :=
  prod_map PyInt (@Datatypes.id Z) <$> token.

(** [return list(token.items())] *)
Definition _prepare (token : Counter PyVal) : list PyVal :=
  (λ kv, PyTuple kv.1 (PyInt kv.2)) <$> Dict.items token.

(** [return Counter(token)], on the list [_prepare] returns. *)
Definition _unprepare (token : list PyVal) : Counter PyVal :=
  Counter.of_iterable token.

(** The scan of [_check_token]:
    [gt = sorted([pid for pid in requester_ids if pid > self.owner.id])],
    [lt = sorted([pid for pid in requester_ids if pid < self.owner.id])],
    [for pid in gt + lt]. *)
Definition scan_order (owner_id : Z) (requester_ids : list Z) : list Z :=
  let gt := sorted (filter (λ pid, owner_id < pid) requester_ids) in
  let lt := sorted (filter (λ pid, pid < owner_id) requester_ids) in
  gt ++ lt.

(** [if self.request[pid] > self.token[pid]: targetID = pid; break] *)
Definition wants (request token : Counter Z) (pid : Z) : bool :=
  bool_decide (Counter.get token pid < Counter.get request pid).

Definition select_target (owner_id : Z) (request token : Counter Z) : option Z :=
  List.find (wants request token) (scan_order owner_id (Dict.keys request)).

(** The dictionary [_clean_token] builds:
    [{pid: self.token[pid] for pid in self.token
           if pid == self.owner.id or pid in all_peers}] *)
Definition cleaned (owner_id : Z) (all_peers : dict Z Stub) (token : Counter Z)
  : Counter Z :=
  Counter.of_mapping
    (Dict.comprehension
       (filter (λ pid, pid = owner_id ∨ Dict.mem pid all_peers = true)
               (Dict.keys token))
       (λ pid, pid) (Counter.get token)).

(** The lines [display_status] prints: the three state flags, the items of
    the request table and of the token in the order in which [format] shows
    a [Counter], and the clock. *)
Record Status := mkStatus {
  no_token : bool;
  token_present : bool;
  token_held : bool;
  shown_request : list (Z * Z);
  shown_token : list (Z * Z);
  shown_time : Z
}.

Section Methods.
(** [stub.method(args)] issued by the process at the first address. *)
Variable remote : Address → Stub → Call → M unit.

(** [self.peer_list.get_peers()] *)
Definition get_peers (a : Address) : M (dict Z Stub) :=
  c ← owner a; mret (peers (peer_list c)).

(** [self.localLock.acquire()]: a second taker waits for the holder. *)
Definition localLock_acquire (a : Address) : M unit :=
  l ← self a;
  if localLock l then block else assign a (set_localLock true).

Definition localLock_release (a : Address) : M unit :=
  assign a (set_localLock false).

Definition initialize (a : Address) : M unit :=
  peerIDs ← get_peers a;
  if decide (length peerIDs = 0%nat)
  then assign a (set_state TOKEN_PRESENT)
  else mret tt.

Definition register_peer (a : Address) (pID : Z) : M unit := mret tt.

Definition unregister_peer (a : Address) (pID : Z) : M unit :=
  assign a (λ l, set_request (Counter.del (request l) pID) l).

Definition _clean_token (a : Address) : M unit :=
  all_peers ← get_peers a;
  c ← owner a;
  assign a (λ l, set_token (cleaned (id c) all_peers (token l)) l).

Definition _check_token (a : Address) : M bool :=
  l ← self a;
  if decide (state l = NO_TOKEN) then mret false
  else
    localLock_acquire a ;;
    l ← self a;
    c ← owner a;
    let targetID := select_target (id c) (request l) (token l) in
    wasSent ←
      match targetID with
      | Some pid =>
          try_except
            (_clean_token a ;;
             assign a (set_state NO_TOKEN) ;;
             all_peers ← get_peers a;
             stub ← subscript all_peers pid;
             l ← self a;
             remote a stub (obtain_token_call (token l)) ;;
             mret true)
            (λ e, mret false)
      | None => mret false
      end;
    localLock_release a ;;
    mret wasSent.

Definition release (a : Address) : M unit :=
  l ← self a;
  if decide (state l = TOKEN_HELD)
  then assign a (set_state TOKEN_PRESENT) ;; _check_token a ;; mret tt
  else mret tt.

Definition request_token (a : Address) (time pid : Z) : M unit :=
  assign a (λ l,
    set_request
      (Dict.set (request l) pid (Z.max (Counter.get (request l) pid) time)) l) ;;
  l ← self a;
  if bool_decide (state l = TOKEN_PRESENT) && wants (request l) (token l) pid
  then _check_token a ;; mret tt
  else mret tt.

Definition obtain_token (a : Address) (tok : Counter Z) : M unit :=
  assign a (set_token
    (Counter.of_mapping
       (Dict.comprehension (Dict.keys tok) py_int (Counter.get tok)))) ;;
  l ← self a;
  c ← owner a;
  let tokenWasWanted :=
    bool_decide (Counter.get (token l) (id c) < Counter.get (request l) (id c)) in
  assign a (λ l, set_token (Dict.set (token l) (id c) (time l)) l) ;;
  assign a (set_state TOKEN_HELD) ;;
  if negb tokenWasWanted then release a else mret tt.

(** The loop of [_offload_token] with its [break]. *)
Fixpoint _offload_loop (a : Address) (all_peers : dict Z Stub)
    (pids : list Z) : M bool :=
  match pids with
  | [] => mret false
  | pid :: pids' =>
      sent_now ←
        try_except
          (assign a (set_state NO_TOKEN) ;;
           stub ← subscript all_peers pid;
           l ← self a;
           remote a stub (obtain_token_call (token l)) ;;
           mret true)
          (λ e, mret false);
      if (sent_now : bool) then mret true
      else _offload_loop a all_peers pids'
  end.

Definition _offload_token (a : Address) : M bool :=
  l ← self a;
  if decide (state l = NO_TOKEN) then mret false
  else
    sent_first ← _check_token a;
    if (sent_first : bool) then mret true
    else
      localLock_acquire a ;;
      _clean_token a ;;
      all_peers ← get_peers a;
      wasSent ← _offload_loop a all_peers (Dict.keys all_peers);
      localLock_release a ;;
      mret wasSent.

Definition destroy (a : Address) : M unit :=
  _offload_token a ;; mret tt.

(** [acquire]; the closing [while self.state == NO_TOKEN: time.sleep(1)]
    parks the caller until some other call has changed the state. *)
Definition acquire (a : Address) : M unit :=
  l ← self a;
  match state l with
  | NO_TOKEN =>
      assign a (λ l, set_time (time l + 1) l) ;;
      c ← owner a;
      assign a (λ l, set_request (Dict.set (request l) (id c) (time l)) l) ;;
      all_peers ← get_peers a;
      for_each (Dict.values all_peers) (λ peer,
        l ← self a;
        c ← owner a;
        remote a peer (request_token_call (time l) (id c))) ;;
      l ← self a;
      if decide (state l = NO_TOKEN) then block else mret tt
  | TOKEN_PRESENT => assign a (set_state TOKEN_HELD)
  | TOKEN_HELD => mret tt
  end.

(** [display_status]: the six lines it prints, taken under [localLock];
    lines 315-316 format the two counters, which shows their items in the
    order of [most_common]. *)
Definition display_status (a : Address) : M Status :=
  localLock_acquire a ;;
  l ← self a;
  let nt := bool_decide (state l = NO_TOKEN) in
  let tp := bool_decide (state l = TOKEN_PRESENT) in
  let th := bool_decide (state l = TOKEN_HELD) in
  localLock_release a ;;
  mret (mkStatus nt tp th (Counter.most_common (request l))
          (Counter.most_common (token l)) (time l)).

(** [get_state]: [return self.state], read without the lock. *)
Definition get_state (a : Address) : M LockState :=
  l ← self a; mret (state l).
End Methods.
End DistributedLock.

(** ** [class PeerList] *)

Module PeerList.

Definition __init__ : PeerList := mkPeerList [].

(** Modelled from the spec: [orb.checkLiveness], the liveness probe of the
    transport, which is not part of these sources.  A peer is alive when a
    process listens at the address of its stub. *)
Definition checkLiveness (pID : Z) (stub : Stub) : M bool := λ net,
  Return net (Dict.mem (stub_address stub) (procs net)).

(** Modelled from the spec: [name_service.get_peers(self.owner.type)], the
    directory's list of [(id, addr)] entries. *)
Definition name_service_get_peers : M (list (Z * Address)) := λ net,
  Return net (name_service net).

Section Methods.
Variable remote : Address → Stub → Call → M unit.
(** [self.owner.unregister_peer(pID)] *)
Variable owner_unregister_peer : Address → Z → M unit.

Definition get_peers (a : Address) : M (dict Z Stub) :=
  c ← owner a; mret (peers (peer_list c)).

(** [get_peer(pid)]: [return self.peers[pid]] *)
Definition get_peer (a : Address) (pid : Z) : M Stub :=
  c ← owner a; subscript (peers (peer_list c)) pid.

(** [check_alive(pID)]: the probe of one peer. *)
Definition check_alive (a : Address) (pID : Z) : M unit :=
  stub ← get_peer a pID;
  alive ← checkLiveness pID stub;
  if (alive : bool) then mret tt else owner_unregister_peer a pID.

(** The loop of [display_peers]: one printed line [(pid, addr)] per id. *)
Fixpoint display_lines (ps : dict Z Stub) (pids : list Z)
  : M (list (Z * Address)) :=
  match pids with
  | [] => mret []
  | pid :: pids' =>
      stub ← subscript ps pid;
      lines ← display_lines ps pids';
      mret ((pid, stub_address stub) :: lines)
  end.

(** [display_peers]: [pids = sorted(self.peers.keys())], then a line for
    each [pid] with [self.peers[pid].address]. *)
Definition display_peers (a : Address) : M (list (Z * Address)) :=
  c ← owner a;
  let pids := sorted (Dict.keys (peers (peer_list c))) in
  display_lines (peers (peer_list c)) pids.

Definition check_all_alive (a : Address) : M unit :=
  allPeers ← get_peers a;
  for_each (Dict.keys allPeers) (λ pID,
    allPeers ← get_peers a;
    stub ← subscript allPeers pID;
    alive ← checkLiveness pID stub;
    if (alive : bool) then mret tt else owner_unregister_peer a pID).

Definition register_peer (a : Address) (pid : Z) (paddr : Address)
    (doubleChecking : bool) : M unit :=
  (if doubleChecking then check_all_alive a else mret tt) ;;
  modify a (with_peers (λ ps, Dict.set ps pid (mkStub paddr))).

Definition unregister_peer (a : Address) (pid : Z) : M unit :=
  ps ← get_peers a;
  (if Dict.mem pid ps
   then modify a (with_peers (λ ps, Dict.del ps pid))
   else raise (NoPeerWithId pid)) ;;
  check_all_alive a.

Definition initialize (a : Address) : M unit :=
  peer_set ← name_service_get_peers;
  for_each peer_set (λ peer_tuple,
    let '(peer_id, peer_addr) := peer_tuple in
    c ← owner a;
    if decide (peer_id ≠ id c)
    then
      register_peer a peer_id peer_addr false ;;
      ps ← get_peers a;
      stub ← subscript ps peer_id;
      c ← owner a;
      remote a stub (register_peer_call (id c) (address c))
    else mret tt).

Definition destroy (a : Address) : M unit :=
  check_all_alive a ;;
  ps ← get_peers a;
  for_each (Dict.keys ps) (λ fellowPeer,
    ps ← get_peers a;
    stub ← subscript ps fellowPeer;
    c ← owner a;
    remote a stub (unregister_peer_call (id c))).
End Methods.
End PeerList.

(** ** [class Client] and the transport *)

Module Client.
Section Methods.
Variable remote : Address → Stub → Call → M unit.
Variable owner_unregister_peer : Address → Z → M unit.

Definition register_peer (a : Address) (pid : Z) (paddr : Address) : M unit :=
  PeerList.register_peer owner_unregister_peer a pid paddr true ;;
  DistributedLock.register_peer a pid.

Definition unregister_peer (a : Address) (pid : Z) : M unit :=
  PeerList.unregister_peer owner_unregister_peer a pid ;;
  DistributedLock.unregister_peer a pid.

(** Modelled from the spec: [orb.Peer.__init__] and [orb.Peer.start], which
    are not part of these sources: the process comes up at its address
    under the identifier the directory gave it and is published there. *)
Definition Peer_start (pid : Z) (a : Address) : M unit := λ net,
  Return
    (mkNetwork
       (Dict.set (procs net) a
          (mkClient pid a PeerList.__init__ DistributedLock.__init__))
       (sent net)
       (name_service net ++ [(pid, a)]))
    tt.

(** Modelled from the spec: [orb.Peer.destroy], not part of these sources.
    The specification has the directory answer with "the current peer set"
    and says no more about a peer that shuts down; its entry is taken to
    leave the directory here.  The properties below rely only on what holds
    either way: the processes are untouched and the entries of the other
    processes stay ([quit_frame]). *)
Definition Peer_destroy (a : Address) : M unit := λ net,
  Return
    (mkNetwork (procs net) (sent net)
       (filter (λ e, e.2 ≠ a) (name_service net)))
    tt.

Definition __init__ (pid : Z) (a : Address) : M unit :=
  Peer_start pid a ;;
  PeerList.initialize remote owner_unregister_peer a ;;
  DistributedLock.initialize a.

Definition destroy (a : Address) : M unit :=
  DistributedLock.destroy remote a ;;
  Peer_destroy a ;;
  PeerList.destroy remote owner_unregister_peer a.
End Methods.
End Client.

(** A remote call through a stub: the call is on the wire, then it either
    runs at the process that listens at the stub's address, whose outcome is
    the caller's, or it fails because nobody listens there. *)
Definition rpc (handler : Address → Call → M unit)
    (from : Address) (stub : Stub) (c : Call) : M unit := λ net,
  let net' :=
    mkNetwork (procs net)
      (sent net ++ [mkMessage from (stub_address stub) c])
      (name_service net) in
  if Dict.mem (stub_address stub) (procs net')
  then handler (stub_address stub) c net'
  else Raise net' (ConnectionError (stub_address stub)).

(** The operation a process runs for an incoming call.  Every level of
    nesting (a remote call made while serving one, or the owner's own
    [unregister_peer] called back from a liveness sweep) takes one unit of
    fuel. *)
Fixpoint serve (fuel : nat) (a : Address) (c : Call) : M unit :=
  match fuel with
  | O => out_of_fuel
  | S fuel' =>
      let remote := rpc (serve fuel') in
      let owner_unregister_peer :=
        λ a pID, serve fuel' a (unregister_peer_call pID) in
      match c with
      | request_token_call time pid =>
          DistributedLock.request_token remote a time pid
      | obtain_token_call tok =>
          DistributedLock.obtain_token remote a tok
      | register_peer_call pid paddr =>
          Client.register_peer owner_unregister_peer a pid paddr
      | unregister_peer_call pid =>
          Client.unregister_peer owner_unregister_peer a pid
      end
  end.

Definition remote (fuel : nat) : Address → Stub → Call → M unit :=
  rpc (serve fuel).
Definition owner_unregister_peer (fuel : nat) (a : Address) (pID : Z) : M unit :=
  serve fuel a (unregister_peer_call pID).

(** The operations as the local caller and the peers invoke them. *)
Definition acquire (fuel : nat) := DistributedLock.acquire (remote fuel).
Definition release (fuel : nat) := DistributedLock.release (remote fuel).
Definition request_token (fuel : nat) := DistributedLock.request_token (remote fuel).
Definition obtain_token (fuel : nat) := DistributedLock.obtain_token (remote fuel).
Definition _check_token (fuel : nat) := DistributedLock._check_token (remote fuel).
Definition _offload_token (fuel : nat) := DistributedLock._offload_token (remote fuel).
Definition start (fuel : nat) :=
  Client.__init__ (remote fuel) (owner_unregister_peer fuel).
Definition destroy (fuel : nat) :=
  Client.destroy (remote fuel) (owner_unregister_peer fuel).

(** ** The command loop of [mutexPeer.py] *)

Module MutexPeer.

(** The integers behind the states: [NO_TOKEN = 0], [TOKEN_PRESENT = 1],
    [TOKEN_HELD = 2]. *)
Definition state_code (s : LockState) : Z :=
  match s with
  | NO_TOKEN => 0
  | TOKEN_PRESENT => 1
  | TOKEN_HELD => 2
  end.

(** [displayState(peer)]: the name of the state shown in the prompt. *)
Definition displayState (a : Address) : M string :=
  state ← DistributedLock.get_state a;
  if decide (state_code state = 0) then mret "NO_TOKEN"%string
  else if decide (state_code state = 1) then mret "TOKEN_PRESENT"%string
  else if decide (state_code state = 2) then mret "TOKEN_WITHHELD"%string
  else mret "BUT WHERE'S THE CAVEMAN? (SOMETHING WENT WRONG)"%string.

(** What reaches the main thread at the terminal: a line typed at the
    prompt, or Ctrl-C. *)
Inductive Input :=
| Line (command : string)
| Interrupt.

Global Instance Input_eq_dec : EqDecision Input.
Proof. solve_decision. Defined.

(** One round of the loop of [main], lines 115-133, on what [input()]
    receives.  The prompt is built; a line is dispatched, the commands [h]
    and [q] and unknown lines changing nothing, and [except Exception]
    reports whatever was raised and goes on; Ctrl-C at the prompt raises
    [KeyboardInterrupt] in [input()], which [except Exception] does not
    catch and [except KeyboardInterrupt] answers with [break].  The result
    tells whether the round left the loop by [break]. *)
Definition command_round (fuel : nat) (a : Address) (input : Input)
  : M bool :=
  try_except
    (cursor ← displayState a;
     match input with
     | Interrupt => mret true
     | Line command =>
         (if decide (command = "l"%string)
          then PeerList.display_peers a ;; mret tt
          else if decide (command = "s"%string)
          then DistributedLock.display_status a ;; mret tt
          else if decide (command = "a"%string) then acquire fuel a
          else if decide (command = "r"%string) then release fuel a
          else mret tt) ;;
         mret false
     end)
    (λ e, mret false).

(** [while command != "q"] over what arrives at the terminal, in order of
    time.  When the inputs are used up the main thread waits in [input()].
    A command that waits (in the loop of [acquire], for the [localLock], or
    for the answer of a peer that waits) reads nothing more, so the lines
    typed after it are lost; Ctrl-C ends the wait with [KeyboardInterrupt],
    which leaves the command where it stands and reaches the [break] of
    line 130: the sources have no [finally] around a point where a command
    waits, [display_status] waits before its [try], and the
    [except Exception] of [_check_token] does not catch it (the stub of
    [orb], which is not among the sources, is taken to let it pass as
    well).  Ctrl-C is modelled at these waiting points only, not in the
    middle of a command that runs. *)
Fixpoint command_loop (fuel : nat) (a : Address) (inputs : list Input)
  : M unit := λ net,
  match inputs with
  | [] => Blocked net
  | input :: inputs' =>
      match command_round fuel a input net with
      | Return net' true => Return net' tt
      | Return net' false =>
          if decide (input = Line "q"%string) then Return net' tt
          else command_loop fuel a inputs' net'
      | Blocked net' =>
          if bool_decide (Interrupt ∈ inputs') then Return net' tt
          else Blocked net'
      | Raise net' e => Raise net' e
      | OutOfFuel => OutOfFuel
      end
  end.

(** [main] from the construction of the client on: the loop, then
    [p.destroy()]. *)
Definition main (fuel : nat) (pid : Z) (a : Address) (inputs : list Input)
  : M unit :=
  start fuel pid a ;;
  command_loop fuel a inputs ;;
  destroy fuel a.
End MutexPeer.

(** * Scenarios and notions of the statements *)

(** ** Clients and outcomes during a call *)

(** The same client with the fields of its lock replaced. *)
Definition relock (c : Client) (st : LockState) (lk : bool) (tok : Counter Z)
  : Client :=
  mkClient (id c) (address c) (peer_list c)
    (mkLock (time (distributed_lock c)) st lk tok (request (distributed_lock c))).

(** The client at the moment [_check_token] calls the target: lock taken,
    token cleaned, state already [NO_TOKEN]. *)
Definition handing_over (c : Client) : Client :=
  relock c NO_TOKEN true
    (DistributedLock.cleaned (id c) (peers (peer_list c))
       (token (distributed_lock c))).

(** The target [_check_token] selects at this client. *)
Definition chosen (c : Client) : option Z :=
  DistributedLock.select_target (id c) (request (distributed_lock c))
    (token (distributed_lock c)).

(** What [_check_token] does with the outcome of the remote call. *)
Definition after_send (a : Address) (o : outcome unit) : outcome bool :=
  match o with
  | Return net' _ => (DistributedLock.localLock_release a ;; mret true) net'
  | Raise net' _ => (DistributedLock.localLock_release a ;; mret false) net'
  | Blocked net' => Blocked net'
  | OutOfFuel => OutOfFuel
  end.

(** The client right after [obtain_token] has taken the payload [tok]: the
    payload is its token, with its own entry at its clock, and it holds. *)
Definition adopted (c : Client) (tok : Counter Z) : Client :=
  relock c TOKEN_HELD (localLock (distributed_lock c))
    (Dict.set (Dict.comprehension (Dict.keys tok) py_int (Counter.get tok))
       (id c) (time (distributed_lock c))).

(** The outcome of a call whose return value is dropped. *)
Definition void {A} (o : outcome A) : outcome unit :=
  match o with
  | Return net _ => Return net tt
  | Raise net e => Raise net e
  | Blocked net => Blocked net
  | OutOfFuel => OutOfFuel
  end.

(** The client after [release] has left [TOKEN_HELD]. *)
Definition released (c : Client) : Client :=
  relock c TOKEN_PRESENT (localLock (distributed_lock c))
    (token (distributed_lock c)).

(** The client after [request_token(time, pid)] has merged the timestamp. *)
Definition merged (c : Client) (t pid : Z) : Client :=
  with_lock (λ l,
    set_request
      (Dict.set (request l) pid (Z.max (Counter.get (request l) pid) t)) l) c.

(** The network with one more message on the wire. *)
Definition wire (net : Network) (m : Message) : Network :=
  mkNetwork (procs net) (sent net ++ [m]) (name_service net).

(** One round of the loop of [PeerList.initialize]. *)
Definition registration_step (fuel : nat) (a : Address)
    (peer_tuple : Z * Address) : M unit :=
  let '(peer_id, peer_addr) := peer_tuple in
  c ← owner a;
  if decide (peer_id ≠ id c)
  then
    PeerList.register_peer (owner_unregister_peer fuel) a peer_id peer_addr false ;;
    ps ← PeerList.get_peers a;
    stub ← subscript ps peer_id;
    c ← owner a;
    remote fuel a stub (register_peer_call (id c) (address c))
  else mret tt.

(** One round of the broadcast of [acquire]. *)
Definition ask (fuel : nat) (a : Address) (peer : Stub) : M unit :=
  l ← self a;
  c ← owner a;
  remote fuel a peer (request_token_call (time l) (id c)).

(** One round of the loop of [PeerList.check_all_alive]. *)
Definition probe_step (owner_unregister_peer : Address → Z → M unit)
    (a : Address) (pID : Z) : M unit :=
  allPeers ← PeerList.get_peers a;
  stub ← subscript allPeers pID;
  alive ← PeerList.checkLiveness pID stub;
  if (alive : bool) then mret tt else owner_unregister_peer a pID.

(** One round of the loop of [PeerList.destroy]. *)
Definition farewell (fuel : nat) (a : Address) (fellowPeer : Z) : M unit :=
  ps ← PeerList.get_peers a;
  stub ← subscript ps fellowPeer;
  c ← owner a;
  remote fuel a stub (unregister_peer_call (id c)).

(** The client after [unregister_peer(pid)]: the peer is gone from the peer
    list and from the request table. *)
Definition forgotten (c : Client) (pid : Z) : Client :=
  with_lock (λ l, set_request (Counter.del (request l) pid) l)
    (with_peers (λ ps, Dict.del ps pid) c).

(** The client after [register_peer(pid, paddr)]. *)
Definition introduced (c : Client) (pid : Z) (paddr : Address) : Client :=
  with_peers (λ ps, Dict.set ps pid (mkStub paddr)) c.

(** Every peer registered in [ps], but those listed in [dead], runs. *)
Definition alive_but (net : Network) (ps : dict Z Stub) (dead : list Z) : Prop :=
  ∀ q stub, q ∉ dead → Dict.get ps q = Some stub →
            Dict.mem (stub_address stub) (procs net) = true.

(** The network once [orb.Peer.start] has brought up the process. *)
Definition started (pid : Z) (a : Address) (net : Network) : Network :=
  mkNetwork
    (Dict.set (procs net) a
       (mkClient pid a PeerList.__init__ DistributedLock.__init__))
    (sent net) (name_service net ++ [(pid, a)]).

(** Line 167 of [acquire], [self.state = TOKEN_HELD], which the main thread
    runs after the tests of lines 147 and 166. *)
Definition acquire_assign (a : Address) : M unit :=
  assign a (set_state TOKEN_HELD).

(** ** Observations of a network *)

(** The lock state of the process at [a], if any. *)
Definition state_at (net : Network) (a : Address) : option LockState :=
  (λ c, state (distributed_lock c)) <$> Dict.get (procs net) a.

(** The lock states of all processes, in the order of the process table. *)
Definition states (net : Network) : list (Z * LockState) :=
  (λ kc, (id kc.2, state (distributed_lock kc.2))) <$> procs net.

(** The peers each process has registered. *)
Definition memberships (net : Network) : list (Z * list Z) :=
  (λ kc, (id kc.2, Dict.keys (peers (peer_list kc.2)))) <$> procs net.

(** A nested call can only reach a process whose [localLock] is free, and
    takes it for the duration of the call: the number of free locks bounds
    the depth of the nesting. *)
Definition lock_weight (c : Client) : nat :=
  if localLock (distributed_lock c) then 0%nat else 1%nat.

Fixpoint count_free (d : dict Address Client) : nat :=
  match d with
  | [] => 0%nat
  | (_, c) :: d' => (lock_weight c + count_free d')%nat
  end.

Definition free_locks (net : Network) : nat := count_free (procs net).

(** The network after the calls [request_token(t, pid)], for [t] in [ts] in
    turn, have been served at [a]. *)
Fixpoint after_requests (fuel : nat) (a : Address) (pid : Z) (ts : list Z)
    (net : Network) : option Network :=
  match ts with
  | [] => Some net
  | t :: ts' =>
      match final (request_token fuel a t pid net) with
      | Some net' => after_requests fuel a pid ts' net'
      | None => None
      end
  end.

(** ** Frames: what a call leaves alone *)

(** Passing the token changes, of a client, only the state, the token and
    the [localLock]. *)
Definition same_membership (c c' : Client) : Prop :=
  id c' = id c ∧ address c' = address c ∧ peer_list c' = peer_list c ∧
  request (distributed_lock c') = request (distributed_lock c) ∧
  time (distributed_lock c') = time (distributed_lock c).

(** Every key of the payload is the sender's own id or the id of one of its
    registered peers. *)
Definition clean_payload (c : Client) (tok : Counter Z) : Prop :=
  ∀ k, k ∈ Dict.keys tok → k = id c ∨ k ∈ Dict.keys (peers (peer_list c)).

(** An [obtain_token] call whose payload is clean for its sender. *)
Definition clean_message (net : Network) (m : Message) : Prop :=
  ∃ tok c,
    msg_call m = obtain_token_call tok ∧
    Dict.get (procs net) (msg_from m) = Some c ∧
    clean_payload c tok.

Definition same_processes (net net' : Network) : Prop :=
  ∀ b, match Dict.get (procs net) b, Dict.get (procs net') b with
       | Some c, Some c' => same_membership c c'
       | None, None => True
       | _, _ => False
       end.

Record token_frame (net net' : Network) : Prop := mk_token_frame {
  frame_name_service : name_service net' = name_service net;
  frame_addresses : Dict.keys (procs net') = Dict.keys (procs net);
  frame_procs : same_processes net net';
  frame_sent : ∃ ms, sent net' = sent net ++ ms ∧ Forall (clean_message net) ms
}.

(** What the token calls promise: on return or block the frame holds and
    nothing was raised; a remote call may also fail, and then it has done
    nothing but put its message on the wire. *)
Definition passes {A} (net : Network) (o : outcome A) : Prop :=
  match o with
  | Return net' _ | Blocked net' => token_frame net net'
  | Raise _ _ => False
  | OutOfFuel => True
  end.

Definition answers {A} (net : Network) (o : outcome A) : Prop :=
  match o with
  | Return net' _ | Blocked net' => token_frame net net'
  | Raise net' _ => token_frame net net' ∧ procs net' = procs net
  | OutOfFuel => True
  end.

(** Whatever way the call ends, the network it leaves is related to the one
    it started from. *)
Definition preserves (R : relation Network) {A} (m : M A) : Prop :=
  ∀ net net', final (m net) = Some net' → R net net'.

Definition alive_frame (net net' : Network) : Prop :=
  name_service net' = name_service net ∧
  ∀ b, is_Some (Dict.get (procs net') b) ↔ is_Some (Dict.get (procs net) b).

(** Only the process at [t] changed, and not its lock state. *)
Definition member_frame (t : Address) (net net' : Network) : Prop :=
  name_service net' = name_service net ∧
  (∀ b, b ≠ t → Dict.get (procs net') b = Dict.get (procs net) b) ∧
  state_at net' t = state_at net t.

(** No lock state changed. *)
Definition state_frame (net net' : Network) : Prop :=
  name_service net' = name_service net ∧
  ∀ b, state_at net' b = state_at net b.

(** The calls that maintain the peer lists. *)
Definition membership_call (c : Call) : bool :=
  match c with
  | register_peer_call _ _ | unregister_peer_call _ => true
  | _ => false
  end.

Definition invariant (P : Network → Prop) {A} (m : M A) : Prop :=
  ∀ net, P net → ∀ net', final (m net) = Some net' → P net'.

(** While the process at [a] leaves: the same processes run, and the
    directory keeps every entry but those of [a]. *)
Definition quit_frame (a : Address) (net net' : Network) : Prop :=
  (∀ b, is_Some (Dict.get (procs net') b) ↔ is_Some (Dict.get (procs net) b)) ∧
  ∀ b, b ≠ a → b ∈ (name_service net).*2 → b ∈ (name_service net').*2.

(** The order of [most_common]: by descending count. *)
Definition by_count (x y : Z * Z) : Prop := y.2 ≤ x.2.

(** ** A forwarding attempt while request threads run *)

(** [_check_token] from its start to the return of [self._clean_token()]
    (lines 237-261): the state is tested, [localLock] is taken, the target
    is selected and the token is purged, under the lock of the peer list,
    which [_clean_token] frees again at line 230.  [None]: there is no
    target, and the method has returned [False]. *)
Definition check_token_purge (a : Address) : M (option Z) :=
  l ← self a;
  if decide (state l = NO_TOKEN) then mret None
  else
    DistributedLock.localLock_acquire a ;;
    l ← self a;
    c ← owner a;
    match DistributedLock.select_target (id c) (request l) (token l) with
    | Some pid => DistributedLock._clean_token a ;; mret (Some pid)
    | None => DistributedLock.localLock_release a ;; mret None
    end.

(** The rest of [_check_token] (lines 262-271): the state is set, the
    target's stub is looked up, the token is sent, [localLock] is freed. *)
Definition check_token_send (remote : Address → Stub → Call → M unit)
    (a : Address) (pid : Z) : M bool :=
  wasSent ←
    try_except
      (assign a (set_state NO_TOKEN) ;;
       all_peers ← DistributedLock.get_peers a;
       stub ← subscript all_peers pid;
       l ← self a;
       remote a stub (obtain_token_call (token l)) ;;
       mret true)
      (λ e, mret false);
  DistributedLock.localLock_release a ;;
  mret wasSent.



(** What the membership calls leave alone of every process: its id and its
    token; and they send nothing. *)
Definition payload_frame (net net' : Network) : Prop :=
  sent net' = sent net ∧
  ∀ b, (λ c, (id c, token (distributed_lock c))) <$> Dict.get (procs net') b
       = (λ c, (id c, token (distributed_lock c))) <$> Dict.get (procs net) b.

(** ** Executions *)

(** The process at [a] is gone. *)
Definition exit (a : Address) (net : Network) : Network :=
  mkNetwork (Dict.del (procs net) a) (sent net) (name_service net).

(** [p = Client(...)]: an exception out of the constructor ends the
    program. *)
Definition launch (fuel : nat) (pid : Z) (a : Address) (net : Network)
  : option Network :=
  match start fuel pid a net with
  | Return net' _ | Blocked net' => Some net'
  | Raise net' _ => Some (exit a net')
  | OutOfFuel => None
  end.

(** The system: the network, and the processes whose main thread is inside
    [acquire] between the test of line 166, which it found true, and the
    assignment of line 167.  Incoming calls are served on threads of their
    own (that is how the polling loop of [acquire] can ever end), so other
    processes' steps, and the calls they make to this process, may come
    between the two. *)
Record System := mkSystem {
  network : Network;
  before_assign : list Address
}.

Inductive step : System → System → Prop :=
| step_start fuel pid a net pend net' :
    Dict.get (procs net) a = None →
    pid ∉ (name_service net).*1 →
    a ∉ (name_service net).*2 →
    launch fuel pid a net = Some net' →
    step (mkSystem net pend) (mkSystem net' pend)
| step_acquire fuel a net pend c net' :
    a ∉ pend →
    Dict.get (procs net) a = Some c →
    state (distributed_lock c) ≠ TOKEN_PRESENT →
    final (acquire fuel a net) = Some net' →
    step (mkSystem net pend) (mkSystem net' pend)
| step_acquire_test a net pend c :
    a ∉ pend →
    Dict.get (procs net) a = Some c →
    state (distributed_lock c) = TOKEN_PRESENT →
    step (mkSystem net pend) (mkSystem net (a :: pend))
| step_acquire_assign a net pend net' :
    a ∈ pend →
    final (acquire_assign a net) = Some net' →
    step (mkSystem net pend) (mkSystem net' (filter (λ b, b ≠ a) pend))
| step_release fuel a net pend net' :
    a ∉ pend →
    final (release fuel a net) = Some net' →
    step (mkSystem net pend) (mkSystem net' pend)
| step_quit fuel a net pend net' :
    a ∉ pend →
    final (destroy fuel a net) = Some net' →
    step (mkSystem net pend) (mkSystem (exit a net') pend)
| step_crash a net pend :
    step (mkSystem net pend)
         (mkSystem (exit a net) (filter (λ b, b ≠ a) pend)).

Definition reachable : System → Prop :=
  rtc step (mkSystem (mkNetwork [] [] []) []).

(** C1, as claimed: no reachable system has two processes in
    [TOKEN_HELD]. *)
Definition mutual_exclusion : Prop :=
  ∀ sys a b,
    reachable sys → a ≠ b →
    ¬ (state_at (network sys) a = Some TOKEN_HELD ∧
       state_at (network sys) b = Some TOKEN_HELD).

(** Only the process at [a] may have the token. *)
Definition quiet_except (net : Network) (a : Address) : Prop :=
  ∀ b c, Dict.get (procs net) b = Some c →
         state (distributed_lock c) ≠ NO_TOKEN → b = a.

(** No process has the token. *)
Definition quiet (net : Network) : Prop :=
  ∀ b c, Dict.get (procs net) b = Some c →
         state (distributed_lock c) = NO_TOKEN.

(** At most one process is in [TOKEN_PRESENT] or [TOKEN_HELD]. *)
Definition at_most_one (net : Network) : Prop :=
  ∀ a b ca cb,
    Dict.get (procs net) a = Some ca → Dict.get (procs net) b = Some cb →
    state (distributed_lock ca) ≠ NO_TOKEN →
    state (distributed_lock cb) ≠ NO_TOKEN → a = b.

(** What a call keeps of mutual exclusion: however it ends, at most one
    process has the token. *)
Definition keeps_one {A} (o : outcome A) : Prop :=
  ∀ net', final o = Some net' → at_most_one net'.

(** Every running process is listed in the directory. *)
Definition directory_covers (net : Network) : Prop :=
  ∀ b, is_Some (Dict.get (procs net) b) → b ∈ (name_service net).*2.

(** The invariant of the executions in which every call runs to its end. *)
Definition safe (net : Network) : Prop :=
  at_most_one net ∧ directory_covers net.

(** The executions in which every call, [acquire] included, runs to its end
    before the next one starts. *)
Inductive atomic_step : Network → Network → Prop :=
| atomic_start fuel pid a net net' :
    Dict.get (procs net) a = None →
    pid ∉ (name_service net).*1 →
    a ∉ (name_service net).*2 →
    launch fuel pid a net = Some net' →
    atomic_step net net'
| atomic_acquire fuel a net net' :
    final (acquire fuel a net) = Some net' → atomic_step net net'
| atomic_release fuel a net net' :
    final (release fuel a net) = Some net' → atomic_step net net'
| atomic_quit fuel a net net' :
    final (destroy fuel a net) = Some net' → atomic_step net (exit a net')
| atomic_crash a net :
    atomic_step net (exit a net).

(** ** Example networks *)

(** A holder with id 3 that knows of requests from 2, 5 and 1, all newer
    than the token's records, and holds the token unused. *)
Definition host (n : Z) : Address := ("host"%string, 40000 + n).

Definition ring_holder : Client :=
  mkClient 3 (host 3)
    (mkPeerList [(1, mkStub (host 1)); (2, mkStub (host 2)); (5, mkStub (host 5))])
    (mkLock 0 TOKEN_PRESENT false [] [(2, 1); (5, 1); (1, 1)]).

Definition idle_peer (n : Z) (others : list Z) : Client :=
  mkClient n (host n)
    (mkPeerList ((λ m, (m, mkStub (host m))) <$> others))
    DistributedLock.__init__.

Definition ring_net : Network :=
  mkNetwork
    [(host 3, ring_holder); (host 1, idle_peer 1 [2; 3; 5]);
     (host 2, idle_peer 2 [1; 3; 5]); (host 5, idle_peer 5 [1; 2; 3])]
    [] [(1, host 1); (2, host 2); (3, host 3); (5, host 5)].

Definition lone_net : Network :=
  mkNetwork [(host 1, idle_peer 1 [])] [] [(1, host 1)].

(** A holder with id 3 whose token still records peer 7, which has left:
    its peers are 1, 2 and 5, and 5 has an open request. *)
Definition stale_holder : Client :=
  mkClient 3 (host 3)
    (mkPeerList [(1, mkStub (host 1)); (2, mkStub (host 2)); (5, mkStub (host 5))])
    (mkLock 4 TOKEN_PRESENT false [(7, 3); (3, 4); (5, 1)] [(5, 2)]).

Definition stale_net : Network :=
  mkNetwork
    [(host 3, stale_holder); (host 1, idle_peer 1 [2; 3; 5]);
     (host 2, idle_peer 2 [1; 3; 5]); (host 5, idle_peer 5 [1; 2; 3])]
    [] [(1, host 1); (2, host 2); (3, host 3); (5, host 5)].

Definition stale_net_forwarded : Network :=
  Eval vm_compute in
    default stale_net (final (_check_token 5 (host 3) stale_net)).

(** The ring of [ring_net] when peer 1 waits for the token and peer 5, which
    does not, knows of the request of peer 1: the token goes from 3 to 5 and
    on to 1. *)
Definition chain_net : Network :=
  mkNetwork
    [(host 3, ring_holder);
     (host 1,
      mkClient 1 (host 1)
        (mkPeerList [(2, mkStub (host 2)); (3, mkStub (host 3)); (5, mkStub (host 5))])
        (mkLock 1 NO_TOKEN false [] [(1, 1)]));
     (host 2, idle_peer 2 [1; 3; 5]);
     (host 5,
      mkClient 5 (host 5)
        (mkPeerList [(1, mkStub (host 1)); (2, mkStub (host 2)); (3, mkStub (host 3))])
        (mkLock 0 NO_TOKEN false [] [(1, 1)]))]
    [] [(1, host 1); (2, host 2); (3, host 3); (5, host 5)].

(** A holder with id 3 whose token has entries of its peers 5 and 2; peer 2
    waits for the token; peer 5, whose peer list starts with 3, is about to
    leave, so that its [destroy] tells 3 first. *)
Definition racing_holder : Client :=
  mkClient 3 (host 3)
    (mkPeerList [(1, mkStub (host 1)); (2, mkStub (host 2)); (5, mkStub (host 5))])
    (mkLock 4 TOKEN_PRESENT false [(3, 4); (5, 1); (2, 1)] [(2, 2)]).

Definition racing_net : Network :=
  mkNetwork
    [(host 3, racing_holder); (host 1, idle_peer 1 [2; 3; 5]);
     (host 2,
      mkClient 2 (host 2)
        (mkPeerList [(1, mkStub (host 1)); (3, mkStub (host 3)); (5, mkStub (host 5))])
        (mkLock 2 NO_TOKEN false [] [(2, 2)]));
     (host 5, idle_peer 5 [3; 1; 2])]
    [] [(1, host 1); (2, host 2); (3, host 3); (5, host 5)].




Definition dead_target_net : Network :=
  mkNetwork
    [(host 3, ring_holder); (host 1, idle_peer 1 [2; 3; 5]);
     (host 2, idle_peer 2 [1; 3; 5])]
    [] [(1, host 1); (2, host 2); (3, host 3); (5, host 5)].

Definition dead_target_net_after : Network :=
  Eval vm_compute in
    default dead_target_net (final (_check_token 5 (host 3) dead_target_net)).

Definition idle_holder (n : Z) (others : list Z) : Client :=
  with_lock (set_state TOKEN_PRESENT) (idle_peer n others).

(** Peer 2 knows peers 1 and 3; peer 1 is dead, peer 3 holds the token
    unused. *)
Definition dead_peer_net : Network :=
  mkNetwork [(host 2, idle_peer 2 [1; 3]); (host 3, idle_holder 3 [1; 2])] []
    [(1, host 1); (2, host 2); (3, host 3)].

Definition dead_peer_net_after : Network :=
  Eval vm_compute in
    default dead_peer_net (final (acquire 5 (host 2) dead_peer_net)).

(** Holder 3 knows peers 1, 2 and 5; peers 1 and 5 are dead. *)
Definition two_dead_net : Network :=
  mkNetwork [(host 3, ring_holder); (host 2, idle_peer 2 [1; 3; 5])] []
    [(1, host 1); (2, host 2); (3, host 3); (5, host 5)].

(** Node 3 starts; the directory lists node 5 and node 3 itself. *)
Definition joining_net : Network :=
  mkNetwork [(host 5, idle_peer 5 []); (host 3, idle_peer 3 [])] []
    [(5, host 5); (3, host 3)].

Definition joining_net_after : Network :=
  Eval vm_compute in
    default joining_net
      (final (PeerList.initialize (remote 5) (owner_unregister_peer 5)
                (host 3) joining_net)).

(** Peer 1 has started alone and has the token. *)
Definition one_peer : Network :=
  Eval vm_compute in
    default (mkNetwork [] [] []) (launch 5 1 (host 1) (mkNetwork [] [] [])).

(** Peer 2 has joined. *)
Definition two_peers : Network :=
  Eval vm_compute in default one_peer (launch 5 2 (host 2) one_peer).

(** Peer 3 has joined as well. *)
Definition three_peers : Network :=
  Eval vm_compute in default two_peers (launch 5 3 (host 3) two_peers).

(** Peer 2 has called [acquire] and got the token from peer 1. *)
Definition two_peers_handed : Network :=
  Eval vm_compute in
    default two_peers (final (acquire 5 (host 2) two_peers)).

(** Peer 1 has called [acquire] in turn and waits for the token. *)
Definition two_peers_waiting : Network :=
  Eval vm_compute in
    default two_peers_handed (final (acquire 5 (host 1) two_peers_handed)).

(** Peer 1 has run the assignment of line 167. *)
Definition two_peers_both : Network :=
  Eval vm_compute in
    default two_peers_handed (final (acquire_assign (host 1) two_peers_handed)).

(** * Properties *)

(** ** Dictionaries *)

Module DictFacts.
Import Dict.
Section Facts.
Context {K V : Type} `{EqDecision K}.
Implicit Types (d acc : dict K V) (k : K) (v : V).

Lemma get_set_eq d k v : get (set d k v) k = Some v.
Proof.
  induction d as [|[k' v'] d IH]; simpl.
  - by rewrite decide_True.
  - destruct (decide (k' = k)) as [->|Hne]; simpl.
    + by rewrite decide_True.
    + by rewrite decide_False.
Qed.

Lemma get_set_ne d k k' v : k ≠ k' → get (set d k v) k' = get d k'.
Proof.
  intros Hne. induction d as [|[k0 v0] d IH]; simpl.
  - by rewrite decide_False.
  - destruct (decide (k0 = k)) as [->|Hk]; simpl.
    + by rewrite !decide_False.
    + destruct (decide (k0 = k')); auto.
Qed.

Lemma get_set d k k' v :
  get (set d k v) k' = if decide (k = k') then Some v else get d k'.
Proof.
  destruct (decide (k = k')) as [->|Hne];
    auto using get_set_eq, get_set_ne.
Qed.

Lemma set_set d k v v' : set (set d k v) k v' = set d k v'.
Proof.
  induction d as [|[k0 v0] d IH]; simpl.
  - by rewrite decide_True.
  - destruct (decide (k0 = k)) as [->|Hk]; simpl.
    + by rewrite decide_True.
    + rewrite decide_False by done. by rewrite IH.
Qed.

Lemma set_same d k v : get d k = Some v → set d k v = d.
Proof.
  induction d as [|[k0 v0] d IH]; simpl; [done|].
  destruct (decide (k0 = k)) as [->|Hk]; [by intros [= ->]|].
  intros Hg. by rewrite IH.
Qed.

Lemma get_del_eq d k : get (del d k) k = None.
Proof.
  induction d as [|[k' v'] d IH]; simpl; [done|].
  destruct (decide (k' = k)); simpl; [done|]. by rewrite decide_False.
Qed.

Lemma get_del_ne d k k' : k ≠ k' → get (del d k) k' = get d k'.
Proof.
  intros Hne. induction d as [|[k0 v0] d IH]; simpl; [done|].
  destruct (decide (k0 = k)) as [->|Hk]; simpl.
  - by rewrite decide_False.
  - by rewrite IH.
Qed.

Lemma get_Some_keys d k v : get d k = Some v → k ∈ keys d.
Proof.
  induction d as [|[k' v'] d IH]; simpl; [done|].
  destruct (decide (k' = k)) as [->|Hk]; intros H.
  - constructor.
  - apply list_elem_of_further. auto.
Qed.

Lemma get_None_keys d k : get d k = None ↔ k ∉ keys d.
Proof.
  induction d as [|[k' v'] d IH]; simpl.
  - split; [intros _; apply not_elem_of_nil | done].
  - rewrite not_elem_of_cons. destruct (decide (k' = k)) as [->|Hk].
    + split; [done | intros [? _]; done].
    + rewrite IH. intuition congruence.
Qed.

Lemma keys_get d k : k ∈ keys d → is_Some (get d k).
Proof.
  intros Hin. destruct (get d k) eqn:E; [eauto|].
  by apply get_None_keys in E.
Qed.

Lemma keys_set d k v :
  keys (set d k v) = if mem k d then keys d else keys d ++ [k].
Proof.
  unfold mem, keys. induction d as [|[k' v'] d IH]; [done|].
  cbn [set get]. destruct (decide (k' = k)) as [->|Hk]; [done|].
  rewrite !fmap_cons, IH. by destruct (get d k).
Qed.

Lemma elem_of_keys_set d k v k' :
  k' ∈ keys (set d k v) ↔ k' = k ∨ k' ∈ keys d.
Proof.
  rewrite keys_set. unfold mem. destruct (get d k) eqn:E.
  - apply get_Some_keys in E. naive_solver.
  - rewrite elem_of_app, list_elem_of_singleton. naive_solver.
Qed.

Lemma set_fresh d k v : k ∉ keys d → set d k v = d ++ [(k, v)].
Proof.
  unfold keys. induction d as [|[k0 v0] d IH]; simpl; [done|].
  rewrite not_elem_of_cons. intros [Hne Hd].
  rewrite decide_False by done. by rewrite IH.
Qed.

Lemma NoDup_keys_set d k v : NoDup (keys d) → NoDup (keys (set d k v)).
Proof.
  intros Hd. rewrite keys_set. unfold mem.
  destruct (get d k) eqn:E; [done|].
  apply get_None_keys in E. apply list.NoDup_app. split; [done|].
  split; [|apply NoDup_singleton].
  intros x Hx ->%list_elem_of_singleton. done.
Qed.

Lemma NoDup_keys_comprehension {A} acc (l : list A) (kf : A → K) (vf : A → V) :
  NoDup (keys acc) → NoDup (keys (comprehension_from acc l kf vf)).
Proof.
  revert acc. induction l as [|x l IH]; intros acc Hacc; simpl; [done|].
  apply IH. by apply NoDup_keys_set.
Qed.

Lemma get_comprehension acc (l : list K) (vf : K → V) k :
  get (comprehension_from acc l (λ x, x) vf) k =
  if decide (k ∈ l) then Some (vf k) else get acc k.
Proof.
  revert acc. induction l as [|k0 l IH]; intros acc.
  - destruct (decide (k ∈ [])) as [Hin|]; [|done].
    by apply elem_of_nil in Hin.
  - change (comprehension_from acc (k0 :: l) (λ x, x) vf)
      with (comprehension_from (set acc k0 (vf k0)) l (λ x, x) vf).
    rewrite IH. destruct (decide (k ∈ l)) as [Hin|Hnin].
    + rewrite decide_True; [done|by right].
    + rewrite get_set. destruct (decide (k0 = k)) as [->|Hne].
      * rewrite decide_True; [done|by left].
      * rewrite decide_False; [done|]. rewrite elem_of_cons. naive_solver.
Qed.

Lemma elem_of_keys_comprehension acc (l : list K) (vf : K → V) k :
  k ∈ keys (comprehension_from acc l (λ x, x) vf) ↔ k ∈ keys acc ∨ k ∈ l.
Proof.
  revert acc. induction l as [|k0 l IH]; intros acc; simpl.
  - rewrite elem_of_nil. tauto.
  - rewrite IH, elem_of_keys_set, elem_of_cons. tauto.
Qed.

Lemma of_items_app acc d :
  NoDup (keys (acc ++ d)) →
  foldl (λ acc kv, set acc kv.1 kv.2) acc d = acc ++ d.
Proof.
  revert acc. induction d as [|[k v] d IH]; intros acc Hnd; simpl.
  - by rewrite app_nil_r.
  - rewrite set_fresh.
    + rewrite IH; rewrite <- app_assoc; done.
    + unfold keys in Hnd. rewrite fmap_app in Hnd.
      apply list.NoDup_app in Hnd as (_ & Hdisj & _).
      intros Hin. apply (Hdisj k Hin). simpl. by left.
Qed.

(** A dictionary without repeated keys is rebuilt as it is. *)
Lemma of_items_id d : NoDup (keys d) → of_items (items d) = d.
Proof. intros Hd. unfold of_items, items. by rewrite of_items_app. Qed.
End Facts.
End DictFacts.

Module CounterFacts.
Section Facts.
Context {K : Type} `{EqDecision K}.
Implicit Types (c : Counter K) (k : K).

Lemma get_set_count c k k' v :
  Counter.get (Dict.set c k v) k' =
  if decide (k = k') then v else Counter.get c k'.
Proof.
  unfold Counter.get. rewrite DictFacts.get_set.
  by destruct (decide (k = k')).
Qed.

Lemma get_not_key c k : k ∉ Dict.keys c → Counter.get c k = 0.
Proof.
  intros H. unfold Counter.get. by apply DictFacts.get_None_keys in H as ->.
Qed.
End Facts.
End CounterFacts.

(** ** Running a method on a known process *)

Lemma get_upd_eq net a c : Dict.get (procs (upd net a c)) a = Some c.
Proof. apply DictFacts.get_set_eq. Qed.

Lemma get_upd_ne net a b c :
  a ≠ b → Dict.get (procs (upd net a c)) b = Dict.get (procs net) b.
Proof. apply DictFacts.get_set_ne. Qed.

Lemma get_upd net a b c :
  Dict.get (procs (upd net a c)) b =
  if decide (a = b) then Some c else Dict.get (procs net) b.
Proof. apply DictFacts.get_set. Qed.

Lemma upd_upd net a c c' : upd (upd net a c) a c' = upd net a c'.
Proof. unfold upd; simpl. by rewrite DictFacts.set_set. Qed.

Lemma keys_upd net a c c' :
  Dict.get (procs net) a = Some c →
  Dict.keys (procs (upd net a c')) = Dict.keys (procs net).
Proof.
  intros Hc. unfold upd; simpl. rewrite DictFacts.keys_set. unfold Dict.mem.
  by rewrite Hc.
Qed.

Lemma upd_same net a c : Dict.get (procs net) a = Some c → upd net a c = net.
Proof. intros H. unfold upd. rewrite (DictFacts.set_same _ _ _ H). by destruct net. Qed.

Lemma owner_run a net c :
  Dict.get (procs net) a = Some c → owner a net = Return net c.
Proof. unfold owner. by intros ->. Qed.

Lemma self_run a net c :
  Dict.get (procs net) a = Some c →
  self a net = Return net (distributed_lock c).
Proof. intros Hc. unfold self, mbind, M_bind. by rewrite (owner_run a net c). Qed.

(** Runs the straight-line part of a method at an address whose process is
    known by [H]. *)
Ltac mrun H :=
  repeat first
    [ progress unfold mbind, M_bind, mret, M_ret, owner, self, assign, modify,
        raise, block, try_except, subscript,
        DistributedLock.get_peers, DistributedLock.localLock_acquire,
        DistributedLock.localLock_release, DistributedLock._clean_token,
        PeerList.get_peers,
        with_lock, with_peers, set_state, set_time, set_localLock, set_token,
        set_request
    | progress cbn [distributed_lock peer_list peers id address
                    state time localLock token request]
    | rewrite H | rewrite get_upd_eq | rewrite upd_upd ].

Section CheckToken.
Variable remote : Address → Stub → Call → M unit.
Variables (a : Address) (net : Network) (c : Client).
Hypothesis Hc : Dict.get (procs net) a = Some c.

Lemma _check_token_no_token :
  state (distributed_lock c) = NO_TOKEN →
  DistributedLock._check_token remote a net = Return net false.
Proof.
  intros Hs. unfold DistributedLock._check_token. mrun Hc.
  by rewrite decide_True.
Qed.

Lemma _check_token_locked :
  state (distributed_lock c) ≠ NO_TOKEN →
  localLock (distributed_lock c) = true →
  DistributedLock._check_token remote a net = Blocked net.
Proof.
  intros Hs Hl. unfold DistributedLock._check_token. mrun Hc.
  rewrite decide_False by done. mrun Hc. by rewrite Hl.
Qed.

Lemma _check_token_keep :
  state (distributed_lock c) ≠ NO_TOKEN →
  localLock (distributed_lock c) = false →
  chosen c = None →
  DistributedLock._check_token remote a net = Return net false.
Proof.
  intros Hs Hl Ht. unfold DistributedLock._check_token. mrun Hc.
  rewrite decide_False by done. mrun Hc. rewrite Hl. mrun Hc.
  fold (chosen c). rewrite Ht. mrun Hc.
  rewrite upd_same; [done|]. rewrite Hc. f_equal.
  destruct c as [? ? ? []]; simpl in *. by subst.
Qed.

Lemma _check_token_KeyError pid :
  state (distributed_lock c) ≠ NO_TOKEN →
  localLock (distributed_lock c) = false →
  chosen c = Some pid →
  Dict.get (peers (peer_list c)) pid = None →
  DistributedLock._check_token remote a net =
  Return (upd net a (relock (handing_over c) NO_TOKEN false
                       (token (distributed_lock (handing_over c))))) false.
Proof.
  intros Hs Hl Ht Hp. unfold DistributedLock._check_token. mrun Hc.
  rewrite decide_False by done. mrun Hc. rewrite Hl. mrun Hc.
  fold (chosen c). rewrite Ht. mrun Hc. rewrite Hp. by mrun Hc.
Qed.

Lemma _check_token_send pid stub :
  state (distributed_lock c) ≠ NO_TOKEN →
  localLock (distributed_lock c) = false →
  chosen c = Some pid →
  Dict.get (peers (peer_list c)) pid = Some stub →
  DistributedLock._check_token remote a net =
  after_send a
    (remote a stub
       (obtain_token_call (token (distributed_lock (handing_over c))))
       (upd net a (handing_over c))).
Proof.
  intros Hs Hl Ht Hp. unfold DistributedLock._check_token. mrun Hc.
  rewrite decide_False by done. mrun Hc. rewrite Hl. mrun Hc.
  fold (chosen c). rewrite Ht. mrun Hc. rewrite Hp. mrun Hc.
  unfold after_send, handing_over, relock. simpl.
  by destruct (remote _ _ _ _).
Qed.
End CheckToken.

(** ** Forwarding order *)

Lemma Forall_weaken {A} (P Q : A → Prop) (l : list A) :
  (∀ x, P x → Q x) → Forall P l → Forall Q l.
Proof. intros HPQ. induction 1; constructor; auto. Qed.

Lemma Forall_elem_of {A} (P : A → Prop) (l : list A) (x : A) :
  Forall P l → x ∈ l → P x.
Proof.
  induction 1 as [|y l Hy Hl IH]; [by intros ?%elem_of_nil|].
  intros [->|Hin]%elem_of_cons; auto.
Qed.

Lemma find_first {A} (f : A → bool) (l : list A) :
  match List.find f l with
  | Some x =>
      ∃ before rest, l = before ++ x :: rest ∧ f x = true ∧
                     Forall (λ y, f y = false) before
  | None => Forall (λ y, f y = false) l
  end.
Proof.
  induction l as [|y l IH]; simpl; [constructor|].
  destruct (f y) eqn:Hy.
  - by exists [], l.
  - destruct (List.find f l) as [x|].
    + destruct IH as (before & rest & -> & Hx & Hb).
      exists (y :: before), rest. by repeat constructor.
    + by constructor.
Qed.

Lemma sorted_Sorted l : Sorted Z.le (sorted l).
Proof. apply Sorted_merge_sort, _. Qed.

Lemma sorted_Permutation l : sorted l ≡ₚ l.
Proof. apply merge_sort_Permutation. Qed.

Lemma wants_true request token pid :
  DistributedLock.wants request token pid = true ↔
  Counter.get token pid < Counter.get request pid.
Proof. unfold DistributedLock.wants. apply bool_decide_eq_true. Qed.

Lemma wants_false request token pid :
  DistributedLock.wants request token pid = false ↔
  Counter.get request pid ≤ Counter.get token pid.
Proof.
  unfold DistributedLock.wants. rewrite bool_decide_eq_false. lia.
Qed.

(** C6. [_check_token] scans the requester ids in clockwise ring order: the
    ids greater than its own in ascending order, then the ids smaller than
    its own in ascending order (requesters 2, 5, 1 at holder 3 are scanned as
    5, 1, 2).  The target is the first id of that order whose request
    timestamp exceeds the token's record, and the token is sent to it; when
    no id qualifies nothing is sent and nothing changes, so the holder stays
    in [TOKEN_PRESENT]. *)
Theorem forwarding_order remote a net c :
  Dict.get (procs net) a = Some c →
  state (distributed_lock c) = TOKEN_PRESENT →
  localLock (distributed_lock c) = false →
  let req := request (distributed_lock c) in
  let tok := token (distributed_lock c) in
  let order := DistributedLock.scan_order (id c) (Dict.keys req) in
  (∃ gt lt,
      order = gt ++ lt ∧ Sorted Z.le gt ∧ Sorted Z.le lt ∧
      gt ≡ₚ filter (λ pid, id c < pid) (Dict.keys req) ∧
      lt ≡ₚ filter (λ pid, pid < id c) (Dict.keys req)) ∧
  DistributedLock.scan_order 3 [2; 5; 1] = [5; 1; 2] ∧
  match DistributedLock.select_target (id c) req tok with
  | Some pid =>
      (∃ before rest,
          order = before ++ pid :: rest ∧
          Counter.get tok pid < Counter.get req pid ∧
          Forall (λ q, Counter.get req q ≤ Counter.get tok q) before) ∧
      (∀ stub, Dict.get (peers (peer_list c)) pid = Some stub →
          DistributedLock._check_token remote a net =
          after_send a
            (remote a stub
               (obtain_token_call (token (distributed_lock (handing_over c))))
               (upd net a (handing_over c))))
  | None =>
      Forall (λ q, Counter.get req q ≤ Counter.get tok q) order ∧
      DistributedLock._check_token remote a net = Return net false
  end.
Proof.
  intros Hc Hs Hl req tok order.
  assert (Hst : state (distributed_lock c) ≠ NO_TOKEN) by (by rewrite Hs).
  split; [|split; [reflexivity|]].
  - eexists _, _. split; [reflexivity|].
    auto using sorted_Sorted, sorted_Permutation.
  - pose proof (find_first (DistributedLock.wants req tok) order) as Hf.
    unfold DistributedLock.select_target. fold order.
    destruct (List.find _ order) as [pid|] eqn:Hfind.
    + destruct Hf as (before & rest & Ho & Hw & Hb). split.
      * exists before, rest. split; [done|]. split; [by apply wants_true|].
        eapply Forall_weaken; [|exact Hb]. intros q. apply wants_false.
      * intros stub Hstub. by apply _check_token_send with (pid := pid).
    + split.
      * eapply Forall_weaken; [|exact Hf]. intros q. apply wants_false.
      * apply (_check_token_keep remote a net c Hc Hst Hl).
        unfold DistributedLock.select_target. fold req tok order. exact Hfind.
Qed.

Lemma forwarding_order_witness :
  DistributedLock.select_target 3 [(2, 1); (5, 1); (1, 1)] [] = Some 5 ∧
  DistributedLock._check_token (remote 5) (host 3) ring_net =
  after_send (host 3)
    (remote 5 (host 3) (mkStub (host 5))
       (obtain_token_call (token (distributed_lock (handing_over ring_holder))))
       (upd ring_net (host 3) (handing_over ring_holder))).
Proof.
  split; [reflexivity|].
  pose proof (forwarding_order (remote 5) (host 3) ring_net ring_holder
                eq_refl eq_refl eq_refl) as (_ & _ & H).
  change (DistributedLock.select_target (id ring_holder)
            (request (distributed_lock ring_holder))
            (token (distributed_lock ring_holder)))
    with (Some 5) in H.
  destruct H as [_ H]. exact (H (mkStub (host 5)) eq_refl).
Defined.

(** ** Dictionaries built by comprehension *)

Lemma of_mapping_comprehension {K} `{EqDecision K} {A}
    (l : list A) (kf : A → K) (vf : A → Z) :
  Counter.of_mapping (Dict.comprehension l kf vf) = Dict.comprehension l kf vf.
Proof.
  unfold Counter.of_mapping.
  apply DictFacts.of_items_id, DictFacts.NoDup_keys_comprehension.
  constructor.
Qed.

Lemma get_adopted_payload (tok : Counter Z) k :
  Counter.get (Dict.comprehension (Dict.keys tok) py_int (Counter.get tok)) k =
  Counter.get tok k.
Proof.
  unfold Counter.get at 1, Dict.comprehension.
  change py_int with (λ x : Z, x). rewrite DictFacts.get_comprehension.
  destruct (decide (k ∈ Dict.keys tok)) as [Hin|Hnin]; simpl; [done|].
  by rewrite CounterFacts.get_not_key.
Qed.

Lemma cleaned_eq owner_id all_peers (token : Counter Z) :
  DistributedLock.cleaned owner_id all_peers token =
  Dict.comprehension_from []
    (filter (λ pid, pid = owner_id ∨ Dict.mem pid all_peers = true)
            (Dict.keys token))
    (λ pid, pid) (Counter.get token).
Proof. apply of_mapping_comprehension. Qed.

Lemma elem_of_keys_cleaned owner_id all_peers (token : Counter Z) k :
  k ∈ Dict.keys (DistributedLock.cleaned owner_id all_peers token) ↔
  (k = owner_id ∨ k ∈ Dict.keys all_peers) ∧ k ∈ Dict.keys token.
Proof.
  rewrite cleaned_eq, DictFacts.elem_of_keys_comprehension, list_elem_of_filter.
  unfold Dict.mem. split.
  - intros [[]%elem_of_nil | [[-> | Hm] Hk]]; (split; [|done]); [by left|].
    right. destruct (Dict.get all_peers k) eqn:E; [|done].
    by eapply DictFacts.get_Some_keys.
  - intros [[-> | Hm] Hk]; right; (split; [|done]); [by left|].
    right. by apply DictFacts.keys_get in Hm as [? ->].
Qed.

Lemma get_cleaned owner_id all_peers (token : Counter Z) k :
  Counter.get (DistributedLock.cleaned owner_id all_peers token) k =
  if decide (k = owner_id ∨ k ∈ Dict.keys all_peers)
  then Counter.get token k else 0.
Proof.
  destruct (decide (k ∈ Dict.keys (DistributedLock.cleaned owner_id all_peers token)))
    as [Hin|Hnin].
  - pose proof Hin as [Hk Ht]%elem_of_keys_cleaned.
    rewrite decide_True by done. rewrite cleaned_eq in Hin |- *.
    unfold Counter.get at 1. rewrite DictFacts.get_comprehension.
    apply DictFacts.elem_of_keys_comprehension in Hin as [[]%elem_of_nil|Hin].
    by rewrite decide_True.
  - rewrite (CounterFacts.get_not_key _ _ Hnin).
    rewrite elem_of_keys_cleaned in Hnin. case_decide; [|done].
    rewrite CounterFacts.get_not_key; [done|]. tauto.
Qed.

(** ** Bootstrap *)

(** C9. After [DistributedLock.initialize] a peer whose membership set is
    empty is in [TOKEN_PRESENT]; for a peer whose membership set is not empty
    [initialize] changes nothing, so it remains in [NO_TOKEN]. *)
Theorem initialize_bootstrap a net c :
  Dict.get (procs net) a = Some c →
  ∃ net',
    DistributedLock.initialize a net = Return net' tt ∧
    (peers (peer_list c) = [] → state_at net' a = Some TOKEN_PRESENT) ∧
    (peers (peer_list c) ≠ [] → net' = net) ∧
    (peers (peer_list c) ≠ [] →
     distributed_lock c = DistributedLock.__init__ →
     state_at net' a = Some NO_TOKEN).
Proof.
  intros Hc. unfold DistributedLock.initialize. mrun Hc.
  destruct (peers (peer_list c)) as [|p ps] eqn:Hp; simpl; mrun Hc.
  - eexists. split; [reflexivity|]. split; [|done].
    intros _. unfold state_at. by rewrite get_upd_eq.
  - exists net. split; [reflexivity|]. split; [done|]. split; [done|].
    intros _ Hl. unfold state_at. rewrite Hc. simpl. by rewrite Hl.
Qed.

Lemma initialize_bootstrap_witness :
  state_at lone_net (host 1) = Some NO_TOKEN ∧
  ∃ net',
    DistributedLock.initialize (host 1) lone_net = Return net' tt ∧
    state_at net' (host 1) = Some TOKEN_PRESENT.
Proof.
  split; [reflexivity|].
  destruct (initialize_bootstrap (host 1) lone_net (idle_peer 1 []) eq_refl)
    as (net' & Hrun & Hempty & _).
  exists net'. split; [exact Hrun|]. exact (Hempty eq_refl).
Defined.

(** ** Receiving the token *)

Lemma obtain_token_run remote a net c tok :
  Dict.get (procs net) a = Some c →
  DistributedLock.obtain_token remote a tok net =
  (if negb (bool_decide (Counter.get tok (id c)
                         < Counter.get (request (distributed_lock c)) (id c)))
   then DistributedLock.release remote a else mret tt)
    (upd net a (adopted c tok)).
Proof.
  intros Hc. unfold DistributedLock.obtain_token.
  rewrite of_mapping_comprehension.
  mrun Hc. pose proof (get_adopted_payload tok (id c)) as ->. done.
Qed.

(** C8. [obtain_token] adopts the incoming payload as the token, sets the
    token's entry for the node's own id to the local clock and moves to
    [TOKEN_HELD]; it then calls [release()] exactly when the node's own
    request timestamp does not exceed the record the incoming payload had
    for the node, and [release()] then leaves [TOKEN_HELD] for
    [TOKEN_PRESENT] and runs the forwarding check. *)
Theorem obtain_token_semantics remote a net c tok :
  Dict.get (procs net) a = Some c →
  let c' := adopted c tok in
  let own_request := Counter.get (request (distributed_lock c)) (id c) in
  state (distributed_lock c') = TOKEN_HELD ∧
  (∀ k, Counter.get (token (distributed_lock c')) k =
        if decide (k = id c) then time (distributed_lock c)
        else Counter.get tok k) ∧
  (Counter.get tok (id c) < own_request →
   DistributedLock.obtain_token remote a tok net = Return (upd net a c') tt) ∧
  (own_request ≤ Counter.get tok (id c) →
   DistributedLock.obtain_token remote a tok net =
   DistributedLock.release remote a (upd net a c') ∧
   DistributedLock.release remote a (upd net a c') =
   (DistributedLock._check_token remote a ;; mret tt)
     (upd net a (relock c' TOKEN_PRESENT (localLock (distributed_lock c))
                   (token (distributed_lock c'))))).
Proof.
  intros Hc c' own_request. split; [done|]. split.
  { intros k. unfold c', adopted, relock; simpl.
    rewrite CounterFacts.get_set_count. destruct (decide (id c = k)) as [<-|Hne].
    - by rewrite decide_True.
    - rewrite decide_False by done. apply get_adopted_payload. }
  pose proof (obtain_token_run remote a net c tok Hc) as Hrun.
  fold c' own_request in Hrun.
  split.
  - intros Hw. rewrite Hrun. by rewrite bool_decide_eq_true_2.
  - intros Hw. rewrite Hrun. rewrite bool_decide_eq_false_2 by lia.
    split; [done|]. unfold DistributedLock.release.
    pose proof (get_upd_eq net a c') as Hc'. mrun Hc'.
    rewrite decide_True by done. by mrun Hc'.
Qed.

Lemma obtain_token_semantics_witness :
  DistributedLock.obtain_token (remote 5) (host 1) [(3, 2)] ring_net =
  DistributedLock.release (remote 5) (host 1)
    (upd ring_net (host 1) (adopted (idle_peer 1 [2; 3; 5]) [(3, 2)])).
Proof.
  pose proof (obtain_token_semantics (remote 5) (host 1) ring_net
                (idle_peer 1 [2; 3; 5]) [(3, 2)] eq_refl) as (_ & _ & _ & H).
  apply H. vm_compute. discriminate.
Defined.

(** ** The wire form of the token *)

Lemma keys_of_iterable_prepare (l : list (DistributedLock.PyVal * Z)) acc k :
  k ∈ Dict.keys
        (foldl (λ acc elem, Dict.set acc elem (Counter.get acc elem + 1)) acc
           ((λ kv, DistributedLock.PyTuple kv.1 (DistributedLock.PyInt kv.2)) <$> l)) →
  k ∈ Dict.keys acc ∨ ∃ x y, k = DistributedLock.PyTuple x y.
Proof.
  revert acc. induction l as [|[x y] l IH]; intros acc; simpl; [by left|].
  intros [Hin|Hex]%IH; [|by right].
  apply DictFacts.elem_of_keys_set in Hin as [->|Hin]; [right; eauto|by left].
Qed.

(** C4. [_unprepare(_prepare(token))] is not the token: [Counter] applied
    to the list of [(pid, timestamp)] pairs counts the pairs, so the result
    is keyed by pairs and every peer id reads as [0] in it.  For the
    token [{1: 5}] the result is [{(1, 5): 1}]; only an empty token comes
    back. *)
Theorem unprepare_prepare_counts_pairs :
  (∀ token n,
     Counter.get
       (DistributedLock._unprepare
          (DistributedLock._prepare (DistributedLock.py_token token)))
       (DistributedLock.PyInt n) = 0) ∧
  DistributedLock._unprepare
    (DistributedLock._prepare (DistributedLock.py_token [(1, 5)])) =
  [(DistributedLock.PyTuple (DistributedLock.PyInt 1) (DistributedLock.PyInt 5), 1)] ∧
  Counter.get (DistributedLock.py_token [(1, 5)]) (DistributedLock.PyInt 1) = 5 ∧
  DistributedLock._unprepare
    (DistributedLock._prepare (DistributedLock.py_token [])) =
  DistributedLock.py_token [].
Proof.
  split; [|by vm_compute].
  intros token n. apply CounterFacts.get_not_key.
  unfold DistributedLock._unprepare, DistributedLock._prepare,
    Counter.of_iterable, Dict.items.
  intros [[]%elem_of_nil | (x & y & [=])]%keys_of_iterable_prepare.
Qed.

(** ** The token methods, case by case *)

Lemma final_void {A} (o : outcome A) : final (void o) = final o.
Proof. by destruct o. Qed.

Section TokenMethods.
Variable remote : Address → Stub → Call → M unit.
Variables (a : Address) (net : Network).

Lemma method_ProcessGone :
  Dict.get (procs net) a = None →
  DistributedLock._check_token remote a net = Raise net (ProcessGone a) ∧
  DistributedLock.release remote a net = Raise net (ProcessGone a) ∧
  (∀ tok, DistributedLock.obtain_token remote a tok net
          = Raise net (ProcessGone a)) ∧
  (∀ t pid, DistributedLock.request_token remote a t pid net
          = Raise net (ProcessGone a)).
Proof.
  intros Hc.
  unfold DistributedLock._check_token, DistributedLock.release,
    DistributedLock.obtain_token, DistributedLock.request_token.
  repeat split; intros; by mrun Hc.
Qed.

Variable c : Client.
Hypothesis Hc : Dict.get (procs net) a = Some c.

Lemma release_unfold :
  DistributedLock.release remote a net =
  if decide (state (distributed_lock c) = TOKEN_HELD)
  then void (DistributedLock._check_token remote a (upd net a (released c)))
  else Return net tt.
Proof.
  unfold DistributedLock.release. mrun Hc.
  destruct (decide (state (distributed_lock c) = TOKEN_HELD)); [|done].
  mrun Hc. unfold released, relock.
  by destruct (DistributedLock._check_token _ _ _).
Qed.

Lemma obtain_token_unfold tok :
  DistributedLock.obtain_token remote a tok net =
  if decide (Counter.get tok (id c)
             < Counter.get (request (distributed_lock c)) (id c))
  then Return (upd net a (adopted c tok)) tt
  else DistributedLock.release remote a (upd net a (adopted c tok)).
Proof.
  rewrite (obtain_token_run remote a net c tok Hc).
  case_decide.
  - by rewrite bool_decide_eq_true_2.
  - by rewrite bool_decide_eq_false_2.
Qed.

Lemma request_token_unfold t pid :
  DistributedLock.request_token remote a t pid net =
  if bool_decide (state (distributed_lock c) = TOKEN_PRESENT) &&
     DistributedLock.wants (request (distributed_lock (merged c t pid)))
       (token (distributed_lock c)) pid
  then void (DistributedLock._check_token remote a (upd net a (merged c t pid)))
  else Return (upd net a (merged c t pid)) tt.
Proof.
  unfold DistributedLock.request_token. mrun Hc.
  unfold merged. mrun Hc.
  destruct (_ && _); [|done].
  by destruct (DistributedLock._check_token _ _ _).
Qed.
End TokenMethods.

(** [after_send] on a network where the sender still runs. *)
Lemma after_send_alive a o :
  (∀ net', final o = Some net' → is_Some (Dict.get (procs net') a)) →
  match o with
  | Return net' _ =>
      ∃ c', Dict.get (procs net') a = Some c' ∧
            after_send a o =
            Return (upd net' a (with_lock (set_localLock false) c')) true
  | Raise net' _ =>
      ∃ c', Dict.get (procs net') a = Some c' ∧
            after_send a o =
            Return (upd net' a (with_lock (set_localLock false) c')) false
  | Blocked net' => after_send a o = Blocked net'
  | OutOfFuel => after_send a o = OutOfFuel
  end.
Proof.
  intros Halive. destruct o as [net' []|net' e|net'|]; simpl; try done.
  - destruct (Halive net' eq_refl) as [c' Hc']. exists c'. split; [done|].
    unfold DistributedLock.localLock_release. by mrun Hc'.
  - destruct (Halive net' eq_refl) as [c' Hc']. exists c'. split; [done|].
    unfold DistributedLock.localLock_release. by mrun Hc'.
Qed.

(** ** What passing the token leaves alone *)

Lemma same_membership_refl c : same_membership c c.
Proof. by repeat split. Qed.

Lemma same_membership_trans c1 c2 c3 :
  same_membership c1 c2 → same_membership c2 c3 → same_membership c1 c3.
Proof. unfold same_membership. intuition congruence. Qed.

Lemma same_processes_get net net' b c :
  same_processes net net' → Dict.get (procs net) b = Some c →
  ∃ c', Dict.get (procs net') b = Some c' ∧ same_membership c c'.
Proof.
  intros H Hc. specialize (H b). rewrite Hc in H.
  destruct (Dict.get (procs net') b) as [c'|]; [eauto|done].
Qed.

Lemma same_processes_get_inv net net' b c' :
  same_processes net net' → Dict.get (procs net') b = Some c' →
  ∃ c, Dict.get (procs net) b = Some c ∧ same_membership c c'.
Proof.
  intros H Hc. specialize (H b). rewrite Hc in H.
  destruct (Dict.get (procs net) b) as [c|]; [eauto|done].
Qed.

Lemma clean_payload_same c c' tok :
  same_membership c c' → clean_payload c tok ↔ clean_payload c' tok.
Proof.
  intros (Hid & _ & Hpl & _). unfold clean_payload. by rewrite Hid, Hpl.
Qed.

Lemma token_frame_refl net : token_frame net net.
Proof.
  split; [done|done| |].
  - intros b. destruct (Dict.get (procs net) b); [apply same_membership_refl|done].
  - exists []. by rewrite app_nil_r.
Qed.

Lemma token_frame_trans net1 net2 net3 :
  token_frame net1 net2 → token_frame net2 net3 → token_frame net1 net3.
Proof.
  intros [Hns1 Ha1 Hp1 (ms1 & Hs1 & Hm1)] [Hns2 Ha2 Hp2 (ms2 & Hs2 & Hm2)].
  split; [congruence|congruence| |].
  - intros b. specialize (Hp1 b). specialize (Hp2 b).
    destruct (Dict.get (procs net1) b), (Dict.get (procs net2) b),
      (Dict.get (procs net3) b); try done.
    by eapply same_membership_trans.
  - exists (ms1 ++ ms2). split; [by rewrite Hs2, Hs1, app_assoc|].
    apply Forall_app. split; [done|].
    eapply Forall_weaken; [|exact Hm2]. intros m (tok & c2 & Hcall & Hfrom & Hclean).
    destruct (same_processes_get_inv _ _ _ _ Hp1 Hfrom) as (c1 & Hc1 & Hsame).
    exists tok, c1. split; [done|]. split; [done|].
    by apply (clean_payload_same c1 c2).
Qed.

Lemma token_frame_upd net a c c' :
  Dict.get (procs net) a = Some c → same_membership c c' →
  token_frame net (upd net a c').
Proof.
  intros Hc Hsame. split; [done| | |].
  - unfold upd; simpl. rewrite DictFacts.keys_set. unfold Dict.mem. by rewrite Hc.
  - intros b. rewrite get_upd. destruct (decide (a = b)) as [<-|Hne].
    + by rewrite Hc.
    + destruct (Dict.get (procs net) b); [apply same_membership_refl|done].
  - exists []. unfold upd; simpl. by rewrite app_nil_r.
Qed.

Lemma token_frame_wire net m : clean_message net m → token_frame net (wire net m).
Proof.
  intros Hm. split; [done|done| |].
  - intros b. simpl.
    destruct (Dict.get (procs net) b); [apply same_membership_refl|done].
  - exists [m]. split; [done|]. by constructor.
Qed.

Lemma passes_void {A} net (o : outcome A) : passes net o → passes net (void o).
Proof. by destruct o. Qed.

Lemma passes_frame {A} net0 net (o : outcome A) :
  token_frame net0 net → passes net o → passes net0 o.
Proof. destruct o; simpl; eauto using token_frame_trans. Qed.


Section TokenFrame.
Variable remote : Address → Stub → Call → M unit.
Hypothesis remote_answers : ∀ from stub tok net c,
  Dict.get (procs net) from = Some c → clean_payload c tok →
  answers net (remote from stub (obtain_token_call tok) net).

Lemma handing_over_same c : same_membership c (handing_over c).
Proof. by repeat split. Qed.

Lemma handing_over_clean c :
  clean_payload (handing_over c) (token (distributed_lock (handing_over c))).
Proof. intros k [Hk _]%elem_of_keys_cleaned. exact Hk. Qed.

Lemma _check_token_passes a net c :
  Dict.get (procs net) a = Some c →
  passes net (DistributedLock._check_token remote a net).
Proof.
  intros Hc.
  destruct (decide (state (distributed_lock c) = NO_TOKEN)) as [Hs|Hs].
  { rewrite (_check_token_no_token remote a net c Hc Hs).
    apply token_frame_refl. }
  destruct (localLock (distributed_lock c)) eqn:Hl.
  { rewrite (_check_token_locked remote a net c Hc Hs Hl).
    apply token_frame_refl. }
  destruct (DistributedLock.select_target (id c) (request (distributed_lock c))
              (token (distributed_lock c))) as [pid|] eqn:Ht.
  2: { rewrite (_check_token_keep remote a net c Hc Hs Hl Ht).
       apply token_frame_refl. }
  destruct (Dict.get (peers (peer_list c)) pid) as [stub|] eqn:Hp.
  2: { rewrite (_check_token_KeyError remote a net c Hc pid Hs Hl Ht Hp).
       simpl. eapply token_frame_upd; [done|]. by repeat split. }
  rewrite (_check_token_send remote a net c Hc pid stub Hs Hl Ht Hp).
  pose proof (token_frame_upd net a c _ Hc (handing_over_same c)) as Hf1.
  pose proof (remote_answers a stub _ (upd net a (handing_over c)) _
                (get_upd_eq _ _ _) (handing_over_clean c)) as Hans.
  set (o := remote a stub _ _) in *.
  assert (Halive : ∀ net', final o = Some net' →
            ∃ c', Dict.get (procs net') a = Some c' ∧
                  token_frame net net').
  { intros net' Hfin.
    assert (Hf2 : token_frame (upd net a (handing_over c)) net').
    { destruct o; simpl in *; simplify_eq; tauto. }
    destruct (same_processes_get _ _ a _ (frame_procs _ _ Hf2)
                (get_upd_eq _ _ _)) as (c' & Hc' & _).
    exists c'. split; [done|]. by eapply token_frame_trans. }
  assert (Hafter := after_send_alive a o).
  lapply Hafter; clear Hafter.
  2: { intros n Hn. destruct (Halive n Hn) as (? & -> & _). eauto. }
  intros Hafter.
  destruct o as [net' []|net' e|net'|]; simpl in Hans.
  - destruct (Halive net' eq_refl) as (c' & Hc' & Hf).
    destruct Hafter as (c'' & Hc'' & ->). simpl.
    eapply token_frame_trans; [exact Hf|].
    eapply token_frame_upd; [exact Hc''|]. by repeat split.
  - destruct (Halive net' eq_refl) as (c' & Hc' & Hf).
    destruct Hafter as (c'' & Hc'' & ->). simpl.
    eapply token_frame_trans; [exact Hf|].
    eapply token_frame_upd; [exact Hc''|]. by repeat split.
  - rewrite Hafter. simpl. destruct (Halive net' eq_refl) as (_ & _ & Hf). done.
  - by rewrite Hafter.
Qed.

Lemma release_passes a net c :
  Dict.get (procs net) a = Some c →
  passes net (DistributedLock.release remote a net).
Proof.
  intros Hc. rewrite (release_unfold remote a net c Hc).
  case_decide; [|apply token_frame_refl].
  apply passes_void. eapply passes_frame.
  - eapply (token_frame_upd net a c (released c)); [done|]. by repeat split.
  - eapply _check_token_passes. apply get_upd_eq.
Qed.

Lemma adopted_same c tok : same_membership c (adopted c tok).
Proof. by repeat split. Qed.

Lemma obtain_token_passes a net c tok :
  Dict.get (procs net) a = Some c →
  passes net (DistributedLock.obtain_token remote a tok net).
Proof.
  intros Hc. rewrite (obtain_token_unfold remote a net c Hc).
  pose proof (token_frame_upd net a c _ Hc (adopted_same c tok)) as Hf.
  case_decide; [done|].
  eapply passes_frame; [exact Hf|].
  eapply release_passes. apply get_upd_eq.
Qed.
End TokenFrame.

Section OffloadFrame.
Variable remote : Address → Stub → Call → M unit.
Hypothesis remote_answers : ∀ from stub tok net c,
  Dict.get (procs net) from = Some c → clean_payload c tok →
  answers net (remote from stub (obtain_token_call tok) net).

Lemma _offload_loop_passes a all_peers pids : ∀ net c,
  Dict.get (procs net) a = Some c →
  clean_payload c (token (distributed_lock c)) →
  passes net (DistributedLock._offload_loop remote a all_peers pids net).
Proof.
  induction pids as [|pid pids IH]; intros net c Hc Hclean.
  { apply token_frame_refl. }
  cbn [DistributedLock._offload_loop]. mrun Hc.
  destruct (Dict.get all_peers pid) as [stub|]; mrun Hc.
  - match goal with |- context [upd net a ?x] => set (c1 := x) end.
    assert (Hf1 : token_frame net (upd net a c1)).
    { eapply token_frame_upd; [done|]. by repeat split. }
    assert (Hclean1 : clean_payload c1 (token (distributed_lock c))) by done.
    pose proof (remote_answers a stub _ (upd net a c1) c1
                  (get_upd_eq _ _ _) Hclean1) as Hans.
    destruct (remote a stub _ _) as [net' []|net' e|net'|];
      cbn [answers passes] in *.
    + by eapply token_frame_trans.
    + destruct Hans as [Hf2 Hprocs].
      eapply passes_frame; [by eapply token_frame_trans|].
      eapply (IH net' c1); [|done]. rewrite Hprocs. apply get_upd_eq.
    + by eapply token_frame_trans.
    + done.
  - match goal with |- context [upd net a ?x] => set (c1 := x) end.
    assert (Hf1 : token_frame net (upd net a c1)).
    { eapply token_frame_upd; [done|]. by repeat split. }
    eapply passes_frame; [exact Hf1|].
    eapply (IH _ c1); [apply get_upd_eq|done].
Qed.

Lemma _offload_token_passes a net c :
  Dict.get (procs net) a = Some c →
  passes net (DistributedLock._offload_token remote a net).
Proof.
  intros Hc. unfold DistributedLock._offload_token. mrun Hc.
  case_decide; [apply token_frame_refl|].
  pose proof (_check_token_passes remote remote_answers a net c Hc) as Hchk.
  destruct (DistributedLock._check_token remote a net)
    as [net1 [|]|net1 e|net1|]; simpl in Hchk; try done.
  destruct (same_processes_get _ _ a _ (frame_procs _ _ Hchk) Hc)
    as (c1 & Hc1 & Hsame1).
  mrun Hc1. destruct (localLock (distributed_lock c1)); [done|].
  mrun Hc1. set (c2 := mkClient _ _ _ _).
  assert (Hf2 : token_frame net1 (upd net1 a c2)).
  { eapply token_frame_upd; [done|]. by repeat split. }
  assert (Hclean2 : clean_payload c2 (token (distributed_lock c2))).
  { intros k [Hk _]%elem_of_keys_cleaned. exact Hk. }
  pose proof (_offload_loop_passes a (peers (peer_list c1))
                (Dict.keys (peers (peer_list c1))) (upd net1 a c2) c2
                (get_upd_eq _ _ _) Hclean2) as Hloop.
  destruct (DistributedLock._offload_loop _ _ _ _ _)
    as [net3 b|net3 e|net3|]; simpl in Hloop; try done.
  - destruct (same_processes_get _ _ a _ (frame_procs _ _ Hloop)
                (get_upd_eq _ _ _)) as (c3 & Hc3 & Hsame3).
    mrun Hc3. simpl.
    eapply token_frame_trans; [exact Hchk|].
    eapply token_frame_trans; [exact Hf2|].
    eapply token_frame_trans; [exact Hloop|].
    eapply token_frame_upd; [done|]. by repeat split.
  - simpl. eauto using token_frame_trans.
Qed.
End OffloadFrame.

Lemma serve_obtain_token_passes fuel : ∀ a tok net c,
  Dict.get (procs net) a = Some c →
  passes net (serve fuel a (obtain_token_call tok) net).
Proof.
  induction fuel as [|fuel IH]; intros a tok net c Hc; [done|].
  cbn [serve]. apply obtain_token_passes with (c := c); [|done].
  clear a tok net c Hc. intros from stub tok net c Hc Hclean. unfold rpc.
  set (m := mkMessage from (stub_address stub) (obtain_token_call tok)).
  assert (Hw : token_frame net (wire net m)).
  { apply token_frame_wire. by exists tok, c. }
  fold (wire net m). unfold Dict.mem.
  destruct (Dict.get (procs (wire net m)) (stub_address stub)) as [c'|] eqn:Hc'.
  - pose proof (IH (stub_address stub) tok (wire net m) c' Hc') as Hp.
    destruct (serve fuel _ _ _); simpl in *; eauto using token_frame_trans.
    done.
  - done.
Qed.

Lemma remote_answers fuel from stub tok net c :
  Dict.get (procs net) from = Some c → clean_payload c tok →
  answers net (remote fuel from stub (obtain_token_call tok) net).
Proof.
  intros Hc Hclean. unfold remote, rpc.
  set (m := mkMessage from (stub_address stub) (obtain_token_call tok)).
  assert (Hw : token_frame net (wire net m)).
  { apply token_frame_wire. by exists tok, c. }
  fold (wire net m). unfold Dict.mem.
  destruct (Dict.get (procs (wire net m)) (stub_address stub)) as [c'|] eqn:Hc'.
  - pose proof (serve_obtain_token_passes fuel (stub_address stub) tok
                  (wire net m) c' Hc') as Hp.
    destruct (serve fuel _ _ _); simpl in *; eauto using token_frame_trans.
    done.
  - done.
Qed.

(** ** The payload that travels *)




(** ** Enough fuel *)

Lemma free_locks_upd net a c c' :
  Dict.get (procs net) a = Some c →
  (free_locks (upd net a c') + lock_weight c = free_locks net + lock_weight c')%nat.
Proof.
  unfold free_locks, upd; simpl.
  induction (procs net) as [|[k c0] d IH]; simpl; [done|].
  destruct (decide (k = a)) as [->|Hne]; simpl.
  - intros [= ->]. lia.
  - intros Hg. specialize (IH Hg). lia.
Qed.

Lemma free_locks_upd_same_lock net a c c' :
  Dict.get (procs net) a = Some c →
  localLock (distributed_lock c') = localLock (distributed_lock c) →
  free_locks (upd net a c') = free_locks net.
Proof.
  intros Hc Hl. pose proof (free_locks_upd net a c c' Hc) as H.
  unfold lock_weight in H. rewrite Hl in H. lia.
Qed.

Lemma free_locks_le net : (free_locks net ≤ length (Dict.keys (procs net)))%nat.
Proof.
  unfold free_locks, Dict.keys. rewrite length_fmap.
  induction (procs net) as [|[k c] d IH]; simpl; [done|].
  unfold lock_weight. destruct (localLock _); lia.
Qed.

Lemma after_send_fuel a o : o ≠ OutOfFuel → after_send a o ≠ OutOfFuel.
Proof.
  destruct o as [net' []|net' e|net'|]; simpl; try done; intros _;
    unfold DistributedLock.localLock_release, assign, modify, mbind, M_bind;
    by destruct (Dict.get (procs net') a).
Qed.

Lemma void_fuel {A} (o : outcome A) : o ≠ OutOfFuel → void o ≠ OutOfFuel.
Proof. by destruct o. Qed.

Section Fuel.
Variable remote : Address → Stub → Call → M unit.
Variable F : nat.
Hypothesis remote_fuel : ∀ from stub tok net,
  (free_locks net < F)%nat →
  remote from stub (obtain_token_call tok) net ≠ OutOfFuel.

Lemma _check_token_fuel a net :
  (free_locks net ≤ F)%nat →
  DistributedLock._check_token remote a net ≠ OutOfFuel.
Proof.
  intros HF. destruct (Dict.get (procs net) a) as [c|] eqn:Hc.
  2: { by destruct (method_ProcessGone remote a net Hc) as (-> & _). }
  destruct (decide (state (distributed_lock c) = NO_TOKEN)) as [Hs|Hs].
  { by rewrite (_check_token_no_token remote a net c Hc Hs). }
  destruct (localLock (distributed_lock c)) eqn:Hl.
  { by rewrite (_check_token_locked remote a net c Hc Hs Hl). }
  destruct (DistributedLock.select_target (id c) (request (distributed_lock c))
              (token (distributed_lock c))) as [pid|] eqn:Ht.
  2: { by rewrite (_check_token_keep remote a net c Hc Hs Hl Ht). }
  destruct (Dict.get (peers (peer_list c)) pid) as [stub|] eqn:Hp.
  2: { by rewrite (_check_token_KeyError remote a net c Hc pid Hs Hl Ht Hp). }
  rewrite (_check_token_send remote a net c Hc pid stub Hs Hl Ht Hp).
  apply after_send_fuel, remote_fuel.
  pose proof (free_locks_upd net a c (handing_over c) Hc) as H.
  unfold lock_weight in H. rewrite Hl in H. simpl in H. lia.
Qed.

Lemma release_fuel a net :
  (free_locks net ≤ F)%nat →
  DistributedLock.release remote a net ≠ OutOfFuel.
Proof.
  intros HF. destruct (Dict.get (procs net) a) as [c|] eqn:Hc.
  2: { by destruct (method_ProcessGone remote a net Hc) as (_ & -> & _). }
  rewrite (release_unfold remote a net c Hc). case_decide; [|done].
  apply void_fuel, _check_token_fuel.
  by rewrite (free_locks_upd_same_lock net a c).
Qed.

Lemma obtain_token_fuel a tok net :
  (free_locks net ≤ F)%nat →
  DistributedLock.obtain_token remote a tok net ≠ OutOfFuel.
Proof.
  intros HF. destruct (Dict.get (procs net) a) as [c|] eqn:Hc.
  2: { destruct (method_ProcessGone remote a net Hc) as (_ & _ & H & _).
       by rewrite H. }
  rewrite (obtain_token_unfold remote a net c Hc). case_decide; [done|].
  apply release_fuel. by rewrite (free_locks_upd_same_lock net a c).
Qed.

Lemma request_token_fuel a t pid net :
  (free_locks net ≤ F)%nat →
  DistributedLock.request_token remote a t pid net ≠ OutOfFuel.
Proof.
  intros HF. destruct (Dict.get (procs net) a) as [c|] eqn:Hc.
  2: { destruct (method_ProcessGone remote a net Hc) as (_ & _ & _ & H).
       by rewrite H. }
  rewrite (request_token_unfold remote a net c Hc). destruct (_ && _); [|done].
  apply void_fuel, _check_token_fuel.
  by rewrite (free_locks_upd_same_lock net a c).
Qed.
End Fuel.

Lemma rpc_fuel handler from stub call net :
  (Dict.mem (stub_address stub) (procs net) = true →
   handler (stub_address stub) call
     (wire net (mkMessage from (stub_address stub) call)) ≠ OutOfFuel) →
  rpc handler from stub call net ≠ OutOfFuel.
Proof.
  unfold rpc. fold (wire net (mkMessage from (stub_address stub) call)).
  simpl. destruct (Dict.mem _ _); [auto|done].
Qed.

Lemma serve_obtain_token_fuel fuel : ∀ a tok net,
  (free_locks net < fuel)%nat →
  serve fuel a (obtain_token_call tok) net ≠ OutOfFuel.
Proof.
  induction fuel as [|fuel IH]; intros a tok net HF; [lia|].
  cbn [serve]. apply obtain_token_fuel with (F := fuel); [|lia].
  intros from stub tok' net' HF'. apply rpc_fuel. intros _. by apply IH.
Qed.

Lemma remote_fuel fuel from stub tok net :
  (free_locks net < fuel)%nat →
  remote fuel from stub (obtain_token_call tok) net ≠ OutOfFuel.
Proof.
  intros HF. apply rpc_fuel. intros _. by apply serve_obtain_token_fuel.
Qed.

(** ** Request timestamps *)

Lemma request_token_merges fuel a t pid net c :
  Dict.get (procs net) a = Some c →
  (free_locks net ≤ fuel)%nat →
  ∃ net' c',
    final (request_token fuel a t pid net) = Some net' ∧
    Dict.keys (procs net') = Dict.keys (procs net) ∧
    Dict.get (procs net') a = Some c' ∧
    request (distributed_lock c') =
    Dict.set (request (distributed_lock c)) pid
      (Z.max (Counter.get (request (distributed_lock c)) pid) t).
Proof.
  intros Hc HF. unfold request_token.
  rewrite (request_token_unfold (remote fuel) a net c Hc).
  pose proof (keys_upd net a c (merged c t pid) Hc) as Hkeys.
  destruct (_ && _).
  - pose proof (_check_token_passes (remote fuel) (remote_answers fuel) a
                  _ _ (get_upd_eq net a (merged c t pid))) as Hp.
    pose proof (_check_token_fuel (remote fuel) fuel (remote_fuel fuel) a
                  (upd net a (merged c t pid))) as Hfuel.
    rewrite (free_locks_upd_same_lock net a c) in Hfuel by done.
    specialize (Hfuel HF).
    destruct (DistributedLock._check_token _ _ _) as [net' b|net' e|net'|];
      simpl in Hp; try done.
    + destruct (same_processes_get _ _ a _ (frame_procs _ _ Hp)
                  (get_upd_eq _ _ _)) as (c' & Hc' & Hsame).
      exists net', c'. split; [done|]. split.
      { by rewrite (frame_addresses _ _ Hp). }
      split; [done|]. by destruct Hsame as (_ & _ & _ & -> & _).
    + destruct (same_processes_get _ _ a _ (frame_procs _ _ Hp)
                  (get_upd_eq _ _ _)) as (c' & Hc' & Hsame).
      exists net', c'. split; [done|]. split.
      { by rewrite (frame_addresses _ _ Hp). }
      split; [done|]. by destruct Hsame as (_ & _ & _ & -> & _).
  - exists (upd net a (merged c t pid)), (merged c t pid).
    split; [done|]. split; [done|]. split; [apply get_upd_eq|done].
Qed.

Lemma foldl_max_le (ts : list Z) (x : Z) : x ≤ foldl Z.max x ts.
Proof.
  revert x. induction ts as [|t ts IH]; intros x; simpl; [lia|].
  specialize (IH (Z.max x t)). lia.
Qed.

(** C7. After any sequence of [request_token(t, pid)] calls for one [pid],
    the request timestamp stored for [pid] is the maximum of the value
    stored before and all timestamps received, so it is the maximum ever
    received when [pid] was unseen (default 0), and it has not decreased.
    Every call of the sequence comes to an end when the fuel covers the
    number of processes. *)
Theorem monotone_merge fuel a pid ts : ∀ net c,
  Dict.get (procs net) a = Some c →
  (length (Dict.keys (procs net)) ≤ fuel)%nat →
  ∃ net' c',
    after_requests fuel a pid ts net = Some net' ∧
    Dict.get (procs net') a = Some c' ∧
    Counter.get (request (distributed_lock c')) pid =
      foldl Z.max (Counter.get (request (distributed_lock c)) pid) ts ∧
    Counter.get (request (distributed_lock c)) pid
      ≤ Counter.get (request (distributed_lock c')) pid ∧
    (pid ∉ Dict.keys (request (distributed_lock c)) →
     Counter.get (request (distributed_lock c')) pid = foldl Z.max 0 ts).
Proof.
  assert (Hmain : ∀ net c,
    Dict.get (procs net) a = Some c →
    (length (Dict.keys (procs net)) ≤ fuel)%nat →
    ∃ net' c',
      after_requests fuel a pid ts net = Some net' ∧
      Dict.get (procs net') a = Some c' ∧
      Counter.get (request (distributed_lock c')) pid =
        foldl Z.max (Counter.get (request (distributed_lock c)) pid) ts).
  { induction ts as [|t ts IH]; intros net c Hc Hfuel; simpl.
    - by exists net, c.
    - destruct (request_token_merges fuel a t pid net c Hc)
        as (net1 & c1 & -> & Hkeys & Hc1 & Hreq).
      { pose proof (free_locks_le net). lia. }
      destruct (IH net1 c1 Hc1) as (net' & c' & Hrun & Hc' & Hget).
      { by rewrite Hkeys. }
      exists net', c'. split; [done|]. split; [done|].
      rewrite Hget, Hreq, CounterFacts.get_set_count. by rewrite decide_True. }
  intros net c Hc Hfuel.
  destruct (Hmain net c Hc Hfuel) as (net' & c' & Hrun & Hc' & Hget).
  exists net', c'. split; [done|]. split; [done|]. split; [done|].
  split; [rewrite Hget; apply foldl_max_le|].
  intros Hnew. by rewrite Hget, (CounterFacts.get_not_key _ _ Hnew).
Qed.

Lemma monotone_merge_witness :
  ∃ net' c',
    after_requests 4 (host 3) 5 [2; 7; 4] ring_net = Some net' ∧
    Dict.get (procs net') (host 3) = Some c' ∧
    Counter.get (request (distributed_lock c')) 5 = 7.
Proof.
  destruct (monotone_merge 4 (host 3) 5 [2; 7; 4] ring_net ring_holder eq_refl)
    as (net' & c' & Hrun & Hc' & Hget & _).
  { vm_compute. lia. }
  exists net', c'. split; [exact Hrun|]. split; [exact Hc'|]. exact Hget.
Defined.

(** ** A target that does not answer *)

(** When the chosen target is dead, [_check_token] has already cleaned the
    token and set [NO_TOKEN]; the handler only reports, and the method
    returns [False] with the state left at [NO_TOKEN]. *)
Lemma _check_token_dead_target fuel a net c pid stub :
  Dict.get (procs net) a = Some c →
  state (distributed_lock c) ≠ NO_TOKEN →
  localLock (distributed_lock c) = false →
  DistributedLock.select_target (id c) (request (distributed_lock c))
    (token (distributed_lock c)) = Some pid →
  Dict.get (peers (peer_list c)) pid = Some stub →
  Dict.get (procs net) (stub_address stub) = None →
  _check_token fuel a net =
  Return
    (upd (wire net (mkMessage a (stub_address stub)
                      (obtain_token_call
                         (token (distributed_lock (handing_over c))))))
       a (relock (handing_over c) NO_TOKEN false
            (token (distributed_lock (handing_over c)))))
    false.
Proof.
  intros Hc Hs Hl Ht Hp Hdead. unfold _check_token.
  rewrite (_check_token_send (remote fuel) a net c Hc pid stub Hs Hl Ht Hp).
  assert (Hne : a ≠ stub_address stub) by (intros ->; congruence).
  unfold remote, rpc, Dict.mem. cbn [procs].
  rewrite get_upd_ne, Hdead by done. cbn [after_send].
  unfold DistributedLock.localLock_release.
  match goal with |- _ ?n = _ => set (net1 := n) end.
  assert (Hc1 : Dict.get (procs net1) a = Some (handing_over c))
    by apply get_upd_eq.
  mrun Hc1. unfold net1, upd, wire; simpl. by rewrite DictFacts.set_set.
Qed.

(** C2 (fails). Holder 3 has the token unused; the requester chosen as
    target, peer 5, is dead.  [_check_token] sets [NO_TOKEN] before the call,
    the call raises, the handler only prints: the method returns [False]
    and the holder stays in [NO_TOKEN], so no process has the token any
    more. *)
Theorem token_lost_on_failed_send :
  states dead_target_net =
    [(3, TOKEN_PRESENT); (1, NO_TOKEN); (2, NO_TOKEN)] ∧
  DistributedLock.select_target 3 (request (distributed_lock ring_holder))
    (token (distributed_lock ring_holder)) = Some 5 ∧
  Dict.get (procs dead_target_net) (host 5) = None ∧
  _check_token 5 (host 3) dead_target_net = Return dead_target_net_after false ∧
  states dead_target_net_after =
    [(3, NO_TOKEN); (1, NO_TOKEN); (2, NO_TOKEN)] ∧
  sent dead_target_net_after =
    [mkMessage (host 3) (host 5) (obtain_token_call [])].
Proof. by vm_compute. Qed.

(** ** A peer that does not answer the broadcast *)

(** The first call of the broadcast raises out of [acquire] when its peer is
    dead: nothing catches it there, and the peers after it are not asked. *)
Lemma acquire_dead_first_peer fuel a net c pid stub rest :
  Dict.get (procs net) a = Some c →
  state (distributed_lock c) = NO_TOKEN →
  peers (peer_list c) = (pid, stub) :: rest →
  Dict.get (procs net) (stub_address stub) = None →
  ∃ net',
    acquire fuel a net = Raise net' (ConnectionError (stub_address stub)) ∧
    sent net' =
    sent net ++
    [mkMessage a (stub_address stub)
       (request_token_call (time (distributed_lock c) + 1) (id c))].
Proof.
  intros Hc Hs Hp Hdead. unfold acquire, DistributedLock.acquire.
  assert (Hne : a ≠ stub_address stub) by (intros ->; congruence).
  mrun Hc. rewrite Hs. mrun Hc. rewrite Hp. cbn [Dict.values fmap list_fmap snd for_each].
  mrun Hc. unfold remote, rpc, Dict.mem. cbn [procs upd].
  rewrite DictFacts.get_set_ne, Hdead by done. eexists. split; [reflexivity|done].
Qed.

(** C5 (fails). Peer 2 calls [acquire] in [NO_TOKEN]; its first peer is
    dead.  The [ConnectionError] of [request_token] leaves [acquire], after
    the clock and the own request timestamp were updated; peer 3, which has
    the token unused, is never asked and keeps it. *)
Theorem acquire_broadcast_raises :
  states dead_peer_net = [(2, NO_TOKEN); (3, TOKEN_PRESENT)] ∧
  Dict.get (procs dead_peer_net) (host 1) = None ∧
  acquire 5 (host 2) dead_peer_net =
    Raise dead_peer_net_after (ConnectionError (host 1)) ∧
  sent dead_peer_net_after =
    [mkMessage (host 2) (host 1) (request_token_call 1 2)] ∧
  states dead_peer_net_after = [(2, NO_TOKEN); (3, TOKEN_PRESENT)].
Proof. by vm_compute. Qed.

(** ** Registration at start-up *)

(** C3 (fails). [PeerList.initialize] registers every discovered peer whose
    id differs from its own: node 3 registers node 5, whose id is greater,
    and registers itself with it. *)
Theorem initialize_registers_greater_id :
  name_service joining_net = [(5, host 5); (3, host 3)] ∧
  PeerList.initialize (remote 5) (owner_unregister_peer 5) (host 3) joining_net
    = Return joining_net_after tt ∧
  memberships joining_net = [(5, []); (3, [])] ∧
  memberships joining_net_after = [(5, [3]); (3, [5])] ∧
  sent joining_net_after =
    [mkMessage (host 3) (host 5) (register_peer_call 3 (host 3))].
Proof. by vm_compute. Qed.

(** ** Executions of the system *)

(** With the token present [acquire] is that assignment. *)
Lemma acquire_token_present fuel a net c :
  Dict.get (procs net) a = Some c →
  state (distributed_lock c) = TOKEN_PRESENT →
  acquire fuel a net = acquire_assign a net.
Proof.
  intros Hc Hs. unfold acquire, DistributedLock.acquire, acquire_assign.
  mrun Hc. rewrite Hs. by mrun Hc.
Qed.

Lemma reachable_two_peers : reachable (mkSystem two_peers []).
Proof.
  eapply rtc_l.
  { apply (step_start 5 1 (host 1) (mkNetwork [] [] []) [] one_peer);
      [done|apply not_elem_of_nil|apply not_elem_of_nil|by vm_compute]. }
  eapply rtc_l; [|apply rtc_refl].
  apply (step_start 5 2 (host 2) one_peer [] two_peers);
    [done| | |by vm_compute];
    by intros [[=]|[]%elem_of_nil]%elem_of_cons.
Qed.

(** C1 (fails). Peer 1 holds the token unused and its user calls
    [acquire]: line 166 finds [TOKEN_PRESENT].  Before line 167 runs, peer 2
    calls [acquire]; its [request_token] is served at peer 1, which is still
    in [TOKEN_PRESENT] and hands the token over, so peer 2 is in
    [TOKEN_HELD].  Then line 167 runs at peer 1: both peers are in
    [TOKEN_HELD]. *)
Theorem acquire_race_two_holders :
  states two_peers = [(1, TOKEN_PRESENT); (2, NO_TOKEN)] ∧
  final (acquire 5 (host 2) two_peers) = Some two_peers_handed ∧
  states two_peers_handed = [(1, NO_TOKEN); (2, TOKEN_HELD)] ∧
  final (acquire_assign (host 1) two_peers_handed) = Some two_peers_both ∧
  states two_peers_both = [(1, TOKEN_HELD); (2, TOKEN_HELD)] ∧
  reachable (mkSystem two_peers_both []) ∧
  ¬ mutual_exclusion.
Proof.
  assert (Hreach : reachable (mkSystem two_peers_both [])).
  { eapply rtc_trans; [apply reachable_two_peers|].
    eapply rtc_l.
    { apply (step_acquire_test (host 1) two_peers []
               (idle_holder 1 [2])); [apply not_elem_of_nil|done|done]. }
    eapply rtc_l.
    { apply (step_acquire 5 (host 2) two_peers [host 1] (idle_peer 2 [1])
               two_peers_handed); [|done|done|by vm_compute].
      by intros [[=]|[]%elem_of_nil]%elem_of_cons. }
    eapply rtc_l; [|apply rtc_refl].
    apply (step_acquire_assign (host 1) two_peers_handed [host 1]
             two_peers_both); [constructor|by vm_compute]. }
  do 5 (split; [by vm_compute|]). split; [exact Hreach|].
  intros Hmutex.
  apply (Hmutex (mkSystem two_peers_both []) (host 1) (host 2) Hreach);
    [done|by vm_compute].
Qed.

(** ** Mutual exclusion when every call runs to its end *)

Lemma quiet_except_at_most_one net a : quiet_except net a → at_most_one net.
Proof. intros H b1 b2 c1 c2 H1 H2 Hs1 Hs2. by rewrite (H b1 c1), (H b2 c2). Qed.

Lemma quiet_quiet_except net a : quiet net → quiet_except net a.
Proof. intros H b c Hb Hs. by specialize (H b c Hb). Qed.

Lemma at_most_one_holder net a c :
  at_most_one net → Dict.get (procs net) a = Some c →
  state (distributed_lock c) ≠ NO_TOKEN → quiet_except net a.
Proof. intros H Hc Hs b cb Hb Hsb. by apply (H b a cb c). Qed.

Lemma quiet_except_upd net a c' :
  quiet_except net a → quiet_except (upd net a c') a.
Proof.
  intros H b c. rewrite get_upd. destruct (decide (a = b)) as [<-|Hne]; [done|].
  apply H.
Qed.

Lemma quiet_upd net a c' :
  quiet_except net a → state (distributed_lock c') = NO_TOKEN →
  quiet (upd net a c').
Proof.
  intros H Hs b c. rewrite get_upd. destruct (decide (a = b)) as [<-|Hne].
  - by intros [= <-].
  - intros Hb. destruct (decide (state (distributed_lock c) = NO_TOKEN)); [done|].
    by destruct Hne; rewrite (H b c).
Qed.

Lemma at_most_one_upd net a c c' :
  at_most_one net → Dict.get (procs net) a = Some c →
  (state (distributed_lock c') ≠ NO_TOKEN →
   state (distributed_lock c) ≠ NO_TOKEN) →
  at_most_one (upd net a c').
Proof.
  intros H Hc Hs b1 b2 c1 c2. rewrite !get_upd.
  destruct (decide (a = b1)) as [<-|H1], (decide (a = b2)) as [<-|H2];
    try done.
  - intros [= <-] Hb2 Hs1 Hs2. eapply H; eauto.
  - intros Hb1 [= <-] Hs1 Hs2. eapply H; eauto.
  - apply H.
Qed.

Lemma at_most_one_procs net net' :
  procs net' = procs net → at_most_one net → at_most_one net'.
Proof. unfold at_most_one. by intros ->. Qed.

Lemma quiet_procs net net' : procs net' = procs net → quiet net → quiet net'.
Proof. unfold quiet. by intros ->. Qed.

Lemma keeps_one_void {A} (o : outcome A) : keeps_one o → keeps_one (void o).
Proof. unfold keeps_one. by rewrite final_void. Qed.

Section TokenMutex.
Variable remote : Address → Stub → Call → M unit.
Hypothesis remote_quiet : ∀ from stub tok net,
  quiet net →
  match remote from stub (obtain_token_call tok) net with
  | Return net' _ | Blocked net' => at_most_one net'
  | Raise net' _ => quiet net'
  | OutOfFuel => True
  end.

Lemma after_send_mutex a o :
  match o with
  | Return net' _ | Blocked net' => at_most_one net'
  | Raise net' _ => quiet net'
  | OutOfFuel => True
  end →
  keeps_one (after_send a o) ∧
  (∀ net', after_send a o = Return net' false → quiet net').
Proof.
  destruct o as [net1 []|net1 e|net1|]; cbn [after_send]; intros Ho.
  - destruct (Dict.get (procs net1) a) as [c1|] eqn:Hc1;
      unfold DistributedLock.localLock_release; mrun Hc1.
    + split; [|done]. intros ? [= <-]. by eapply at_most_one_upd.
    + split; [|done]. by intros ? [= <-].
  - destruct (Dict.get (procs net1) a) as [c1|] eqn:Hc1;
      unfold DistributedLock.localLock_release; mrun Hc1.
    + assert (Hq : quiet (upd net1 a
                (mkClient (id c1) (address c1) (peer_list c1)
                   (mkLock (time (distributed_lock c1))
                      (state (distributed_lock c1)) false
                      (token (distributed_lock c1))
                      (request (distributed_lock c1)))))).
      { apply quiet_upd; [by apply quiet_quiet_except|]. simpl. eauto. }
      split; intros ? [= <-]; [|done].
      by apply quiet_except_at_most_one with a, quiet_quiet_except.
    + split; [|done]. intros ? [= <-].
      by apply quiet_except_at_most_one with a, quiet_quiet_except.
  - split; [|done]. by intros ? [= <-].
  - split; done.
Qed.

Lemma _check_token_mutex a net :
  quiet_except net a →
  keeps_one (DistributedLock._check_token remote a net) ∧
  (∀ net', DistributedLock._check_token remote a net = Return net' false →
           quiet_except net' a).
Proof.
  intros Hq. destruct (Dict.get (procs net) a) as [c|] eqn:Hc.
  2: { destruct (method_ProcessGone remote a net Hc) as (-> & _).
       split; [|done]. intros ? [= <-]. by eapply quiet_except_at_most_one. }
  destruct (decide (state (distributed_lock c) = NO_TOKEN)) as [Hs|Hs].
  { rewrite (_check_token_no_token remote a net c Hc Hs).
    split; intros ? [= <-]; eauto using quiet_except_at_most_one. }
  destruct (localLock (distributed_lock c)) eqn:Hl.
  { rewrite (_check_token_locked remote a net c Hc Hs Hl).
    split; [|done]. intros ? [= <-]. by eapply quiet_except_at_most_one. }
  destruct (DistributedLock.select_target (id c) (request (distributed_lock c))
              (token (distributed_lock c))) as [pid|] eqn:Ht.
  2: { rewrite (_check_token_keep remote a net c Hc Hs Hl Ht).
       split; intros ? [= <-]; eauto using quiet_except_at_most_one. }
  destruct (Dict.get (peers (peer_list c)) pid) as [stub|] eqn:Hp.
  2: { rewrite (_check_token_KeyError remote a net c Hc pid Hs Hl Ht Hp).
       split; intros ? [= <-];
         eauto using quiet_except_at_most_one, quiet_except_upd. }
  rewrite (_check_token_send remote a net c Hc pid stub Hs Hl Ht Hp).
  assert (Hquiet : quiet (upd net a (handing_over c))) by by apply quiet_upd.
  pose proof (remote_quiet a stub
                (token (distributed_lock (handing_over c))) _ Hquiet) as Hr.
  destruct (after_send_mutex a _ Hr) as [H1 H2]. split; [done|].
  intros net' Hret. by apply quiet_quiet_except, H2.
Qed.

Lemma release_mutex a net :
  at_most_one net → keeps_one (DistributedLock.release remote a net).
Proof.
  intros H1. destruct (Dict.get (procs net) a) as [c|] eqn:Hc.
  2: { destruct (method_ProcessGone remote a net Hc) as (_ & -> & _).
       by intros ? [= <-]. }
  rewrite (release_unfold remote a net c Hc).
  case_decide as Hs; [|by intros ? [= <-]].
  apply keeps_one_void, _check_token_mutex, quiet_except_upd.
  eapply at_most_one_holder; [done..|]. by rewrite Hs.
Qed.

Lemma obtain_token_mutex a tok net :
  quiet_except net a →
  keeps_one (DistributedLock.obtain_token remote a tok net).
Proof.
  intros Hq. destruct (Dict.get (procs net) a) as [c|] eqn:Hc.
  2: { destruct (method_ProcessGone remote a net Hc) as (_ & _ & H & _).
       rewrite H. intros ? [= <-]. by eapply quiet_except_at_most_one. }
  rewrite (obtain_token_unfold remote a net c Hc).
  pose proof (quiet_except_upd net a (adopted c tok) Hq) as Hq'.
  case_decide.
  - intros ? [= <-]. by eapply quiet_except_at_most_one.
  - apply release_mutex. by eapply quiet_except_at_most_one.
Qed.

Lemma request_token_mutex a t pid net :
  at_most_one net →
  keeps_one (DistributedLock.request_token remote a t pid net).
Proof.
  intros H1. destruct (Dict.get (procs net) a) as [c|] eqn:Hc.
  2: { destruct (method_ProcessGone remote a net Hc) as (_ & _ & _ & H).
       rewrite H. by intros ? [= <-]. }
  rewrite (request_token_unfold remote a net c Hc).
  assert (H1' : at_most_one (upd net a (merged c t pid)))
    by (by eapply at_most_one_upd).
  destruct (bool_decide _) eqn:Hs; simpl; [|by intros ? [= <-]].
  apply bool_decide_eq_true in Hs.
  destruct (DistributedLock.wants _ _ _); [|by intros ? [= <-]].
  apply keeps_one_void, _check_token_mutex.
  eapply at_most_one_holder; [done|apply get_upd_eq|]. simpl. by rewrite Hs.
Qed.

Lemma _offload_loop_mutex a all_peers pids : ∀ net,
  quiet_except net a →
  keeps_one (DistributedLock._offload_loop remote a all_peers pids net).
Proof.
  induction pids as [|pid pids IH]; intros net Hq.
  { intros ? [= <-]. by eapply quiet_except_at_most_one. }
  destruct (Dict.get (procs net) a) as [c|] eqn:Hc.
  2: { cbn [DistributedLock._offload_loop]. mrun Hc. by apply IH. }
  cbn [DistributedLock._offload_loop]. mrun Hc.
  match goal with |- context [upd net a ?x] => set (c1 := x) end.
  assert (Hquiet : quiet (upd net a c1)) by by apply quiet_upd.
  destruct (Dict.get all_peers pid) as [stub|]; mrun Hc.
  - fold c1. pose proof (remote_quiet a stub (token (distributed_lock c))
                           _ Hquiet) as Hr.
    destruct (remote a stub _ _) as [net' []|net' e|net'|].
    + by intros ? [= <-].
    + by apply IH, quiet_quiet_except.
    + by intros ? [= <-].
    + done.
  - fold c1. by apply IH, quiet_quiet_except.
Qed.

Lemma _offload_token_mutex a net :
  at_most_one net →
  keeps_one (DistributedLock._offload_token remote a net).
Proof.
  intros H1. unfold DistributedLock._offload_token.
  destruct (Dict.get (procs net) a) as [c|] eqn:Hc.
  2: { mrun Hc. by intros ? [= <-]. }
  mrun Hc. case_decide as Hs; [by intros ? [= <-]|].
  pose proof (at_most_one_holder net a c H1 Hc Hs) as Hq.
  destruct (_check_token_mutex a net Hq) as [Hk Hfalse].
  destruct (DistributedLock._check_token remote a net)
    as [net1 [|]|net1 e|net1|]; try (intros ? [= <-]; by apply Hk).
  specialize (Hfalse net1 eq_refl).
  destruct (Dict.get (procs net1) a) as [c1|] eqn:Hc1.
  2: { mrun Hc1. intros ? [= <-]. by apply Hk. }
  mrun Hc1. destruct (localLock (distributed_lock c1)).
  { intros ? [= <-]. by apply Hk. }
  mrun Hc1.
  match goal with |- context [upd net1 a ?x] => set (c2 := x) end.
  pose proof (_offload_loop_mutex a (peers (peer_list c1))
                (Dict.keys (peers (peer_list c1))) (upd net1 a c2)
                (quiet_except_upd net1 a c2 Hfalse)) as Hloop.
  destruct (DistributedLock._offload_loop _ _ _ _ _)
    as [net3 b|net3 e|net3|]; try (intros ? [= <-]; by apply Hloop).
  specialize (Hloop net3 eq_refl).
  destruct (Dict.get (procs net3) a) as [c3|] eqn:Hc3; mrun Hc3.
  - intros ? [= <-]. eapply at_most_one_upd; eauto.
  - by intros ? [= <-].
Qed.
End TokenMutex.

(** ** Relations every step of a method keeps *)

Section Preserves.
Variable R : relation Network.
Context `{!PreOrder R}.

Lemma preserves_ret {A} (x : A) : preserves R (mret x).
Proof. by intros net net' [= <-]. Qed.

Lemma preserves_raise {A} e : preserves R (raise (A := A) e).
Proof. by intros net net' [= <-]. Qed.

Lemma preserves_block {A} : preserves R (block (A := A)).
Proof. by intros net net' [= <-]. Qed.

Lemma preserves_out_of_fuel {A} : preserves R (out_of_fuel (A := A)).
Proof. by intros net net' [=]. Qed.

Lemma preserves_bind {A B} (m : M A) (f : A → M B) :
  preserves R m → (∀ x, preserves R (f x)) → preserves R (m ≫= f).
Proof.
  intros Hm Hf net net'. unfold mbind, M_bind.
  destruct (m net) as [net1 x|net1 e|net1|] eqn:E; simpl; try done.
  - intros Hfin. transitivity net1; [by apply Hm; rewrite E|by eapply Hf].
  - intros [= <-]. by apply Hm; rewrite E.
  - intros [= <-]. by apply Hm; rewrite E.
Qed.

Lemma preserves_try_except {A} (m : M A) (h : exn → M A) :
  preserves R m → (∀ e, preserves R (h e)) → preserves R (try_except m h).
Proof.
  intros Hm Hh net net'. unfold try_except.
  destruct (m net) as [net1 x|net1 e|net1|] eqn:E; simpl; try done.
  - intros [= <-]. by apply Hm; rewrite E.
  - intros Hfin. transitivity net1; [by apply Hm; rewrite E|by eapply Hh].
  - intros [= <-]. by apply Hm; rewrite E.
Qed.

Lemma preserves_for_each {A} (l : list A) (body : A → M unit) :
  (∀ x, preserves R (body x)) → preserves R (for_each l body).
Proof.
  intros Hbody. induction l as [|x l IH]; simpl.
  - apply preserves_ret.
  - apply preserves_bind; auto.
Qed.

Lemma preserves_owner a : preserves R (owner a).
Proof.
  intros net net'. unfold owner.
  by destruct (Dict.get (procs net) a); intros [= <-].
Qed.

Lemma preserves_self a : preserves R (self a).
Proof.
  apply preserves_bind; [apply preserves_owner|intros; apply preserves_ret].
Qed.

Lemma preserves_subscript {V} (d : dict Z V) k : preserves R (subscript d k).
Proof.
  unfold subscript. destruct (Dict.get d k);
    [apply preserves_ret|apply preserves_raise].
Qed.

Lemma preserves_modify a f :
  (∀ net c, Dict.get (procs net) a = Some c → R net (upd net a (f c))) →
  preserves R (modify a f).
Proof.
  intros Hf net net'. unfold modify.
  destruct (Dict.get (procs net) a) eqn:E; intros [= <-]; auto. reflexivity.
Qed.

Lemma preserves_rpc handler from stub c :
  (∀ net m, R net (wire net m)) →
  (∀ a, preserves R (handler a c)) →
  preserves R (rpc handler from stub c).
Proof.
  intros Hw Hh net net'. unfold rpc.
  fold (wire net (mkMessage from (stub_address stub) c)).
  destruct (Dict.mem _ _).
  - intros Hfin. etransitivity; [apply Hw|by eapply Hh].
  - intros [= <-]. apply Hw.
Qed.
End Preserves.

Lemma preserves_checkLiveness R `{!PreOrder R} pID stub :
  preserves R (PeerList.checkLiveness pID stub).
Proof. by intros net net' [= <-]. Qed.

Lemma preserves_name_service_get_peers R `{!PreOrder R} :
  preserves R PeerList.name_service_get_peers.
Proof. by intros net net' [= <-]. Qed.

Lemma preserves_weaken (R R' : relation Network) {A} (m : M A) :
  (∀ net net', R net net' → R' net net') → preserves R m → preserves R' m.
Proof. intros HR Hm net net' Hfin. by apply HR, Hm. Qed.

(** Applies the rules above along the structure of a method; [tac] settles
    the assignments and the calls. *)
Ltac preserve_with tac :=
  repeat first
    [ match goal with
      | |- PreOrder _ => typeclasses eauto
      | |- ∀ _, _ => intros ?
      end
    | apply preserves_bind
    | apply preserves_ret | apply preserves_raise | apply preserves_block
    | apply preserves_out_of_fuel
    | apply preserves_owner | apply preserves_self | apply preserves_subscript
    | apply preserves_checkLiveness | apply preserves_name_service_get_peers
    | apply preserves_try_except
    | apply preserves_for_each
    | tac
    | match goal with
      | |- preserves _ (if ?b then _ else _) => destruct b
      | |- preserves _ (match ?x with _ => _ end) => destruct x
      end ].

(** *** Who is alive, and what the directory lists *)

Global Instance alive_frame_preorder : PreOrder alive_frame.
Proof.
  split.
  - by intros net.
  - intros n1 n2 n3 [Hns1 Ha1] [Hns2 Ha2]. split; [congruence|].
    intros b. by rewrite Ha2, Ha1.
Qed.

Lemma alive_frame_upd net a c c' :
  Dict.get (procs net) a = Some c → alive_frame net (upd net a c').
Proof.
  intros Hc. split; [done|]. intros b. rewrite get_upd.
  destruct (decide (a = b)) as [<-|]; [|done]. rewrite Hc. split; eauto.
Qed.

Lemma alive_frame_wire net m : alive_frame net (wire net m).
Proof. by split. Qed.

Lemma alive_modify a f : preserves alive_frame (modify a f).
Proof.
  apply (preserves_modify alive_frame). intros. by eapply alive_frame_upd.
Qed.

Section AliveFrame.
Variable remote : Address → Stub → Call → M unit.
Variable owner_unregister_peer : Address → Z → M unit.
Hypothesis remote_alive : ∀ from stub c,
  preserves alive_frame (remote from stub c).
Hypothesis owner_unregister_peer_alive : ∀ a pid,
  preserves alive_frame (owner_unregister_peer a pid).

Ltac alive_with tac :=
  unfold DistributedLock.localLock_acquire, DistributedLock.localLock_release,
    DistributedLock._clean_token, DistributedLock.get_peers,
    PeerList.get_peers, assign;
  preserve_with ltac:(first [ apply alive_modify | apply remote_alive
                            | apply owner_unregister_peer_alive | tac ]).

Lemma _check_token_alive a :
  preserves alive_frame (DistributedLock._check_token remote a).
Proof. unfold DistributedLock._check_token. alive_with fail. Qed.

Lemma release_alive a :
  preserves alive_frame (DistributedLock.release remote a).
Proof.
  unfold DistributedLock.release. alive_with ltac:(apply _check_token_alive).
Qed.

Lemma request_token_alive a t pid :
  preserves alive_frame (DistributedLock.request_token remote a t pid).
Proof.
  unfold DistributedLock.request_token.
  alive_with ltac:(apply _check_token_alive).
Qed.

Lemma obtain_token_alive a tok :
  preserves alive_frame (DistributedLock.obtain_token remote a tok).
Proof.
  unfold DistributedLock.obtain_token. alive_with ltac:(apply release_alive).
Qed.

Lemma _offload_loop_alive a all_peers pids :
  preserves alive_frame (DistributedLock._offload_loop remote a all_peers pids).
Proof.
  induction pids as [|pid pids IH]; cbn [DistributedLock._offload_loop];
    alive_with ltac:(exact IH).
Qed.

Lemma _offload_token_alive a :
  preserves alive_frame (DistributedLock._offload_token remote a).
Proof.
  unfold DistributedLock._offload_token.
  alive_with ltac:(first [ apply _check_token_alive
                         | apply _offload_loop_alive ]).
Qed.

Lemma acquire_alive a :
  preserves alive_frame (DistributedLock.acquire remote a).
Proof. unfold DistributedLock.acquire. alive_with fail. Qed.

Lemma check_all_alive_alive a :
  preserves alive_frame (PeerList.check_all_alive owner_unregister_peer a).
Proof. unfold PeerList.check_all_alive. alive_with fail. Qed.

Lemma PeerList_register_peer_alive a pid paddr b :
  preserves alive_frame
    (PeerList.register_peer owner_unregister_peer a pid paddr b).
Proof.
  unfold PeerList.register_peer. alive_with ltac:(apply check_all_alive_alive).
Qed.

Lemma PeerList_unregister_peer_alive a pid :
  preserves alive_frame (PeerList.unregister_peer owner_unregister_peer a pid).
Proof.
  unfold PeerList.unregister_peer.
  alive_with ltac:(apply check_all_alive_alive).
Qed.

Lemma PeerList_initialize_alive a :
  preserves alive_frame (PeerList.initialize remote owner_unregister_peer a).
Proof.
  unfold PeerList.initialize.
  alive_with ltac:(apply PeerList_register_peer_alive).
Qed.

Lemma PeerList_destroy_alive a :
  preserves alive_frame (PeerList.destroy remote owner_unregister_peer a).
Proof.
  unfold PeerList.destroy. alive_with ltac:(apply check_all_alive_alive).
Qed.

Lemma Client_register_peer_alive a pid paddr :
  preserves alive_frame (Client.register_peer owner_unregister_peer a pid paddr).
Proof.
  unfold Client.register_peer, DistributedLock.register_peer.
  alive_with ltac:(apply PeerList_register_peer_alive).
Qed.

Lemma Client_unregister_peer_alive a pid :
  preserves alive_frame (Client.unregister_peer owner_unregister_peer a pid).
Proof.
  unfold Client.unregister_peer, DistributedLock.unregister_peer.
  alive_with ltac:(apply PeerList_unregister_peer_alive).
Qed.
End AliveFrame.

Lemma serve_alive fuel : ∀ a c, preserves alive_frame (serve fuel a c).
Proof.
  induction fuel as [|fuel IH]; intros a c; cbn [serve].
  { apply preserves_out_of_fuel. }
  assert (Hremote : ∀ from stub c,
            preserves alive_frame (rpc (serve fuel) from stub c)).
  { intros. apply preserves_rpc; [typeclasses eauto| |done].
    intros. apply alive_frame_wire. }
  destruct c.
  - by apply request_token_alive.
  - by apply obtain_token_alive.
  - apply Client_register_peer_alive. intros. apply IH.
  - apply Client_unregister_peer_alive. intros. apply IH.
Qed.

Lemma remote_alive fuel from stub c :
  preserves alive_frame (remote fuel from stub c).
Proof.
  apply preserves_rpc; [typeclasses eauto| |intros; apply serve_alive].
  intros. apply alive_frame_wire.
Qed.

(** *** What the membership calls leave alone *)

Global Instance member_frame_preorder t : PreOrder (member_frame t).
Proof.
  split.
  - by intros net.
  - intros n1 n2 n3 (Hns1 & Ho1 & Hs1) (Hns2 & Ho2 & Hs2).
    split; [congruence|]. split; [|congruence].
    intros b Hb. by rewrite Ho2, Ho1.
Qed.

Global Instance state_frame_preorder : PreOrder state_frame.
Proof.
  split.
  - by intros net.
  - intros n1 n2 n3 [Hns1 Hs1] [Hns2 Hs2]. split; [congruence|].
    intros b. by rewrite Hs2, Hs1.
Qed.

Lemma member_state_frame t net net' :
  member_frame t net net' → state_frame net net'.
Proof.
  intros (Hns & Ho & Hs). split; [done|]. intros b.
  destruct (decide (b = t)) as [->|Hne]; [done|].
  unfold state_at. by rewrite Ho.
Qed.

Lemma state_frame_wire net m : state_frame net (wire net m).
Proof. by split. Qed.

Lemma state_frame_upd net a c c' :
  Dict.get (procs net) a = Some c →
  state (distributed_lock c') = state (distributed_lock c) →
  state_frame net (upd net a c').
Proof.
  intros Hc Hs. split; [done|]. intros b. unfold state_at. rewrite get_upd.
  destruct (decide (a = b)) as [<-|]; [|done]. rewrite Hc. simpl. by rewrite Hs.
Qed.

Lemma member_frame_upd net a c c' :
  Dict.get (procs net) a = Some c →
  state (distributed_lock c') = state (distributed_lock c) →
  member_frame a net (upd net a c').
Proof.
  intros Hc Hs. split; [done|]. split.
  - intros b Hb. by rewrite get_upd_ne.
  - unfold state_at. rewrite get_upd_eq, Hc. simpl. by rewrite Hs.
Qed.

Lemma state_frame_at_most_one net net' :
  state_frame net net' → at_most_one net → at_most_one net'.
Proof.
  intros [_ Hs] H1 a b ca cb Ha Hb Hsa Hsb.
  pose proof (Hs a) as Hsa'. pose proof (Hs b) as Hsb'.
  unfold state_at in Hsa', Hsb'. rewrite Ha in Hsa'. rewrite Hb in Hsb'.
  destruct (Dict.get (procs net) a) as [ca0|] eqn:Ha0; [|done].
  destruct (Dict.get (procs net) b) as [cb0|] eqn:Hb0; [|done].
  simpl in *. simplify_eq. eapply H1; eauto; congruence.
Qed.

Section MemberFrame.
Variable owner_unregister_peer : Address → Z → M unit.
Hypothesis owner_unregister_peer_member : ∀ t pid,
  preserves (member_frame t) (owner_unregister_peer t pid).

Lemma member_modify t f :
  (∀ c, state (distributed_lock (f c)) = state (distributed_lock c)) →
  preserves (member_frame t) (modify t f).
Proof.
  intros Hf. apply (preserves_modify (member_frame t)).
  intros. by eapply member_frame_upd.
Qed.

Ltac member_with tac :=
  unfold PeerList.get_peers, assign;
  preserve_with ltac:(first [ by apply member_modify
                            | apply owner_unregister_peer_member | tac ]).

Lemma check_all_alive_member t :
  preserves (member_frame t)
    (PeerList.check_all_alive owner_unregister_peer t).
Proof. unfold PeerList.check_all_alive. member_with fail. Qed.

Lemma PeerList_register_peer_member t pid paddr b :
  preserves (member_frame t)
    (PeerList.register_peer owner_unregister_peer t pid paddr b).
Proof.
  unfold PeerList.register_peer.
  member_with ltac:(apply check_all_alive_member).
Qed.

Lemma PeerList_unregister_peer_member t pid :
  preserves (member_frame t)
    (PeerList.unregister_peer owner_unregister_peer t pid).
Proof.
  unfold PeerList.unregister_peer.
  member_with ltac:(apply check_all_alive_member).
Qed.

Lemma Client_register_peer_member t pid paddr :
  preserves (member_frame t)
    (Client.register_peer owner_unregister_peer t pid paddr).
Proof.
  unfold Client.register_peer, DistributedLock.register_peer.
  member_with ltac:(apply PeerList_register_peer_member).
Qed.

Lemma Client_unregister_peer_member t pid :
  preserves (member_frame t)
    (Client.unregister_peer owner_unregister_peer t pid).
Proof.
  unfold Client.unregister_peer, DistributedLock.unregister_peer.
  member_with ltac:(apply PeerList_unregister_peer_member).
Qed.
End MemberFrame.

Lemma serve_member fuel : ∀ t c,
  membership_call c = true → preserves (member_frame t) (serve fuel t c).
Proof.
  induction fuel as [|fuel IH]; intros t c Hc; cbn [serve].
  { apply preserves_out_of_fuel. }
  destruct c; try done.
  - apply Client_register_peer_member. intros. by apply IH.
  - apply Client_unregister_peer_member. intros. by apply IH.
Qed.

Lemma owner_unregister_peer_member fuel t pid :
  preserves (member_frame t) (owner_unregister_peer fuel t pid).
Proof. by apply serve_member. Qed.

Lemma remote_member fuel from stub c :
  membership_call c = true →
  preserves (member_frame (stub_address stub)) (remote fuel from stub c).
Proof.
  intros Hc net net'. unfold remote, rpc.
  fold (wire net (mkMessage from (stub_address stub) c)).
  destruct (Dict.mem _ _).
  - intros Hfin. by eapply (serve_member fuel _ c Hc (wire net _)).
  - by intros [= <-].
Qed.

Lemma remote_state_frame fuel from stub c :
  membership_call c = true →
  preserves state_frame (remote fuel from stub c).
Proof.
  intros Hc. eapply preserves_weaken; [|by apply remote_member].
  apply member_state_frame.
Qed.

Lemma state_modify a f :
  (∀ c, state (distributed_lock (f c)) = state (distributed_lock c)) →
  preserves state_frame (modify a f).
Proof.
  intros Hf. apply (preserves_modify state_frame).
  intros. by eapply state_frame_upd.
Qed.

Lemma owner_unregister_peer_state_frame fuel a pid :
  preserves state_frame (owner_unregister_peer fuel a pid).
Proof.
  eapply preserves_weaken; [apply (member_state_frame a)|].
  apply owner_unregister_peer_member.
Qed.

Ltac state_frame_steps :=
  preserve_with ltac:(first [ by apply state_modify
                            | apply owner_unregister_peer_state_frame
                            | by apply remote_state_frame ]).

Lemma PeerList_initialize_state_frame fuel a :
  preserves state_frame
    (PeerList.initialize (remote fuel) (owner_unregister_peer fuel) a).
Proof.
  unfold PeerList.initialize, PeerList.get_peers. state_frame_steps.
Qed.

Lemma PeerList_destroy_state_frame fuel a :
  preserves state_frame
    (PeerList.destroy (remote fuel) (owner_unregister_peer fuel) a).
Proof.
  unfold PeerList.destroy, PeerList.get_peers. state_frame_steps.
Qed.

(** *** Properties of the network that a call keeps *)

Lemma invariant_preserves (R : relation Network) (P : Network → Prop)
    {A} (m : M A) :
  (∀ net net', R net net' → P net → P net') →
  preserves R m → invariant P m.
Proof. intros HR Hm net HP net' Hfin. eapply HR; eauto. Qed.

Lemma invariant_bind P {A B} (m : M A) (f : A → M B) :
  invariant P m → (∀ x, invariant P (f x)) → invariant P (m ≫= f).
Proof.
  intros Hm Hf net HP net'. unfold mbind, M_bind.
  destruct (m net) as [net1 x|net1 e|net1|] eqn:E; simpl; try done.
  - apply Hf. by apply (Hm net HP); rewrite E.
  - intros [= <-]. by apply (Hm net HP); rewrite E.
  - intros [= <-]. by apply (Hm net HP); rewrite E.
Qed.

Lemma invariant_for_each P {A} (l : list A) (body : A → M unit) :
  (∀ x, invariant P (body x)) → invariant P (for_each l body).
Proof.
  intros Hbody. induction l as [|x l IH]; simpl.
  - by intros net HP net' [= <-].
  - apply invariant_bind; auto.
Qed.

Lemma invariant_state_frame {A} (m : M A) :
  preserves state_frame m → invariant at_most_one m.
Proof. apply invariant_preserves, state_frame_at_most_one. Qed.

Lemma bind_self a net c {B} (f : DistributedLock → M B) :
  Dict.get (procs net) a = Some c →
  (self a ≫= f) net = f (distributed_lock c) net.
Proof. intros Hc. unfold mbind at 1, M_bind at 1. by rewrite (self_run a net c). Qed.

Lemma serve_obtain_token_mutex fuel : ∀ a tok net,
  quiet_except net a → keeps_one (serve fuel a (obtain_token_call tok) net).
Proof.
  induction fuel as [|fuel IH]; intros a tok net Hq; [by intros ? [=]|].
  cbn [serve]. apply obtain_token_mutex; [|done].
  clear a tok net Hq. intros from stub tok net Hq. unfold rpc.
  set (m := mkMessage from (stub_address stub) (obtain_token_call tok)).
  fold (wire net m). unfold Dict.mem.
  destruct (Dict.get (procs (wire net m)) (stub_address stub)) as [c'|] eqn:Hc'.
  - pose proof (IH (stub_address stub) tok (wire net m)
                  (quiet_quiet_except _ _ Hq)) as Hk.
    pose proof (serve_obtain_token_passes fuel (stub_address stub) tok
                  (wire net m) c' Hc') as Hp.
    destruct (serve fuel _ _ _); simpl in *; try done; by apply Hk.
  - done.
Qed.

Lemma remote_quiet fuel from stub tok net :
  quiet net →
  match remote fuel from stub (obtain_token_call tok) net with
  | Return net' _ | Blocked net' => at_most_one net'
  | Raise net' _ => quiet net'
  | OutOfFuel => True
  end.
Proof.
  intros Hq. unfold remote, rpc.
  set (m := mkMessage from (stub_address stub) (obtain_token_call tok)).
  fold (wire net m). unfold Dict.mem.
  destruct (Dict.get (procs (wire net m)) (stub_address stub)) as [c'|] eqn:Hc'.
  - pose proof (serve_obtain_token_mutex fuel (stub_address stub) tok
                  (wire net m) (quiet_quiet_except _ _ Hq)) as Hk.
    pose proof (serve_obtain_token_passes fuel (stub_address stub) tok
                  (wire net m) c' Hc') as Hp.
    destruct (serve fuel _ _ _); simpl in *; try done; by apply Hk.
  - done.
Qed.

Lemma invariant_rpc P handler from stub c :
  (∀ net m, P net → P (wire net m)) →
  (∀ a, invariant P (handler a c)) →
  invariant P (rpc handler from stub c).
Proof.
  intros Hw Hh net HP net'. unfold rpc.
  fold (wire net (mkMessage from (stub_address stub) c)).
  destruct (Dict.mem _ _).
  - by apply Hh, Hw.
  - intros [= <-]. by apply Hw.
Qed.

Lemma remote_request_token_mutex fuel from stub t pid :
  invariant at_most_one (remote fuel from stub (request_token_call t pid)).
Proof.
  apply invariant_rpc; [done|]. intros a net H1.
  destruct fuel as [|fuel]; [by intros ? [=]|]. cbn [serve].
  apply request_token_mutex; [|done]. intros. by apply remote_quiet.
Qed.

Lemma invariant_assign_same_state a f :
  (∀ l, state (f l) = state l) → invariant at_most_one (assign a f).
Proof.
  intros Hf. apply invariant_state_frame, state_modify. intros c. apply Hf.
Qed.

Lemma invariant_read P {A} (m : M A) :
  preserves eq m → invariant P m.
Proof. intros Hm net HP net' Hfin. by rewrite <- (Hm net net' Hfin). Qed.

Lemma invariant_ret P {A} (x : A) : invariant P (mret x).
Proof. by intros net HP net' [= <-]. Qed.

Lemma acquire_no_token_mutex fuel a :
  invariant at_most_one
    (assign a (λ l, set_time (time l + 1) l) ;;
     c ← owner a;
     assign a (λ l, set_request (Dict.set (request l) (id c) (time l)) l) ;;
     all_peers ← DistributedLock.get_peers a;
     for_each (Dict.values all_peers) (λ peer,
       l ← self a;
       c ← owner a;
       remote fuel a peer (request_token_call (time l) (id c))) ;;
     l ← self a;
     if decide (state l = NO_TOKEN) then block else mret tt).
Proof.
  repeat first
    [ apply invariant_bind; [|intros ?]
    | apply invariant_ret
    | by apply invariant_assign_same_state
    | apply invariant_for_each; intros ?
    | apply remote_request_token_mutex
    | apply invariant_read;
      first [ apply preserves_owner | apply preserves_self
            | unfold DistributedLock.get_peers;
              apply preserves_bind;
              [typeclasses eauto|apply preserves_owner; typeclasses eauto
              |intros; apply preserves_ret; typeclasses eauto]
            | case_decide;
              [apply preserves_block|apply preserves_ret];
              typeclasses eauto ];
      typeclasses eauto ].
Qed.

Lemma acquire_mutex fuel a : invariant at_most_one (acquire fuel a).
Proof.
  intros net H1. unfold acquire, DistributedLock.acquire.
  destruct (Dict.get (procs net) a) as [c|] eqn:Hc.
  2: { mrun Hc. by intros ? [= <-]. }
  rewrite (bind_self a net c _ Hc).
  destruct (state (distributed_lock c)) eqn:Hs.
  - exact (acquire_no_token_mutex fuel a net H1).
  - mrun Hc. intros ? [= <-]. eapply at_most_one_upd; [done..|].
    intros _. by rewrite Hs.
  - by intros ? [= <-].
Qed.

Lemma release_keeps_one fuel a : invariant at_most_one (release fuel a).
Proof.
  intros net H1. apply release_mutex; [|done]. intros. by apply remote_quiet.
Qed.

Lemma get_exit a net b :
  Dict.get (procs (exit a net)) b =
  if decide (a = b) then None else Dict.get (procs net) b.
Proof.
  unfold exit; simpl. destruct (decide (a = b)) as [<-|Hne].
  - apply DictFacts.get_del_eq.
  - by apply DictFacts.get_del_ne.
Qed.

Lemma at_most_one_exit a net : at_most_one net → at_most_one (exit a net).
Proof.
  intros H1 b1 b2 c1 c2. rewrite !get_exit.
  destruct (decide (a = b1)), (decide (a = b2)); try done. apply H1.
Qed.

Lemma directory_covers_alive_frame net net' :
  alive_frame net net' → directory_covers net → directory_covers net'.
Proof. intros [Hns Ha] Hd b Hb. rewrite Hns. by apply Hd, Ha. Qed.

Global Instance quit_frame_preorder a : PreOrder (quit_frame a).
Proof.
  split.
  - by intros net.
  - intros n1 n2 n3 [Ha1 Hn1] [Ha2 Hn2]. split.
    + intros b. by rewrite Ha2, Ha1.
    + intros b Hb Hin. by apply Hn2, Hn1.
Qed.

Lemma alive_quit_frame a net net' : alive_frame net net' → quit_frame a net net'.
Proof. intros [Hns Ha]. split; [done|]. intros b _. by rewrite Hns. Qed.

Lemma Peer_destroy_quit_frame a : preserves (quit_frame a) (Client.Peer_destroy a).
Proof.
  intros net net' [= <-]. split; [done|]. intros b Hb. simpl.
  rewrite !list_elem_of_fmap. intros ([pid b'] & -> & Hin).
  exists (pid, b'). split; [done|]. by apply list_elem_of_filter.
Qed.

Lemma destroy_quit_frame fuel a : preserves (quit_frame a) (destroy fuel a).
Proof.
  unfold destroy, Client.destroy.
  apply preserves_bind; [typeclasses eauto| |intros _].
  { unfold DistributedLock.destroy.
    apply preserves_bind; [typeclasses eauto| |intros _].
    - eapply preserves_weaken; [apply alive_quit_frame|].
      apply _offload_token_alive. apply remote_alive.
    - apply preserves_ret. typeclasses eauto. }
  apply preserves_bind; [typeclasses eauto| |intros _].
  - apply Peer_destroy_quit_frame.
  - eapply preserves_weaken; [apply alive_quit_frame|].
    apply PeerList_destroy_alive; [apply remote_alive|].
    intros. apply serve_alive.
Qed.

Lemma destroy_keeps_one fuel a : invariant at_most_one (destroy fuel a).
Proof.
  unfold destroy, Client.destroy.
  apply invariant_bind; [|intros _].
  { unfold DistributedLock.destroy. apply invariant_bind; [|intros _].
    - intros net H1. apply _offload_token_mutex; [|done].
      intros. by apply remote_quiet.
    - apply invariant_ret. }
  apply invariant_bind; [|intros _].
  - intros net H1 net' [= <-]. done.
  - apply invariant_state_frame, PeerList_destroy_state_frame.
Qed.

Lemma directory_covers_exit_quit a net net' :
  quit_frame a net net' → directory_covers net →
  directory_covers (exit a net').
Proof.
  intros [Ha Hn] Hd b. rewrite get_exit.
  destruct (decide (a = b)) as [<-|Hne]; [by intros []%is_Some_None|].
  intros Hb. apply Hn; [done|]. by apply Hd, Ha.
Qed.

Lemma initialize_loop fuel pid a es : ∀ net c,
  (∀ e, e ∈ es → e.1 ≠ pid → e.2 ≠ a) →
  Dict.get (procs net) a = Some c →
  id c = pid →
  ∀ net',
    for_each es (registration_step fuel a) net = Return net' tt →
    ∃ c', Dict.get (procs net') a = Some c' ∧ id c' = pid ∧
          distributed_lock c' = distributed_lock c ∧
          ((peers (peer_list c) ≠ [] ∨ ∃ e, e ∈ es ∧ e.1 ≠ pid) →
           peers (peer_list c') ≠ []).
Proof.
  induction es as [|[q aq] es IH]; intros net c Hes Hc Hid net'.
  { intros [= <-]. exists c. repeat split; try done.
    intros [?|(e & []%elem_of_nil & _)]; done. }
  cbn [for_each]. unfold mbind at 1, M_bind at 1.
  unfold registration_step at 1. mrun Hc.
  destruct (decide (q ≠ id c)) as [Hq|Hq].
  - unfold PeerList.register_peer. mrun Hc. rewrite DictFacts.get_set_eq. mrun Hc.
    match goal with |- context [upd net a ?x] => set (c2 := x) end.
    pose proof (remote_member fuel a (mkStub aq)
                  (register_peer_call (id c) (address c)) eq_refl
                  (upd net a c2)) as Hmem.
    destruct (remote fuel a _ _ _) as [net2 []|net2 e|net2|]; try done.
    destruct (Hmem net2 eq_refl) as (_ & Hother & _).
    assert (Hne : a ≠ aq).
    { intros <-. apply (Hes (q, a)); [by left|simpl; congruence|done]. }
    intros Hrest.
    destruct (IH net2 c2) with (net' := net') as (c' & Hc' & Hid' & Hl' & Hp');
      try done.
    { intros e He. apply Hes. by right. }
    { rewrite Hother by done. apply get_upd_eq. }
    exists c'. repeat split; try done. intros _. apply Hp'. left.
    unfold c2. simpl. by destruct (peers (peer_list c)) as [|[? ?] ?]; simpl;
      [|case_decide].
  - intros Hrest.
    destruct (IH net c) with (net' := net') as (c' & Hc' & Hid' & Hl' & Hp');
      try done.
    { intros e He. apply Hes. by right. }
    exists c'. repeat split; try done. intros [Hp|(e & He & Hepid)].
    + apply Hp'. by left.
    + apply Hp'. right. exists e. split; [|done].
      apply elem_of_cons in He as [->|He]; [|done].
      simpl in Hepid. destruct Hq. congruence.
Qed.

Lemma PeerList_initialize_loop fuel a :
  PeerList.initialize (remote fuel) (owner_unregister_peer fuel) a =
  (peer_set ← PeerList.name_service_get_peers;
   for_each peer_set (registration_step fuel a)).
Proof. reflexivity. Qed.

Lemma get_started pid a net b :
  Dict.get (procs (started pid a net)) b =
  if decide (a = b)
  then Some (mkClient pid a PeerList.__init__ DistributedLock.__init__)
  else Dict.get (procs net) b.
Proof. apply DictFacts.get_set. Qed.

Lemma started_safe pid a net :
  Dict.get (procs net) a = None → safe net → safe (started pid a net).
Proof.
  intros Ha [H1 Hd]. split.
  - intros b1 b2 c1 c2. rewrite !get_started.
    destruct (decide (a = b1)) as [<-|], (decide (a = b2)) as [<-|];
      try done.
    + by intros [= <-].
    + by intros _ [= <-].
    + apply H1.
  - intros b. rewrite get_started. simpl. rewrite fmap_app, elem_of_app.
    destruct (decide (a = b)) as [<-|].
    + intros _. right. simpl. by left.
    + intros Hb. left. by apply Hd.
Qed.

Lemma DistributedLock_initialize_run a net c :
  Dict.get (procs net) a = Some c →
  DistributedLock.initialize a net =
  Return
    (if decide (length (peers (peer_list c)) = 0%nat)
     then upd net a (with_lock (set_state TOKEN_PRESENT) c) else net)
    tt.
Proof.
  intros Hc. unfold DistributedLock.initialize. mrun Hc.
  case_decide; by mrun Hc.
Qed.

Lemma launch_safe fuel pid a net net' :
  Dict.get (procs net) a = None →
  pid ∉ (name_service net).*1 →
  a ∉ (name_service net).*2 →
  launch fuel pid a net = Some net' →
  safe net → safe net'.
Proof.
  intros Ha Hpid Haddr Hlaunch Hsafe.
  pose proof (started_safe pid a net Ha Hsafe) as [H1 Hd].
  set (fresh := mkClient pid a PeerList.__init__ DistributedLock.__init__).
  assert (Hfresh : Dict.get (procs (started pid a net)) a = Some fresh).
  { rewrite get_started. by rewrite decide_True. }
  unfold launch, start, Client.__init__ in Hlaunch.
  unfold mbind at 1, M_bind at 1 in Hlaunch.
  change (Client.Peer_start pid a net) with (Return (started pid a net) tt)
    in Hlaunch.
  cbv iota beta in Hlaunch.
  unfold mbind at 1, M_bind at 1 in Hlaunch.
  pose proof (PeerList_initialize_state_frame fuel a (started pid a net))
    as Hstate.
  pose proof (PeerList_initialize_alive (remote fuel)
                (owner_unregister_peer fuel) (remote_alive fuel) a
                (started pid a net)) as Halive.
  destruct (PeerList.initialize _ _ a (started pid a net))
    as [net1 []|net1 e|net1|] eqn:Hinit; simpl in Hlaunch; [| | |done].
  - (* the registrations went through *)
    specialize (Hstate net1 eq_refl). specialize (Halive net1 eq_refl).
    rewrite PeerList_initialize_loop in Hinit.
    unfold mbind, M_bind, PeerList.name_service_get_peers in Hinit.
    destruct (initialize_loop fuel pid a (name_service (started pid a net))
                (started pid a net) fresh)
      with (net' := net1) as (c' & Hc' & Hid' & Hl' & Hp'); try done.
    { intros [q aq] Hin Hq Heq. simpl in *. subst aq.
      apply elem_of_app in Hin as [Hin|[[=]|[]%elem_of_nil]%elem_of_cons].
      - apply Haddr. apply list_elem_of_fmap. by exists (q, a).
      - done. }
    rewrite (DistributedLock_initialize_run a net1 c' Hc') in Hlaunch.
    injection Hlaunch as <-.
    destruct (decide (length (peers (peer_list c')) = 0%nat)) as [He|He].
    + (* no peer was registered: nobody else runs *)
      assert (Hempty : name_service net = []).
      { destruct (name_service net) as [|[q aq] ns] eqn:Hns; [done|].
        destruct Hp'; [|by destruct (peers (peer_list c'))].
        right. exists (q, aq). split; [simpl; rewrite Hns; by left|].
        simpl. intros ->. apply Hpid. simpl. by left. }
      split.
      * apply quiet_except_at_most_one with a, quiet_except_upd.
        intros b c Hb _. destruct (decide (b = a)) as [|Hne]; [done|].
        assert (Hin : is_Some (Dict.get (procs (started pid a net)) b))
          by (apply Halive; eauto).
        rewrite get_started, decide_False in Hin by done.
        apply Hsafe in Hin. rewrite Hempty in Hin. by apply elem_of_nil in Hin.
      * eapply directory_covers_alive_frame; [|exact Hd].
        etransitivity; [exact Halive|]. by eapply alive_frame_upd.
    + split.
      * exact (state_frame_at_most_one _ _ Hstate H1).
      * exact (directory_covers_alive_frame _ _ Halive Hd).
  - (* a registration raised: the program ends *)
    injection Hlaunch as <-. specialize (Hstate net1 eq_refl).
    specialize (Halive net1 eq_refl). split.
    + apply at_most_one_exit.
      exact (state_frame_at_most_one _ _ Hstate H1).
    + intros b. rewrite get_exit. case_decide; [by intros []%is_Some_None|].
      intros Hb. exact (directory_covers_alive_frame _ _ Halive Hd b Hb).
  - injection Hlaunch as <-. specialize (Hstate net1 eq_refl).
    specialize (Halive net1 eq_refl). split.
    + exact (state_frame_at_most_one _ _ Hstate H1).
    + exact (directory_covers_alive_frame _ _ Halive Hd).
Qed.

Lemma atomic_step_safe net net' : atomic_step net net' → safe net → safe net'.
Proof.
  destruct 1 as [fuel pid a net net' Ha Hpid Haddr Hl
                |fuel a net net' Hfin|fuel a net net' Hfin
                |fuel a net net' Hfin|a net]; intros [H1 Hd].
  - by eapply launch_safe.
  - split; [by eapply acquire_mutex|].
    eapply directory_covers_alive_frame; [|done].
    eapply acquire_alive; [apply remote_alive|done].
  - split; [by eapply release_keeps_one|].
    eapply directory_covers_alive_frame; [|done].
    eapply release_alive; [apply remote_alive|done].
  - split.
    + apply at_most_one_exit. by eapply destroy_keeps_one.
    + eapply directory_covers_exit_quit; [|done]. by eapply destroy_quit_frame.
  - split; [by apply at_most_one_exit|].
    intros b. rewrite get_exit. case_decide; [by intros []%is_Some_None|].
    apply Hd.
Qed.

(** Without the window inside [acquire], at most one process at a time is
    in [TOKEN_PRESENT] or [TOKEN_HELD]. *)
Theorem atomic_mutual_exclusion net :
  rtc atomic_step (mkNetwork [] [] []) net → at_most_one net.
Proof.
  intros Hrun. cut (safe net); [by intros []|].
  revert net Hrun. apply rtc_ind_r.
  - split; [|by intros b []%is_Some_None]. by intros a b ca cb [=].
  - intros net net' _ Hstep Hsafe. by eapply atomic_step_safe.
Qed.

(** These executions are executions of the system. *)
Lemma atomic_step_reachable net net' :
  atomic_step net net' → rtc step (mkSystem net []) (mkSystem net' []).
Proof.
  destruct 1 as [fuel pid a net net' Ha Hpid Haddr Hl
                |fuel a net net' Hfin|fuel a net net' Hfin
                |fuel a net net' Hfin|a net].
  - apply rtc_once. by eapply step_start.
  - destruct (Dict.get (procs net) a) as [c|] eqn:Hc.
    2: { unfold acquire, DistributedLock.acquire in Hfin.
         revert Hfin. mrun Hc. by intros [= <-]. }
    destruct (decide (state (distributed_lock c) = TOKEN_PRESENT)) as [Hs|Hs].
    + rewrite (acquire_token_present fuel a net c Hc Hs) in Hfin.
      eapply rtc_l; [by eapply step_acquire_test; [apply not_elem_of_nil|..]|].
      apply rtc_once.
      assert (Hf : filter (λ b, b ≠ a) [a] = []).
      { rewrite filter_cons, decide_False; [done|]. by intros ?. }
      assert (Hin : a ∈ [a]) by constructor.
      pose proof (step_acquire_assign a net [a] net' Hin Hfin) as Hstep.
      by rewrite Hf in Hstep.
    + apply rtc_once. eapply step_acquire; [apply not_elem_of_nil|done..].
  - apply rtc_once. eapply step_release; [apply not_elem_of_nil|done].
  - apply rtc_once. eapply step_quit; [apply not_elem_of_nil|done].
  - apply rtc_once. apply (step_crash a net []).
Qed.


(** ** The payload when the membership changes before the send *)

(** [_check_token] is the purge followed by the send. *)
Lemma _check_token_split remote a net :
  DistributedLock._check_token remote a net =
  (target ← check_token_purge a;
   match target with
   | Some pid => check_token_send remote a pid
   | None => mret false
   end) net.
Proof.
  unfold DistributedLock._check_token, check_token_purge, check_token_send.
  destruct (Dict.get (procs net) a) as [c|] eqn:Hc; [|by mrun Hc].
  mrun Hc. case_decide; [done|]. mrun Hc.
  destruct (localLock (distributed_lock c)); [done|]. mrun Hc.
  destruct (DistributedLock.select_target _ _ _) as [pid|]; mrun Hc; [|done].
  destruct (Dict.get (peers (peer_list c)) pid) as [stub|]; mrun Hc; [|done].
  by destruct (remote _ _ _ _) as [? []| | |].
Qed.


Global Instance payload_frame_preorder : PreOrder payload_frame.
Proof.
  split.
  - by intros net.
  - intros n1 n2 n3 [Hs1 Hp1] [Hs2 Hp2]. split; [congruence|].
    intros b. by rewrite Hp2, Hp1.
Qed.


Section PayloadFrame.
Variable owner_unregister_peer : Address → Z → M unit.
Hypothesis owner_unregister_peer_payload : ∀ t pid,
  preserves payload_frame (owner_unregister_peer t pid).




End PayloadFrame.







(** ** Further properties, read off the code *)

(** ** Executions without the window *)

Lemma atomic_mutual_exclusion_witness :
  at_most_one two_peers_handed ∧
  states two_peers_handed = [(1, NO_TOKEN); (2, TOKEN_HELD)].
Proof.
  split; [|done].
  apply atomic_mutual_exclusion.
  eapply rtc_l.
  { apply (atomic_start 5 1 (host 1) (mkNetwork [] [] []) one_peer);
      [done|apply not_elem_of_nil|apply not_elem_of_nil|by vm_compute]. }
  eapply rtc_l.
  { apply (atomic_start 5 2 (host 2) one_peer two_peers);
      [done| | |by vm_compute];
      by intros [[=]|[]%elem_of_nil]%elem_of_cons. }
  eapply rtc_l; [|apply rtc_refl].
  apply (atomic_acquire 5 (host 2) two_peers two_peers_handed).
  by vm_compute.
Defined.

(** ** How the token calls end *)



(** The nesting of the calls that pass the token is bounded by the number
    of processes: with that much fuel [_check_token], [release],
    [request_token] and [obtain_token] come to an end. *)
Theorem token_calls_terminate fuel a net :
  (length (Dict.keys (procs net)) ≤ fuel)%nat →
  _check_token fuel a net ≠ OutOfFuel ∧
  release fuel a net ≠ OutOfFuel ∧
  (∀ t pid, request_token fuel a t pid net ≠ OutOfFuel) ∧
  (∀ tok, obtain_token fuel a tok net ≠ OutOfFuel).
Proof.
  intros Hlen.
  assert (HF : (free_locks net ≤ fuel)%nat).
  { pose proof (free_locks_le net). lia. }
  repeat split; intros.
  - by apply (_check_token_fuel (remote fuel) fuel (remote_fuel fuel)).
  - by apply (release_fuel (remote fuel) fuel (remote_fuel fuel)).
  - by apply (request_token_fuel (remote fuel) fuel (remote_fuel fuel)).
  - by apply (obtain_token_fuel (remote fuel) fuel (remote_fuel fuel)).
Qed.

Lemma token_calls_terminate_witness :
  (length (Dict.keys (procs chain_net)) ≤ 4)%nat ∧
  _check_token 1 (host 3) chain_net = OutOfFuel ∧
  _check_token 4 (host 3) chain_net ≠ OutOfFuel ∧
  (states <$> final (_check_token 4 (host 3) chain_net))
    = Some [(3, NO_TOKEN); (1, TOKEN_HELD); (2, NO_TOKEN); (5, NO_TOKEN)] ∧
  (length <$> (sent <$> final (_check_token 4 (host 3) chain_net)))
    = Some 2%nat.
Proof.
  split; [by vm_compute|]. split; [by vm_compute|]. split.
  - apply (token_calls_terminate 4 (host 3) chain_net). by vm_compute.
  - split; by vm_compute.
Defined.

(** ** The choice of the target *)

Lemma elem_of_scan_order owner_id ids pid :
  pid ∈ DistributedLock.scan_order owner_id ids ↔ pid ∈ ids ∧ pid ≠ owner_id.
Proof.
  unfold DistributedLock.scan_order. rewrite elem_of_app.
  rewrite !sorted_Permutation, !list_elem_of_filter. split.
  - intros [[? ?]|[? ?]]; split; try done; lia.
  - intros [? ?]. destruct (decide (owner_id < pid)); [by left|].
    right. split; [lia|done].
Qed.

Lemma select_target_cases owner_id (request token : Counter Z) :
  match DistributedLock.select_target owner_id request token with
  | Some pid =>
      pid ≠ owner_id ∧ pid ∈ Dict.keys request ∧
      Counter.get token pid < Counter.get request pid
  | None =>
      ∀ pid, pid ∈ Dict.keys request → pid ≠ owner_id →
             Counter.get request pid ≤ Counter.get token pid
  end.
Proof.
  unfold DistributedLock.select_target.
  pose proof (find_first (DistributedLock.wants request token)
                (DistributedLock.scan_order owner_id (Dict.keys request))) as H.
  destruct (List.find _ _) as [pid|].
  - destruct H as (before & rest & Heq & Hw & _).
    assert (Hin : pid ∈ DistributedLock.scan_order owner_id (Dict.keys request)).
    { rewrite Heq, elem_of_app. right. constructor. }
    apply elem_of_scan_order in Hin as [? ?]. by apply wants_true in Hw.
  - intros pid Hin Hne. apply wants_false.
    apply (Forall_elem_of _ _ pid H). by apply elem_of_scan_order.
Qed.

(** The target [_check_token] selects is never the holder itself: it is a
    requester other than the holder whose request is newer than the token's
    record; and no target is selected exactly when no such requester
    exists. *)
Theorem select_target_spec owner_id (request token : Counter Z) :
  match DistributedLock.select_target owner_id request token with
  | Some pid =>
      pid ≠ owner_id ∧ pid ∈ Dict.keys request ∧
      Counter.get token pid < Counter.get request pid
  | None =>
      ∀ pid, pid ∈ Dict.keys request → pid ≠ owner_id →
             Counter.get request pid ≤ Counter.get token pid
  end.
Proof. apply select_target_cases. Qed.

(** A request that is the only one open is the one served: when the holder
    had no target before, the requester whose newer timestamp arrives is the
    target afterwards. *)
Lemma chosen_merged c t pid :
  chosen c = None → pid ≠ id c →
  Counter.get (token (distributed_lock c)) pid < t →
  chosen (merged c t pid) = Some pid.
Proof.
  intros Hnone Hne Ht. unfold chosen in *. cbn [merged with_lock id
    distributed_lock set_request request token].
  set (req := request (distributed_lock c)) in *.
  set (tok := token (distributed_lock c)) in *.
  set (req' := Dict.set req pid (Z.max (Counter.get req pid) t)).
  pose proof (select_target_cases (id c) req tok) as H0. rewrite Hnone in H0.
  pose proof (select_target_cases (id c) req' tok) as H1.
  assert (Hget : ∀ q, Counter.get req' q =
            if decide (pid = q) then Z.max (Counter.get req pid) t
            else Counter.get req q).
  { intros q. unfold req', Counter.get. rewrite DictFacts.get_set.
    by case_decide. }
  destruct (DistributedLock.select_target (id c) req' tok) as [q|].
  - destruct H1 as (Hq & Hin & Hlt). f_equal.
    destruct (decide (pid = q)) as [|Hpq]; [done|].
    rewrite Hget, decide_False in Hlt by done.
    unfold req' in Hin. apply DictFacts.elem_of_keys_set in Hin.
    destruct Hin as [->|Hin]; [done|]. specialize (H0 q Hin Hq). lia.
  - assert (Hin : pid ∈ Dict.keys req').
    { apply DictFacts.elem_of_keys_set. by left. }
    specialize (H1 pid Hin Hne). rewrite Hget, decide_True in H1 by done. lia.
Qed.

(** ** Requests that do not move the token *)

(** [request_token] gives the token away only from [TOKEN_PRESENT] and only
    to a newer request: at a peer that holds the token ([TOKEN_HELD]) or has
    none, and for a timestamp the token has already served, it records the
    merged timestamp, sends nothing and leaves the state as it is. *)
Theorem request_token_keeps_token remote a net c t pid :
  Dict.get (procs net) a = Some c →
  state (distributed_lock c) ≠ TOKEN_PRESENT ∨
  Z.max (Counter.get (request (distributed_lock c)) pid) t
    ≤ Counter.get (token (distributed_lock c)) pid →
  DistributedLock.request_token remote a t pid net =
    Return (upd net a (merged c t pid)) tt ∧
  sent (upd net a (merged c t pid)) = sent net ∧
  state (distributed_lock (merged c t pid)) = state (distributed_lock c).
Proof.
  intros Hc Hcase. split; [|done].
  rewrite (request_token_unfold remote a net c Hc).
  destruct Hcase as [Hs|Hle].
  - by rewrite bool_decide_eq_false_2.
  - replace (DistributedLock.wants _ _ _) with false;
      [by rewrite andb_false_r|].
    symmetry. apply wants_false. cbn [merged with_lock distributed_lock
      set_request request]. unfold Counter.get at 1.
    by rewrite DictFacts.get_set_eq.
Qed.

Lemma request_token_keeps_token_witness :
  request_token 5 (host 2) 7 1 two_peers_handed =
    Return (upd two_peers_handed (host 2)
              (merged (mkClient 2 (host 2) (mkPeerList [(1, mkStub (host 1))])
                         (mkLock 1 TOKEN_HELD false [(2, 1)] [(2, 1)]))
                 7 1)) tt ∧
  state_at two_peers_handed (host 2) = Some TOKEN_HELD.
Proof.
  split; [|by vm_compute].
  apply (request_token_keeps_token (remote 5) (host 2) two_peers_handed).
  - by vm_compute.
  - left. by vm_compute.
Defined.

(** ** A peer that was unregistered *)

(** Once [DistributedLock.unregister_peer(pID)] has run, the token is never
    sent to [pID] on the strength of an old request: the entry is gone from
    the request table, every other entry is as before, and [_check_token]
    does not select [pID]. *)
Theorem unregistered_peer_not_chosen a net c pID :
  Dict.get (procs net) a = Some c →
  ∃ c',
    DistributedLock.unregister_peer a pID net = Return (upd net a c') tt ∧
    (pID ∉ Dict.keys (request (distributed_lock c'))) ∧
    (∀ q, q ≠ pID →
       Dict.get (request (distributed_lock c')) q =
       Dict.get (request (distributed_lock c)) q) ∧
    token (distributed_lock c') = token (distributed_lock c) ∧
    state (distributed_lock c') = state (distributed_lock c) ∧
    chosen c' ≠ Some pID.
Proof.
  intros Hc. unfold DistributedLock.unregister_peer. mrun Hc.
  eexists. split; [reflexivity|].
  cbn [distributed_lock request token state].
  assert (Hnin : pID ∉ Dict.keys (Counter.del (request (distributed_lock c)) pID)).
  { apply DictFacts.get_None_keys, DictFacts.get_del_eq. }
  split; [done|]. split.
  { intros q Hq. by apply DictFacts.get_del_ne. }
  split; [done|]. split; [done|].
  unfold chosen. cbn [id distributed_lock request token].
  pose proof (select_target_cases (id c)
                (Counter.del (request (distributed_lock c)) pID)
                (token (distributed_lock c))) as H.
  intros Heq. rewrite Heq in H. by destruct H as (_ & ? & _).
Qed.

Lemma unregistered_peer_not_chosen_witness :
  chosen ring_holder = Some 5 ∧
  ∃ c',
    DistributedLock.unregister_peer (host 3) 5 ring_net
      = Return (upd ring_net (host 3) c') tt ∧
    chosen c' = Some 1.
Proof.
  split; [by vm_compute|].
  destruct (unregistered_peer_not_chosen (host 3) ring_net ring_holder 5
              eq_refl) as (c' & Hrun & _).
  exists c'. split; [exact Hrun|].
  unfold DistributedLock.unregister_peer in Hrun. vm_compute in Hrun.
  injection Hrun as Hrun. by inversion Hrun.
Defined.

(** ** Taking and giving back a token nobody asked for *)

(** [acquire] followed by [release] at a peer that has the token unused,
    while no request is open, sends nothing and leaves the network exactly
    as it was. *)
Theorem acquire_release_round_trip fuel a net c :
  Dict.get (procs net) a = Some c →
  state (distributed_lock c) = TOKEN_PRESENT →
  localLock (distributed_lock c) = false →
  chosen c = None →
  acquire fuel a net
    = Return (upd net a (with_lock (set_state TOKEN_HELD) c)) tt ∧
  (acquire fuel a ;; release fuel a) net = Return net tt.
Proof.
  intros Hc Hs Hl Hnone.
  assert (Hacq : acquire fuel a net
            = Return (upd net a (with_lock (set_state TOKEN_HELD) c)) tt).
  { rewrite (acquire_token_present fuel a net c Hc Hs).
    unfold acquire_assign. by mrun Hc. }
  split; [done|].
  unfold mbind at 1, M_bind. rewrite Hacq. unfold release.
  rewrite (release_unfold (remote fuel) a _ _ (get_upd_eq _ _ _)).
  rewrite decide_True by done. rewrite upd_upd.
  assert (Hback : released (with_lock (set_state TOKEN_HELD) c) = c).
  { destruct c as [? ? ? []]. simpl in *. by subst. }
  rewrite Hback, (upd_same net a c Hc).
  rewrite (_check_token_keep (remote fuel) a net c Hc); try done.
  by rewrite Hs.
Qed.

Lemma acquire_release_round_trip_witness :
  state_at one_peer (host 1) = Some TOKEN_PRESENT ∧
  (acquire 5 (host 1) ;; release 5 (host 1)) one_peer = Return one_peer tt.
Proof.
  split; [by vm_compute|].
  eapply (acquire_release_round_trip 5 (host 1) one_peer); by vm_compute.
Defined.

(** ** A token that comes back while it is being sent *)

(** [obtain_token] served at a peer whose [localLock] is taken (it is inside
    [_check_token] or [_offload_token] itself) and which has no open request
    of its own does not return: it adopts the token, [release] makes it
    [TOKEN_PRESENT], and [_check_token] waits for the lock. *)
Theorem obtain_token_reentrant_blocks remote a net c tok :
  Dict.get (procs net) a = Some c →
  localLock (distributed_lock c) = true →
  Counter.get (request (distributed_lock c)) (id c) ≤ Counter.get tok (id c) →
  DistributedLock.obtain_token remote a tok net =
  Blocked (upd net a (released (adopted c tok))) ∧
  state (distributed_lock (released (adopted c tok))) = TOKEN_PRESENT.
Proof.
  intros Hc Hl Hle. split; [|done].
  rewrite (obtain_token_unfold remote a net c Hc).
  rewrite decide_False by lia.
  rewrite (release_unfold remote a _ _ (get_upd_eq _ _ _)).
  rewrite decide_True by done. rewrite upd_upd.
  by rewrite (_check_token_locked remote a _ _ (get_upd_eq _ _ _)).
Qed.

Lemma obtain_token_reentrant_blocks_witness :
  final (obtain_token 5 (host 3) [(3, 4)]
           (upd ring_net (host 3) (handing_over ring_holder)))
  = Some (upd ring_net (host 3)
            (released (adopted (handing_over ring_holder) [(3, 4)]))) ∧
  state_at (upd ring_net (host 3)
              (released (adopted (handing_over ring_holder) [(3, 4)])))
    (host 3) = Some TOKEN_PRESENT.
Proof.
  split; [|by vm_compute].
  destruct (obtain_token_reentrant_blocks (remote 5) (host 3)
              (upd ring_net (host 3) (handing_over ring_holder))
              (handing_over ring_holder) [(3, 4)]) as [Hrun _].
  - by vm_compute.
  - by vm_compute.
  - by vm_compute.
  - unfold obtain_token. rewrite Hrun. by vm_compute.
Defined.

(** ** A dead target, in general *)

(** Whenever the target [_check_token] selects is registered but dead, the
    token is lost: the call returns [False] and, if at most the sender had
    the token before, no process has it afterwards. *)
Theorem dead_target_loses_token fuel a net c pid stub :
  Dict.get (procs net) a = Some c →
  state (distributed_lock c) ≠ NO_TOKEN →
  localLock (distributed_lock c) = false →
  chosen c = Some pid →
  Dict.get (peers (peer_list c)) pid = Some stub →
  Dict.get (procs net) (stub_address stub) = None →
  at_most_one net →
  ∃ net', _check_token fuel a net = Return net' false ∧ quiet net'.
Proof.
  intros Hc Hs Hl Ht Hp Hdead Hone.
  rewrite (_check_token_dead_target fuel a net c pid stub Hc Hs Hl Ht Hp Hdead).
  eexists. split; [reflexivity|].
  intros b cb. rewrite get_upd. case_decide as Hab.
  - by intros [= <-].
  - cbn [wire procs]. intros Hb.
    destruct (decide (state (distributed_lock cb) = NO_TOKEN)) as [|Hsb];
      [done|].
    destruct Hab. symmetry. by apply (Hone b a cb c).
Qed.

Lemma dead_target_loses_token_witness :
  ∃ net', _check_token 5 (host 3) dead_target_net = Return net' false ∧
          quiet net'.
Proof.
  apply (dead_target_loses_token 5 (host 3) dead_target_net ring_holder 5
           (mkStub (host 5))); try by vm_compute.
  intros a b ca cb Ha Hb Hsa Hsb.
  assert (Hq : ∀ x cx, Dict.get (procs dead_target_net) x = Some cx →
                       state (distributed_lock cx) ≠ NO_TOKEN → x = host 3).
  { intros x cx. unfold dead_target_net. cbn [procs Dict.get].
    repeat case_decide; try done; by intros [= <-]. }
  by rewrite (Hq a ca Ha Hsa), (Hq b cb Hb Hsb).
Defined.

(** ** The liveness sweep *)

Lemma for_each_app {A} (l1 l2 : list A) (body : A → M unit) net :
  for_each (l1 ++ l2) body net = (for_each l1 body ;; for_each l2 body) net.
Proof.
  revert net. induction l1 as [|x l1 IH]; intros net; [done|].
  cbn [app for_each]. unfold mbind, M_bind in *.
  destruct (body x net); first [done|apply IH].
Qed.

Lemma mem_upd net a c c' b :
  Dict.get (procs net) a = Some c →
  Dict.mem b (procs (upd net a c')) = Dict.mem b (procs net).
Proof.
  intros Hc. unfold Dict.mem. rewrite get_upd.
  case_decide as Hab; [|done]. subst. by rewrite Hc.
Qed.

Lemma alive_but_upd net a c c' ps dead :
  Dict.get (procs net) a = Some c →
  alive_but net ps dead → alive_but (upd net a c') ps dead.
Proof.
  intros Hc H q stub Hq Hs. rewrite (mem_upd net a c c' _ Hc). by eapply H.
Qed.

Lemma keys_del {K V} `{EqDecision K} (d : dict K V) k :
  Dict.keys (Dict.del d k) = filter (λ k', k' ≠ k) (Dict.keys d).
Proof.
  unfold Dict.keys. induction d as [|[k' v] d IH]; [done|].
  cbn [Dict.del fmap list_fmap fst]. rewrite filter_cons. cbn [fst].
  destruct (decide (k' = k)) as [->|Hne].
  - by rewrite decide_False by (by intros ?).
  - rewrite decide_True by done. cbn [fmap list_fmap fst]. by f_equal.
Qed.

Lemma del_del {K V} `{EqDecision K} (d : dict K V) k k' :
  Dict.del (Dict.del d k) k' = Dict.del (Dict.del d k') k.
Proof.
  induction d as [|[q v] d IH]; [done|]. cbn [Dict.del].
  destruct (decide (q = k)), (decide (q = k')); cbn [Dict.del];
    repeat case_decide; try done. by f_equal.
Qed.



Section Sweep.
Variable owner_unregister_peer : Address → Z → M unit.
Variables (a : Address).

Lemma check_all_alive_loop net c :
  Dict.get (procs net) a = Some c →
  PeerList.check_all_alive owner_unregister_peer a net =
  for_each (Dict.keys (peers (peer_list c)))
    (probe_step owner_unregister_peer a) net.
Proof. intros Hc. unfold PeerList.check_all_alive. by mrun Hc. Qed.

Lemma probe_step_alive net c pID stub :
  Dict.get (procs net) a = Some c →
  Dict.get (peers (peer_list c)) pID = Some stub →
  Dict.mem (stub_address stub) (procs net) = true →
  probe_step owner_unregister_peer a pID net = Return net tt.
Proof.
  intros Hc Hp Halive. unfold probe_step. mrun Hc. rewrite Hp. mrun Hc.
  unfold PeerList.checkLiveness. by rewrite Halive.
Qed.

Lemma probe_step_dead net c pID stub :
  Dict.get (procs net) a = Some c →
  Dict.get (peers (peer_list c)) pID = Some stub →
  Dict.mem (stub_address stub) (procs net) = false →
  probe_step owner_unregister_peer a pID net = owner_unregister_peer a pID net.
Proof.
  intros Hc Hp Halive. unfold probe_step. mrun Hc. rewrite Hp. mrun Hc.
  unfold PeerList.checkLiveness. by rewrite Halive.
Qed.

Lemma probe_step_KeyError net c pID :
  Dict.get (procs net) a = Some c →
  Dict.get (peers (peer_list c)) pID = None →
  probe_step owner_unregister_peer a pID net = Raise net (KeyError pID).
Proof. intros Hc Hp. unfold probe_step. mrun Hc. rewrite Hp. by mrun Hc. Qed.

Lemma sweep_alive net c l dead :
  Dict.get (procs net) a = Some c →
  l ⊆ Dict.keys (peers (peer_list c)) →
  alive_but net (peers (peer_list c)) dead →
  (∀ q, q ∈ l → q ∉ dead) →
  for_each l (probe_step owner_unregister_peer a) net = Return net tt.
Proof.
  intros Hc Hl Halive Hdead. induction l as [|q l IH]; [done|].
  cbn [for_each]. unfold mbind, M_bind.
  destruct (DictFacts.keys_get (peers (peer_list c)) q) as [stub Hq].
  { apply Hl. constructor. }
  rewrite (probe_step_alive net c q stub Hc Hq).
  - apply IH.
    + intros x Hx. apply Hl. by constructor.
    + intros x Hx. apply Hdead. by constructor.
  - eapply Halive; [|done]. apply Hdead. constructor.
Qed.
End Sweep.

(** A liveness sweep over peers that all run changes nothing and calls
    nobody. *)
Theorem check_all_alive_all_alive owner_unregister_peer a net c :
  Dict.get (procs net) a = Some c →
  alive_but net (peers (peer_list c)) [] →
  PeerList.check_all_alive owner_unregister_peer a net = Return net tt.
Proof.
  intros Hc Halive. rewrite (check_all_alive_loop _ a net c Hc).
  apply (sweep_alive _ a net c _ []); try done.
  intros q _. apply not_elem_of_nil.
Qed.

Lemma check_all_alive_all_alive_witness :
  PeerList.check_all_alive (owner_unregister_peer 5) (host 3) ring_net
  = Return ring_net tt.
Proof.
  apply (check_all_alive_all_alive _ (host 3) ring_net ring_holder);
    [done|].
  intros q stub _. unfold ring_holder. cbn [peer_list peers Dict.get].
  repeat case_decide; try done; by intros [= <-].
Defined.

(** ** Unregistering a peer *)

Lemma alive_but_del net ps dead pid :
  alive_but net ps dead → alive_but net (Dict.del ps pid) dead.
Proof.
  intros H q stub Hq Hs. destruct (decide (pid = q)) as [->|Hne].
  - by rewrite DictFacts.get_del_eq in Hs.
  - rewrite DictFacts.get_del_ne in Hs by done. by eapply H.
Qed.

Lemma alive_but_del_dead net ps pid :
  alive_but net ps [pid] → alive_but net (Dict.del ps pid) [].
Proof.
  intros H q stub _ Hs. destruct (decide (pid = q)) as [->|Hne].
  - by rewrite DictFacts.get_del_eq in Hs.
  - rewrite DictFacts.get_del_ne in Hs by done.
    eapply H; [|done]. by intros ->%list_elem_of_singleton.
Qed.

Lemma NoDup_keys_del {K V} `{EqDecision K} (d : dict K V) k :
  NoDup (Dict.keys d) → NoDup (Dict.keys (Dict.del d k)).
Proof. rewrite keys_del. apply NoDup_filter. Qed.

Section Unregister.
Variable owner_unregister_peer : Address → Z → M unit.
Variables (a : Address) (net : Network) (c : Client).
Hypothesis Hc : Dict.get (procs net) a = Some c.


Lemma Client_unregister_peer_unfold pid stub :
  Dict.get (peers (peer_list c)) pid = Some stub →
  Client.unregister_peer owner_unregister_peer a pid net =
  (PeerList.check_all_alive owner_unregister_peer a ;;
   DistributedLock.unregister_peer a pid)
    (upd net a (with_peers (λ ps, Dict.del ps pid) c)).
Proof.
  intros Hp. unfold Client.unregister_peer, PeerList.unregister_peer.
  mrun Hc. unfold Dict.mem. rewrite Hp. by mrun Hc.
Qed.

Lemma Client_unregister_peer_run pid stub :
  Dict.get (peers (peer_list c)) pid = Some stub →
  alive_but net (peers (peer_list c)) [pid] →
  Client.unregister_peer owner_unregister_peer a pid net
  = Return (upd net a (forgotten c pid)) tt.
Proof.
  intros Hp Halive. rewrite (Client_unregister_peer_unfold pid stub Hp).
  set (c1 := with_peers (λ ps, Dict.del ps pid) c).
  assert (Hc1 : Dict.get (procs (upd net a c1)) a = Some c1)
    by apply get_upd_eq.
  unfold mbind at 1, M_bind.
  rewrite (check_all_alive_loop _ a _ c1 Hc1).
  rewrite (sweep_alive _ a _ c1 _ [] Hc1); first last.
  - intros q _. apply not_elem_of_nil.
  - apply (alive_but_upd net a c c1 _ _ Hc). by apply alive_but_del_dead.
  - done.
  - unfold DistributedLock.unregister_peer. by mrun Hc1.
Qed.
End Unregister.



(** ** One dead peer *)

Lemma check_all_alive_one_dead_run fuel a net c pid stub :
  Dict.get (procs net) a = Some c →
  NoDup (Dict.keys (peers (peer_list c))) →
  Dict.get (peers (peer_list c)) pid = Some stub →
  Dict.mem (stub_address stub) (procs net) = false →
  alive_but net (peers (peer_list c)) [pid] →
  PeerList.check_all_alive (owner_unregister_peer (S fuel)) a net
  = Return (upd net a (forgotten c pid)) tt.
Proof.
  intros Hc Hnd Hp Hdead Halive.
  rewrite (check_all_alive_loop _ a net c Hc).
  destruct (list_elem_of_split _ _
              (DictFacts.get_Some_keys _ _ _ Hp)) as (l1 & l2 & Hk).
  rewrite Hk in Hnd |- *.
  apply NoDup_app in Hnd as (_ & Hl1 & [Hl2 _]%NoDup_cons).
  assert (Hsub : ∀ q, q ∈ l1 ∨ q ∈ l2 →
            q ∈ Dict.keys (peers (peer_list c)) ∧ q ≠ pid).
  { intros q Hq. split.
    - rewrite Hk, elem_of_app, elem_of_cons. tauto.
    - intros ->. destruct Hq as [Hq|Hq]; [|done].
      apply (Hl1 pid Hq). constructor. }
  rewrite for_each_app. unfold mbind at 1, M_bind.
  rewrite (sweep_alive _ a net c l1 [pid] Hc); first last.
  { intros q Hq ->%list_elem_of_singleton. by destruct (Hsub pid (or_introl Hq)). }
  { done. }
  { intros q Hq. apply Hsub. by left. }
  cbn [for_each]. unfold mbind at 1, M_bind.
  rewrite (probe_step_dead _ a net c pid stub Hc Hp Hdead).
  change (owner_unregister_peer (S fuel) a pid net)
    with (Client.unregister_peer (owner_unregister_peer fuel) a pid net).
  rewrite (Client_unregister_peer_run _ a net c Hc pid stub Hp Halive).
  assert (Hc1 : Dict.get (procs (upd net a (forgotten c pid))) a
                = Some (forgotten c pid)) by apply get_upd_eq.
  apply (sweep_alive _ a _ _ l2 [pid] Hc1).
  - intros q Hq. destruct (Hsub q (or_intror Hq)) as [Hin Hne].
    cbn [forgotten with_lock with_peers peer_list peers].
    rewrite keys_del. apply list_elem_of_filter. by split.
  - apply (alive_but_upd net a c _ _ _ Hc).
    cbn [forgotten with_lock with_peers peer_list peers].
    by apply alive_but_del.
  - intros q Hq ->%list_elem_of_singleton.
    by destruct (Hsub pid (or_intror Hq)).
Qed.

(** A liveness sweep that finds exactly one dead peer unregisters it: the
    peer leaves the peer list and the request table, and every other entry
    stays. *)
Theorem check_all_alive_one_dead fuel a net c pid stub :
  Dict.get (procs net) a = Some c →
  NoDup (Dict.keys (peers (peer_list c))) →
  Dict.get (peers (peer_list c)) pid = Some stub →
  Dict.mem (stub_address stub) (procs net) = false →
  alive_but net (peers (peer_list c)) [pid] →
  ∃ c',
    PeerList.check_all_alive (owner_unregister_peer (S fuel)) a net
      = Return (upd net a c') tt ∧
    Dict.get (peers (peer_list c')) pid = None ∧
    Dict.get (request (distributed_lock c')) pid = None ∧
    (∀ q, q ≠ pid →
       Dict.get (peers (peer_list c')) q = Dict.get (peers (peer_list c)) q ∧
       Dict.get (request (distributed_lock c')) q
         = Dict.get (request (distributed_lock c)) q).
Proof.
  intros Hc Hnd Hp Hdead Halive. exists (forgotten c pid).
  split; [by eapply check_all_alive_one_dead_run|].
  cbn [forgotten with_lock with_peers peer_list peers distributed_lock
       set_request request]. unfold Counter.del.
  rewrite !DictFacts.get_del_eq. repeat split; try done;
    by apply DictFacts.get_del_ne.
Qed.

Lemma check_all_alive_one_dead_witness :
  ∃ c',
    PeerList.check_all_alive (owner_unregister_peer 1) (host 3) dead_target_net
      = Return (upd dead_target_net (host 3) c') tt ∧
    Dict.get (peers (peer_list c')) 5 = None ∧
    Dict.get (request (distributed_lock c')) 5 = None.
Proof.
  destruct (check_all_alive_one_dead 0 (host 3) dead_target_net ring_holder 5
              (mkStub (host 5))) as (c' & Hrun & Hp & Hr & _).
  - done.
  - apply (bool_decide_unpack _). by vm_compute.
  - done.
  - done.
  - intros q stub Hq. unfold ring_holder. cbn [peer_list peers Dict.get].
    repeat case_decide; try done; try (by intros [= <-]).
    subst. destruct Hq. constructor.
  - by exists c'.
Defined.

(** ** Two dead peers *)

Lemma check_all_alive_two_dead_run fuel a net c p1 p2 s1 s2 l1 l2 l3 :
  Dict.get (procs net) a = Some c →
  Dict.keys (peers (peer_list c)) = l1 ++ p1 :: l2 ++ p2 :: l3 →
  NoDup (Dict.keys (peers (peer_list c))) →
  Dict.get (peers (peer_list c)) p1 = Some s1 →
  Dict.get (peers (peer_list c)) p2 = Some s2 →
  Dict.mem (stub_address s1) (procs net) = false →
  Dict.mem (stub_address s2) (procs net) = false →
  alive_but net (peers (peer_list c)) [p1; p2] →
  PeerList.check_all_alive (owner_unregister_peer (S (S fuel))) a net
  = Raise (upd net a (forgotten (forgotten c p2) p1)) (KeyError p2).
Proof.
  intros Hc Hk Hnd Hp1 Hp2 Hd1 Hd2 Halive.
  rewrite (check_all_alive_loop _ a net c Hc), Hk.
  pose proof Hnd as Hnd0. rewrite Hk in Hnd.
  apply NoDup_app in Hnd as (_ & Hl1 & [Hp1' Hnd]%NoDup_cons).
  apply NoDup_app in Hnd as (_ & Hl2 & [Hp2' _]%NoDup_cons).
  assert (Hne : p1 ≠ p2).
  { intros ->. apply Hp1'. rewrite elem_of_app. right. constructor. }
  assert (Hin : ∀ q, q ∈ l1 ∨ q ∈ l2 →
            q ∈ Dict.keys (peers (peer_list c)) ∧ q ≠ p1 ∧ q ≠ p2).
  { intros q Hq. split; [|split].
    - rewrite Hk, elem_of_app, elem_of_cons, elem_of_app, elem_of_cons. tauto.
    - intros ->. destruct Hq as [Hq|Hq].
      + apply (Hl1 p1 Hq). constructor.
      + apply Hp1'. rewrite elem_of_app. by left.
    - intros ->. destruct Hq as [Hq|Hq].
      + apply (Hl1 p2 Hq). rewrite elem_of_cons, elem_of_app, elem_of_cons.
        tauto.
      + apply (Hl2 p2 Hq). constructor. }
  assert (Hdead : ∀ q, q ∈ l1 ∨ q ∈ l2 → q ∉ [p1; p2]).
  { intros q Hq Hq'. destruct (Hin q Hq) as (_ & ? & ?).
    apply elem_of_cons in Hq' as [->|Hq']; [done|].
    by apply list_elem_of_singleton in Hq'. }
  (* the peers before the first dead one *)
  rewrite for_each_app. unfold mbind at 1, M_bind.
  rewrite (sweep_alive _ a net c l1 [p1; p2] Hc); first last.
  { intros q Hq. apply Hdead. by left. }
  { done. }
  { intros q Hq. apply Hin. by left. }
  (* the first dead peer is unregistered; the nested sweep removes the
     second one *)
  cbn [for_each]. unfold mbind at 1, M_bind.
  rewrite (probe_step_dead _ a net c p1 s1 Hc Hp1 Hd1).
  change (owner_unregister_peer (S (S fuel)) a p1 net)
    with (Client.unregister_peer (owner_unregister_peer (S fuel)) a p1 net).
  rewrite (Client_unregister_peer_unfold _ a net c Hc p1 s1 Hp1).
  set (c1 := with_peers (λ ps, Dict.del ps p1) c).
  assert (Hc1 : Dict.get (procs (upd net a c1)) a = Some c1)
    by apply get_upd_eq.
  unfold mbind at 1, M_bind.
  rewrite (check_all_alive_one_dead_run fuel a _ c1 p2 s2 Hc1); first last.
  { apply (alive_but_upd net a c c1 _ _ Hc).
    intros q stub Hq. cbn [c1 with_peers peer_list peers].
    destruct (decide (p1 = q)) as [->|Hq1].
    - by rewrite DictFacts.get_del_eq.
    - rewrite DictFacts.get_del_ne by done. apply Halive.
      rewrite elem_of_cons. intros [->|?]; done. }
  { by rewrite (mem_upd net a c c1 _ Hc). }
  { cbn [c1 with_peers peer_list peers]. by rewrite DictFacts.get_del_ne. }
  { cbn [c1 with_peers peer_list peers]. by apply NoDup_keys_del. }
  rewrite upd_upd.
  set (c2 := forgotten c1 p2).
  assert (Hc2 : Dict.get (procs (upd net a c2)) a = Some c2)
    by apply get_upd_eq.
  unfold DistributedLock.unregister_peer. mrun Hc2.
  match goal with |- context [upd net a ?x] => set (c3 := x) end.
  assert (Hc3 : Dict.get (procs (upd net a c3)) a = Some c3)
    by apply get_upd_eq.
  assert (Heq : c3 = forgotten (forgotten c p2) p1).
  { unfold c3, c2, c1, forgotten, with_lock, with_peers, set_request,
      Counter.del. cbn [id address peer_list peers distributed_lock time
      state localLock token request]. by rewrite (del_del _ p1 p2). }
  rewrite <- Heq.
  (* back in the outer loop: the second dead peer is no longer a key *)
  rewrite for_each_app. unfold mbind at 1, M_bind.
  assert (Hp3 : peers (peer_list c3)
                = Dict.del (Dict.del (peers (peer_list c)) p1) p2) by done.
  rewrite (sweep_alive _ a _ c3 l2 [p1; p2] Hc3); first last.
  { intros q Hq. apply Hdead. by right. }
  { apply (alive_but_upd net a c c3 _ _ Hc). rewrite Hp3.
    by do 2 apply alive_but_del. }
  { intros q Hq. destruct (Hin q (or_intror Hq)) as (Hq0 & Hq1 & Hq2).
    rewrite Hp3, !keys_del, !list_elem_of_filter. done. }
  cbn [for_each]. unfold mbind at 1, M_bind.
  rewrite (probe_step_KeyError _ a _ c3 p2 Hc3); [done|].
  rewrite Hp3. apply DictFacts.get_del_eq.
Qed.

(** A liveness sweep that finds two dead peers fails: unregistering the
    first one runs a nested sweep that unregisters the second one, and the
    outer loop, which goes on over the keys it saw at its start, then looks
    the second one up in the peer list and raises [KeyError].  Both peers
    are gone from the peer list and the request table by then. *)
Theorem check_all_alive_two_dead fuel a net c p1 p2 s1 s2 l1 l2 l3 :
  Dict.get (procs net) a = Some c →
  Dict.keys (peers (peer_list c)) = l1 ++ p1 :: l2 ++ p2 :: l3 →
  NoDup (Dict.keys (peers (peer_list c))) →
  Dict.get (peers (peer_list c)) p1 = Some s1 →
  Dict.get (peers (peer_list c)) p2 = Some s2 →
  Dict.mem (stub_address s1) (procs net) = false →
  Dict.mem (stub_address s2) (procs net) = false →
  alive_but net (peers (peer_list c)) [p1; p2] →
  ∃ c',
    PeerList.check_all_alive (owner_unregister_peer (S (S fuel))) a net
      = Raise (upd net a c') (KeyError p2) ∧
    Dict.get (peers (peer_list c')) p1 = None ∧
    Dict.get (peers (peer_list c')) p2 = None ∧
    Dict.get (request (distributed_lock c')) p1 = None ∧
    Dict.get (request (distributed_lock c')) p2 = None.
Proof.
  intros Hc Hk Hnd Hp1 Hp2 Hd1 Hd2 Halive.
  exists (forgotten (forgotten c p2) p1).
  split; [by eapply check_all_alive_two_dead_run|].
  assert (Hne : p1 ≠ p2).
  { intros ->. rewrite Hk in Hnd.
    apply NoDup_app in Hnd as (_ & _ & [Hp _]%NoDup_cons).
    apply Hp. rewrite elem_of_app. right. constructor. }
  cbn [forgotten with_lock with_peers peer_list peers distributed_lock
       set_request request]. unfold Counter.del.
  rewrite !DictFacts.get_del_eq.
  rewrite !(DictFacts.get_del_ne _ p1 p2), !DictFacts.get_del_eq by done.
  done.
Qed.

Lemma check_all_alive_two_dead_witness :
  ∃ c',
    PeerList.check_all_alive (owner_unregister_peer 2) (host 3) two_dead_net
      = Raise (upd two_dead_net (host 3) c') (KeyError 5) ∧
    Dict.get (peers (peer_list c')) 1 = None ∧
    Dict.get (peers (peer_list c')) 5 = None.
Proof.
  destruct (check_all_alive_two_dead 0 (host 3) two_dead_net ring_holder 1 5
              (mkStub (host 1)) (mkStub (host 5)) [] [2] [])
    as (c' & Hrun & H1 & H5 & _).
  - done.
  - done.
  - apply (bool_decide_unpack _). by vm_compute.
  - done.
  - done.
  - done.
  - done.
  - intros q stub Hq. unfold ring_holder. cbn [peer_list peers Dict.get].
    repeat case_decide; try done; try (by intros [= <-]);
      subst; destruct Hq; rewrite !elem_of_cons; tauto.
  - by exists c'.
Defined.

(** ** Registering a peer *)

Lemma Client_register_peer_unfold oup a pid paddr net :
  Client.register_peer oup a pid paddr net =
  (PeerList.check_all_alive oup a ;;
   modify a (with_peers (λ ps, Dict.set ps pid (mkStub paddr)))) net.
Proof.
  unfold Client.register_peer, PeerList.register_peer,
    DistributedLock.register_peer, mbind, M_bind, mret, M_ret.
  destruct (PeerList.check_all_alive oup a net) as [net1 []| | |]; try done.
  by destruct (modify _ _ net1) as [? []| | |].
Qed.

(** A peer that has two dead peers registered cannot take in a newcomer:
    [register_peer], which sweeps before it registers, raises the
    [KeyError] of the sweep, and the newcomer is not registered. *)
Theorem register_peer_fails_with_two_dead fuel a net c p1 p2 s1 s2 l1 l2 l3
    pid paddr :
  Dict.get (procs net) a = Some c →
  Dict.keys (peers (peer_list c)) = l1 ++ p1 :: l2 ++ p2 :: l3 →
  NoDup (Dict.keys (peers (peer_list c))) →
  Dict.get (peers (peer_list c)) p1 = Some s1 →
  Dict.get (peers (peer_list c)) p2 = Some s2 →
  Dict.mem (stub_address s1) (procs net) = false →
  Dict.mem (stub_address s2) (procs net) = false →
  alive_but net (peers (peer_list c)) [p1; p2] →
  Dict.get (peers (peer_list c)) pid = None →
  ∃ c',
    serve (S (S (S fuel))) a (register_peer_call pid paddr) net
      = Raise (upd net a c') (KeyError p2) ∧
    Dict.get (peers (peer_list c')) pid = None.
Proof.
  intros Hc Hk Hnd Hp1 Hp2 Hd1 Hd2 Halive Hpid.
  exists (forgotten (forgotten c p2) p1). split.
  - change (serve (S (S (S fuel))) a (register_peer_call pid paddr))
      with (Client.register_peer (owner_unregister_peer (S (S fuel)))
              a pid paddr).
    rewrite Client_register_peer_unfold. unfold mbind, M_bind.
    by rewrite (check_all_alive_two_dead_run fuel a net c p1 p2 s1 s2 l1 l2 l3).
  - cbn [forgotten with_lock with_peers peer_list peers].
    destruct (decide (p1 = pid)) as [->|?];
      [by rewrite DictFacts.get_del_eq|].
    rewrite DictFacts.get_del_ne by done.
    destruct (decide (p2 = pid)) as [->|?];
      [by rewrite DictFacts.get_del_eq|].
    by rewrite DictFacts.get_del_ne.
Qed.

Lemma register_peer_fails_with_two_dead_witness :
  ∃ c',
    serve 3 (host 3) (register_peer_call 7 (host 7)) two_dead_net
      = Raise (upd two_dead_net (host 3) c') (KeyError 5) ∧
    Dict.get (peers (peer_list c')) 7 = None.
Proof.
  apply (register_peer_fails_with_two_dead 0 (host 3) two_dead_net ring_holder
           1 5 (mkStub (host 1)) (mkStub (host 5)) [] [2] []); try done.
  - apply (bool_decide_unpack _). by vm_compute.
  - intros q stub Hq. unfold ring_holder. cbn [peer_list peers Dict.get].
    repeat case_decide; try done; try (by intros [= <-]);
      subst; destruct Hq; rewrite !elem_of_cons; tauto.
Defined.





(** ** Probing one peer *)

(** [check_alive(pID)] raises [KeyError] for an id that is not registered,
    does nothing for a peer that runs, and unregisters a peer that is dead
    (here: the only dead one). *)
Theorem check_alive_cases fuel a net c pID :
  Dict.get (procs net) a = Some c →
  match Dict.get (peers (peer_list c)) pID with
  | None =>
      PeerList.check_alive (owner_unregister_peer (S fuel)) a pID net
      = Raise net (KeyError pID)
  | Some stub =>
      if Dict.mem (stub_address stub) (procs net)
      then PeerList.check_alive (owner_unregister_peer (S fuel)) a pID net
           = Return net tt
      else alive_but net (peers (peer_list c)) [pID] →
           PeerList.check_alive (owner_unregister_peer (S fuel)) a pID net
           = Return (upd net a (forgotten c pID)) tt
  end.
Proof.
  intros Hc. unfold PeerList.check_alive, PeerList.get_peer.
  destruct (Dict.get (peers (peer_list c)) pID) as [stub|] eqn:Hp.
  - destruct (Dict.mem (stub_address stub) (procs net)) eqn:Halive.
    + mrun Hc. rewrite Hp. mrun Hc. unfold PeerList.checkLiveness.
      by rewrite Halive.
    + intros Hothers. mrun Hc. rewrite Hp. mrun Hc.
      unfold PeerList.checkLiveness. rewrite Halive.
      change (owner_unregister_peer (S fuel) a pID net)
        with (Client.unregister_peer (owner_unregister_peer fuel) a pID net).
      by apply (Client_unregister_peer_run _ a net c Hc pID stub).
  - mrun Hc. rewrite Hp. by mrun Hc.
Qed.

Lemma check_alive_cases_witness :
  PeerList.check_alive (owner_unregister_peer 1) (host 3) 7 dead_target_net
    = Raise dead_target_net (KeyError 7) ∧
  PeerList.check_alive (owner_unregister_peer 1) (host 3) 2 dead_target_net
    = Return dead_target_net tt ∧
  PeerList.check_alive (owner_unregister_peer 1) (host 3) 5 dead_target_net
    = Return (upd dead_target_net (host 3) (forgotten ring_holder 5)) tt.
Proof.
  split; [|split].
  - exact (check_alive_cases 0 (host 3) dead_target_net ring_holder 7 eq_refl).
  - exact (check_alive_cases 0 (host 3) dead_target_net ring_holder 2 eq_refl).
  - apply (check_alive_cases 0 (host 3) dead_target_net ring_holder 5 eq_refl).
    intros q stub Hq. unfold ring_holder. cbn [peer_list peers Dict.get].
    repeat case_decide; try done; try (by intros [= <-]).
    subst. destruct Hq. constructor.
Defined.

(** ** What a peer shows *)




Lemma insert_by_count_Permutation (kv : Z * Z) l :
  Counter.insert_by_count kv l ≡ₚ kv :: l.
Proof.
  induction l as [|kv' l IH]; [done|]. cbn [Counter.insert_by_count].
  case_decide; [done|]. rewrite IH. apply Permutation_swap.
Qed.

Lemma insert_by_count_HdRel (kv x : Z * Z) l :
  by_count x kv → HdRel by_count x l →
  HdRel by_count x (Counter.insert_by_count kv l).
Proof.
  intros Hkv Hl. destruct l as [|kv' l]; cbn [Counter.insert_by_count].
  - by constructor.
  - case_decide; constructor; [done|]. by inversion Hl.
Qed.

Lemma insert_by_count_Sorted (kv : Z * Z) l :
  Sorted by_count l → Sorted by_count (Counter.insert_by_count kv l).
Proof.
  induction 1 as [|kv' l Hl IH Hhd]; cbn [Counter.insert_by_count].
  - by repeat constructor.
  - case_decide as Hlt.
    + constructor; [by constructor|]. constructor. unfold by_count. lia.
    + constructor; [done|]. apply insert_by_count_HdRel; [|done].
      unfold by_count. lia.
Qed.

Lemma Sorted_by_count_below (x : Z * Z) l y :
  Sorted by_count (x :: l) → y ∈ x :: l → y.2 ≤ x.2.
Proof.
  intros Hs. apply Sorted_StronglySorted in Hs.
  2: { intros a b c. unfold by_count. lia. }
  inversion Hs as [|? ? _ Hall]; subst.
  intros [->|Hin]%elem_of_cons; [done|].
  exact (Forall_elem_of _ _ _ Hall Hin).
Qed.

Lemma filter_none {A} (P : A → Prop) `{!∀ x, Decision (P x)} (l : list A) :
  Forall (λ x, ¬ P x) l → filter P l = [].
Proof. induction 1; [done|]. by rewrite filter_cons, decide_False. Qed.

(** Stability: the items of one count stay in their order, and a new one
    goes behind them. *)
Lemma insert_by_count_filter (n : Z) (kv : Z * Z) l :
  Sorted by_count l →
  filter (λ x, x.2 = n) (Counter.insert_by_count kv l) =
  filter (λ x, x.2 = n) l ++ (if decide (kv.2 = n) then [kv] else []).
Proof.
  induction l as [|kv' l IH]; intros Hs; cbn [Counter.insert_by_count].
  { rewrite filter_cons. by case_decide. }
  destruct (decide (kv'.2 < kv.2)) as [Hlt|Hlt].
  - rewrite (filter_cons _ kv). case_decide as Hn; [|by rewrite app_nil_r].
    assert (Hnone : filter (λ x : Z * Z, x.2 = n) (kv' :: l) = []).
    { apply filter_none, list.Forall_forall. intros y Hy.
      pose proof (Sorted_by_count_below kv' l y Hs Hy). lia. }
    by rewrite Hnone.
  - rewrite !(filter_cons _ kv'). inversion Hs; subst.
    rewrite IH by done. by destruct (decide (kv'.2 = n)).
Qed.

Lemma most_common_snoc (c : list (Z * Z)) kv :
  Counter.most_common (c ++ [kv])
  = Counter.insert_by_count kv (Counter.most_common c).
Proof. unfold Counter.most_common, Dict.items. by rewrite foldl_app. Qed.

Lemma most_common_sorted (c : list (Z * Z)) :
  Sorted by_count (Counter.most_common c) ∧
  Counter.most_common c ≡ₚ c ∧
  ∀ n, filter (λ x, x.2 = n) (Counter.most_common c)
       = filter (λ x, x.2 = n) c.
Proof.
  induction c as [|kv c IH] using rev_ind.
  { by repeat split. }
  destruct IH as (Hs & Hp & Hf). rewrite most_common_snoc. split; [|split].
  - by apply insert_by_count_Sorted.
  - rewrite insert_by_count_Permutation, Hp. apply Permutation_cons_append.
  - intros n. rewrite insert_by_count_filter, Hf, filter_app by done.
    done.
Qed.

(** [display_status] waits when the [localLock] is taken; otherwise it
    changes nothing and shows exactly one of the three state flags, the
    clock, and the request table and the token as [Counter] prints them:
    every item once, by descending count, items of equal count in insertion
    order. *)
Theorem display_status_cases a net c :
  Dict.get (procs net) a = Some c →
  if localLock (distributed_lock c)
  then DistributedLock.display_status a net = Blocked net
  else
    ∃ st,
      DistributedLock.display_status a net = Return net st ∧
      (DistributedLock.no_token st, DistributedLock.token_present st,
       DistributedLock.token_held st) =
        match state (distributed_lock c) with
        | NO_TOKEN => (true, false, false)
        | TOKEN_PRESENT => (false, true, false)
        | TOKEN_HELD => (false, false, true)
        end ∧
      DistributedLock.shown_time st = time (distributed_lock c) ∧
      ∀ shown table,
        (shown, table) = (DistributedLock.shown_request st,
                          request (distributed_lock c)) ∨
        (shown, table) = (DistributedLock.shown_token st,
                          token (distributed_lock c)) →
        Sorted by_count shown ∧ shown ≡ₚ table ∧
        ∀ n, filter (λ x, x.2 = n) shown = filter (λ x, x.2 = n) table.
Proof.
  intros Hc. unfold DistributedLock.display_status.
  destruct (localLock (distributed_lock c)) eqn:Hl.
  - mrun Hc. by rewrite Hl.
  - mrun Hc. rewrite Hl. mrun Hc. eexists. split; [|split; [|split]].
    + rewrite upd_same; [reflexivity|]. rewrite Hc. f_equal.
      destruct c as [? ? ? []]. simpl in *. by subst.
    + cbn. by destruct (state (distributed_lock c)).
    + done.
    + cbn [DistributedLock.shown_request DistributedLock.shown_token].
      intros shown table [[= -> ->]|[= -> ->]]; apply most_common_sorted.
Qed.

Lemma display_status_cases_witness :
  DistributedLock.display_status (host 3)
    (upd ring_net (host 3) (handing_over ring_holder))
  = Blocked (upd ring_net (host 3) (handing_over ring_holder)) ∧
  DistributedLock.shown_token
    <$> (match DistributedLock.display_status (host 3) racing_net with
         | Return _ st => Some st
         | _ => None
         end)
  = Some [(3, 4); (5, 1); (2, 1)] ∧
  Counter.most_common [(1, 2); (3, 6); (5, 6)] = [(3, 6); (5, 6); (1, 2)].
Proof.
  split; [|split; by vm_compute].
  exact (display_status_cases (host 3)
           (upd ring_net (host 3) (handing_over ring_holder))
           (handing_over ring_holder) eq_refl).
Defined.

(** The prompt names the state of a running peer: [displayState] changes
    nothing, never shows the text of its last branch, and shows different
    names for different states ([TOKEN_HELD] reads "TOKEN_WITHHELD"). *)
Theorem displayState_names a net c :
  Dict.get (procs net) a = Some c →
  ∃ name,
    MutexPeer.displayState a net = Return net name ∧
    name ≠ "BUT WHERE'S THE CAVEMAN? (SOMETHING WENT WRONG)"%string ∧
    (name = "TOKEN_WITHHELD"%string ↔ state (distributed_lock c) = TOKEN_HELD) ∧
    ∀ b net' c' name',
      Dict.get (procs net') b = Some c' →
      MutexPeer.displayState b net' = Return net' name' →
      name' = name → state (distributed_lock c') = state (distributed_lock c).
Proof.
  intros Hc.
  assert (Hrun : ∀ b n cb, Dict.get (procs n) b = Some cb →
    MutexPeer.displayState b n =
    Return n match state (distributed_lock cb) with
             | NO_TOKEN => "NO_TOKEN"
             | TOKEN_PRESENT => "TOKEN_PRESENT"
             | TOKEN_HELD => "TOKEN_WITHHELD"
             end%string).
  { intros b n cb Hb. unfold MutexPeer.displayState, DistributedLock.get_state.
    mrun Hb. by destruct (state (distributed_lock cb)). }
  eexists. split; [by apply Hrun|].
  split; [by destruct (state (distributed_lock c))|].
  split; [by destruct (state (distributed_lock c))|].
  intros b net' c' name' Hb. rewrite (Hrun b net' c' Hb). intros [= <-].
  by destruct (state (distributed_lock c')), (state (distributed_lock c)).
Qed.

Lemma displayState_names_witness :
  MutexPeer.displayState (host 2) two_peers_handed
    = Return two_peers_handed "TOKEN_WITHHELD"%string ∧
  ∃ name,
    MutexPeer.displayState (host 1) two_peers_handed
      = Return two_peers_handed name ∧
    name ≠ "BUT WHERE'S THE CAVEMAN? (SOMETHING WENT WRONG)"%string.
Proof.
  split; [by vm_compute|].
  destruct (displayState_names (host 1) two_peers_handed
              (mkClient 1 (host 1) (mkPeerList [(2, mkStub (host 2))])
                 (mkLock 0 NO_TOKEN false [] [(2, 1)])))
    as (name & Hrun & Hne & _).
  - by vm_compute.
  - by exists name.
Defined.

(** ** The command loop *)

Lemma invariant_try_except P {A} (m : M A) (h : exn → M A) :
  invariant P m → (∀ e, invariant P (h e)) → invariant P (try_except m h).
Proof.
  intros Hm Hh net HP net'. unfold try_except.
  destruct (m net) as [net1 x|net1 e|net1|] eqn:E; simpl; try done.
  - intros [= <-]. by apply (Hm net HP); rewrite E.
  - apply Hh. by apply (Hm net HP); rewrite E.
  - intros [= <-]. by apply (Hm net HP); rewrite E.
Qed.

Lemma display_lines_read ps pids : preserves eq (PeerList.display_lines ps pids).
Proof.
  induction pids as [|pid pids IH]; cbn [PeerList.display_lines];
    preserve_with ltac:(exact IH).
Qed.

Lemma display_peers_read a : preserves eq (PeerList.display_peers a).
Proof.
  unfold PeerList.display_peers.
  preserve_with ltac:(apply display_lines_read).
Qed.

Lemma displayState_read a : preserves eq (MutexPeer.displayState a).
Proof.
  unfold MutexPeer.displayState, DistributedLock.get_state.
  preserve_with fail.
Qed.

Lemma display_status_state_frame a :
  preserves state_frame (DistributedLock.display_status a).
Proof.
  unfold DistributedLock.display_status, DistributedLock.localLock_acquire,
    DistributedLock.localLock_release, assign.
  preserve_with ltac:(by apply state_modify).
Qed.

Lemma display_status_alive a :
  preserves alive_frame (DistributedLock.display_status a).
Proof.
  unfold DistributedLock.display_status, DistributedLock.localLock_acquire,
    DistributedLock.localLock_release, assign.
  preserve_with ltac:(apply alive_modify).
Qed.

Lemma command_round_keeps_one fuel a input :
  invariant at_most_one (MutexPeer.command_round fuel a input).
Proof.
  unfold MutexPeer.command_round.
  apply invariant_try_except; [|intros; apply invariant_ret].
  apply invariant_bind; [apply invariant_read, displayState_read|].
  intros _. destruct input as [command|]; [|apply invariant_ret].
  apply invariant_bind; [|intros; apply invariant_ret].
  repeat case_decide.
  - apply invariant_bind; [|intros; apply invariant_ret].
    apply invariant_read, display_peers_read.
  - apply invariant_bind; [|intros; apply invariant_ret].
    apply invariant_state_frame, display_status_state_frame.
  - apply acquire_mutex.
  - apply release_keeps_one.
  - apply invariant_ret.
Qed.

Lemma command_round_alive fuel a input :
  preserves alive_frame (MutexPeer.command_round fuel a input).
Proof.
  assert (Hread : ∀ A (m : M A), preserves eq m → preserves alive_frame m).
  { intros A m. apply preserves_weaken. by intros net net' ->. }
  unfold MutexPeer.command_round.
  apply preserves_try_except; try typeclasses eauto;
    [|intros; apply preserves_ret; typeclasses eauto].
  apply preserves_bind; try typeclasses eauto;
    [apply Hread, displayState_read|].
  intros _. destruct input as [command|];
    [|apply preserves_ret; typeclasses eauto].
  apply preserves_bind; try typeclasses eauto;
    [|intros; apply preserves_ret; typeclasses eauto].
  repeat case_decide.
  - apply preserves_bind; try typeclasses eauto;
      [|intros; apply preserves_ret; typeclasses eauto].
    apply Hread, display_peers_read.
  - apply preserves_bind; try typeclasses eauto;
      [|intros; apply preserves_ret; typeclasses eauto].
    apply display_status_alive.
  - apply acquire_alive. apply remote_alive.
  - apply release_alive. apply remote_alive.
  - apply preserves_ret; typeclasses eauto.
Qed.

Lemma command_round_no_raise fuel a input net net' e :
  MutexPeer.command_round fuel a input net ≠ Raise net' e.
Proof.
  unfold MutexPeer.command_round, try_except.
  match goal with
  | |- match ?o with _ => _ end ≠ _ => by destruct o as [? []| | |]
  end.
Qed.

Lemma command_round_interrupt fuel a net :
  is_Some (Dict.get (procs net) a) →
  MutexPeer.command_round fuel a MutexPeer.Interrupt net = Return net true.
Proof.
  intros [c Hc].
  unfold MutexPeer.command_round, MutexPeer.displayState,
    DistributedLock.get_state, try_except.
  mrun Hc. by repeat case_decide.
Qed.

Lemma command_round_line fuel a command net net' :
  MutexPeer.command_round fuel a (MutexPeer.Line command) net
  ≠ Return net' true.
Proof.
  unfold MutexPeer.command_round, try_except, mbind, M_bind, mret, M_ret.
  destruct (MutexPeer.displayState a net) as [n1 cursor|n1 e|n1|]; try done.
  match goal with
  | |- match (match ?o with _ => _ end) with _ => _ end ≠ _ =>
      by destruct o as [? []| | |]
  end.
Qed.

(** Whatever arrives at the terminal of a running peer, no exception leaves
    the command loop, and the commands keep mutual exclusion: if at most one
    process had the token before, at most one has it when the loop ends or
    waits, be it for input or inside a command.  The loop ends only at [q]
    or at Ctrl-C, and with a Ctrl-C among the inputs it does not wait for
    ever.  (Ctrl-C reaches the main thread at the prompt or where a command
    waits.) *)
Theorem command_loop_ends fuel a inputs : ∀ net,
  at_most_one net →
  is_Some (Dict.get (procs net) a) →
  match MutexPeer.command_loop fuel a inputs net with
  | Return net' _ =>
      at_most_one net' ∧
      (MutexPeer.Line "q" ∈ inputs ∨ MutexPeer.Interrupt ∈ inputs)
  | Blocked net' => at_most_one net' ∧ MutexPeer.Interrupt ∉ inputs
  | Raise _ _ => False
  | OutOfFuel => True
  end.
Proof.
  induction inputs as [|input inputs IH]; intros net H1 Ha.
  { split; [done|]. apply not_elem_of_nil. }
  cbn [MutexPeer.command_loop].
  pose proof (command_round_keeps_one fuel a input net H1) as Hinv.
  pose proof (command_round_alive fuel a input net) as Halive.
  pose proof (command_round_no_raise fuel a input net) as Hraise.
  assert (Hint : input = MutexPeer.Interrupt →
            MutexPeer.command_round fuel a input net = Return net true).
  { intros ->. by apply command_round_interrupt. }
  destruct (MutexPeer.command_round fuel a input net)
    as [net1 broke|net1 e|net1|] eqn:E; try done.
  - specialize (Hinv net1 eq_refl).
    destruct (Halive net1 eq_refl) as [_ Hsame].
    destruct broke.
    + split; [done|]. right. destruct input as [command|]; [|constructor].
      by destruct (command_round_line fuel a command net net1 E).
    + case_decide as Hq.
      * split; [done|]. left. subst. constructor.
      * assert (Ha1 : is_Some (Dict.get (procs net1) a)) by by apply Hsame.
        specialize (IH net1 Hinv Ha1).
        assert (input ≠ MutexPeer.Interrupt) by (intros Ei; by specialize (Hint Ei)).
        destruct (MutexPeer.command_loop fuel a inputs net1); try done.
        -- destruct IH as [? [?|?]]; (split; [done|]);
             [left|right]; by constructor.
        -- destruct IH as [? Hno]. split; [done|].
           by apply not_elem_of_cons.
  - by destruct (Hraise net1 e).
  - specialize (Hinv net1 eq_refl).
    assert (input ≠ MutexPeer.Interrupt) by (intros Ei; by specialize (Hint Ei)).
    case_bool_decide as Hi.
    + split; [done|]. right. by constructor.
    + split; [done|]. by apply not_elem_of_cons.
Qed.

Lemma command_loop_ends_witness :
  MutexPeer.command_loop 5 (host 1)
    (MutexPeer.Line <$> ["s"; "a"; "l"; "r"; "q"]%string) one_peer
  = Return one_peer tt ∧
  MutexPeer.command_loop 5 (host 1)
    [MutexPeer.Line "a"%string; MutexPeer.Line "q"%string] two_peers_handed
  = Blocked two_peers_waiting ∧
  MutexPeer.command_loop 5 (host 1)
    [MutexPeer.Line "a"%string; MutexPeer.Line "q"%string; MutexPeer.Interrupt]
    two_peers_handed
  = Return two_peers_waiting tt ∧
  at_most_one two_peers_waiting.
Proof.
  split; [by vm_compute|]. split; [by vm_compute|].
  assert (Hrun : MutexPeer.command_loop 5 (host 1)
            [MutexPeer.Line "a"%string; MutexPeer.Line "q"%string;
             MutexPeer.Interrupt] two_peers_handed
          = Return two_peers_waiting tt) by by vm_compute.
  split; [done|].
  assert (H1 : at_most_one two_peers_handed).
  { intros x y cx cy. unfold two_peers_handed. cbn [procs Dict.get].
    repeat case_decide; try done; intros [= <-] [= <-]; try done; congruence. }
  assert (Ha : is_Some (Dict.get (procs two_peers_handed) (host 1)))
    by by eexists.
  pose proof (command_loop_ends 5 (host 1)
                [MutexPeer.Line "a"%string; MutexPeer.Line "q"%string;
                 MutexPeer.Interrupt] two_peers_handed H1 Ha) as H.
  rewrite Hrun in H. by destruct H.
Defined.

(** ** A request at an idle holder *)

Lemma hand_over_run fuel b net cb t pid stub ca :
  Dict.get (procs net) b = Some cb →
  state (distributed_lock cb) = TOKEN_PRESENT →
  localLock (distributed_lock cb) = false →
  chosen cb = None →
  pid ≠ id cb →
  Counter.get (token (distributed_lock cb)) pid < t →
  Dict.get (peers (peer_list cb)) pid = Some stub →
  stub_address stub ≠ b →
  Dict.get (procs net) (stub_address stub) = Some ca →
  Counter.get (token (distributed_lock cb)) (id ca)
    < Counter.get (request (distributed_lock ca)) (id ca) →
  0 < Counter.get (request (distributed_lock ca)) (id ca) →
  let payload :=
    DistributedLock.cleaned (id cb) (peers (peer_list cb))
      (token (distributed_lock cb)) in
  ∃ net',
    request_token (S fuel) b t pid net = Return net' tt ∧
    sent net' =
      sent net ++ [mkMessage b (stub_address stub) (obtain_token_call payload)] ∧
    Dict.get (procs net') b
      = Some (relock (merged cb t pid) NO_TOKEN false payload) ∧
    Dict.get (procs net') (stub_address stub) = Some (adopted ca payload) ∧
    ∀ x, x ≠ b → x ≠ stub_address stub →
         Dict.get (procs net') x = Dict.get (procs net) x.
Proof.
  intros Hb Hs Hl Hnone Hne Ht Hp Hab Ha Hwant Hpos payload.
  set (a := stub_address stub) in *.
  set (cm := merged cb t pid).
  assert (Hcm : Dict.get (procs (upd net b cm)) b = Some cm)
    by apply get_upd_eq.
  assert (Hchosen : chosen cm = Some pid) by by apply chosen_merged.
  assert (Hwants : DistributedLock.wants (request (distributed_lock cm))
                     (token (distributed_lock cb)) pid = true).
  { apply wants_true. cbn [cm merged with_lock distributed_lock set_request
      request]. unfold Counter.get in Ht |- *. rewrite DictFacts.get_set_eq.
    unfold default, from_option, Datatypes.id in *. lia. }
  unfold request_token.
  rewrite (request_token_unfold (remote (S fuel)) b net cb Hb).
  fold cm. rewrite Hwants, bool_decide_eq_true_2 by done. cbn [andb].
  rewrite (_check_token_send (remote (S fuel)) b _ cm Hcm pid stub);
    [|by cbn; rewrite Hs|done|done|done].
  rewrite upd_upd. fold a.
  change (token (distributed_lock (handing_over cm))) with payload.
  unfold remote, rpc. cbn [procs sent name_service upd]. unfold Dict.mem.
  fold a. rewrite DictFacts.get_set_ne, Ha by done.
  change (serve (S fuel) a (obtain_token_call payload))
    with (DistributedLock.obtain_token (remote fuel) a payload).
  set (net2 := mkNetwork _ _ _).
  assert (Ha2 : Dict.get (procs net2) a = Some ca).
  { unfold net2. cbn [procs]. by rewrite DictFacts.get_set_ne. }
  assert (Hb2 : Dict.get (procs net2) b = Some (handing_over cm)).
  { unfold net2. cbn [procs]. by rewrite DictFacts.get_set_eq. }
  rewrite (obtain_token_unfold (remote fuel) a net2 ca Ha2).
  rewrite decide_True.
  2: { unfold payload. rewrite get_cleaned. case_decide; lia. }
  cbn [after_send]. unfold DistributedLock.localLock_release.
  assert (Hb3 : Dict.get (procs (upd net2 a (adopted ca payload))) b
                = Some (handing_over cm)).
  { by rewrite get_upd_ne. }
  mrun Hb3. cbn [void]. eexists. split; [reflexivity|].
  split; [done|]. split; [by rewrite get_upd_eq|]. split.
  - by rewrite get_upd_ne, get_upd_eq.
  - intros x Hxb Hxa. rewrite !get_upd_ne by done. unfold net2.
    cbn [procs]. by rewrite DictFacts.get_set_ne.
Qed.

(** [request_token] served at a holder that has the token unused, with no
    other request open, hands the token to the requester at once: when the
    requester runs and is waiting for it, the call returns with the holder
    in [NO_TOKEN] and the requester in [TOKEN_HELD], the requester's own
    entry of the token set to its clock, after one [obtain_token] message
    with the purged token. *)
Theorem request_token_hands_over fuel b net cb t pid stub ca :
  Dict.get (procs net) b = Some cb →
  state (distributed_lock cb) = TOKEN_PRESENT →
  localLock (distributed_lock cb) = false →
  chosen cb = None →
  pid ≠ id cb →
  Counter.get (token (distributed_lock cb)) pid < t →
  Dict.get (peers (peer_list cb)) pid = Some stub →
  stub_address stub ≠ b →
  Dict.get (procs net) (stub_address stub) = Some ca →
  Counter.get (token (distributed_lock cb)) (id ca)
    < Counter.get (request (distributed_lock ca)) (id ca) →
  0 < Counter.get (request (distributed_lock ca)) (id ca) →
  let payload :=
    DistributedLock.cleaned (id cb) (peers (peer_list cb))
      (token (distributed_lock cb)) in
  ∃ net',
    request_token (S fuel) b t pid net = Return net' tt ∧
    sent net' =
      sent net ++ [mkMessage b (stub_address stub) (obtain_token_call payload)] ∧
    Dict.get (procs net') b
      = Some (relock (merged cb t pid) NO_TOKEN false payload) ∧
    Dict.get (procs net') (stub_address stub) = Some (adopted ca payload) ∧
    ∀ x, x ≠ b → x ≠ stub_address stub →
         Dict.get (procs net') x = Dict.get (procs net) x.
Proof.
  intros Hb Hs Hl Hnone Hne Ht Hp Hab Ha Hwant Hpos.
  by apply hand_over_run.
Qed.

Lemma request_token_hands_over_witness :
  ∃ net',
    request_token 1 (host 1) 1 2
      (upd two_peers (host 2)
         (mkClient 2 (host 2) (mkPeerList [(1, mkStub (host 1))])
            (mkLock 1 NO_TOKEN false [] [(2, 1)])))
      = Return net' tt ∧
    state_at net' (host 1) = Some NO_TOKEN ∧
    state_at net' (host 2) = Some TOKEN_HELD.
Proof.
  destruct (request_token_hands_over 0 (host 1)
              (upd two_peers (host 2)
                 (mkClient 2 (host 2) (mkPeerList [(1, mkStub (host 1))])
                    (mkLock 1 NO_TOKEN false [] [(2, 1)])))
              (mkClient 1 (host 1) (mkPeerList [(2, mkStub (host 2))])
                 (mkLock 0 TOKEN_PRESENT false [] []))
              1 2 (mkStub (host 2))
              (mkClient 2 (host 2) (mkPeerList [(1, mkStub (host 1))])
                 (mkLock 1 NO_TOKEN false [] [(2, 1)])))
    as (net' & Hrun & _ & Hb & Ha & _); try by vm_compute.
  cbn [stub_address] in Ha.
  exists net'. split; [done|]. unfold state_at. by rewrite Hb, Ha.
Defined.

(** ** The broadcast of [acquire] *)

(** The broadcast over peers that run and have no token to give: each one
    records the request and returns. *)
Lemma broadcast_idle fuel a ca l : ∀ net,
  Dict.get (procs net) a = Some ca →
  (∀ s, s ∈ l →
     stub_address s ≠ a ∧
     ∃ c, Dict.get (procs net) (stub_address s) = Some c ∧
          state (distributed_lock c) ≠ TOKEN_PRESENT) →
  ∃ net',
    for_each l (ask (S fuel) a) net = Return net' tt ∧
    Dict.get (procs net') a = Some ca ∧
    (∀ x, state_at net' x = state_at net x) ∧
    (∀ x, (∀ s, s ∈ l → stub_address s ≠ x) →
          Dict.get (procs net') x = Dict.get (procs net) x).
Proof.
  induction l as [|s l IH]; intros net Ha Hl.
  { exists net. by repeat split. }
  destruct (Hl s) as (Hsa & c & Hc & Hstate); [constructor|].
  cbn [for_each]. unfold mbind at 1, M_bind at 1. unfold ask at 1. mrun Ha.
  unfold remote at 1, rpc. unfold Dict.mem. cbn [procs]. rewrite Hc.
  set (t := time (distributed_lock ca)). set (pid := id ca).
  set (m := mkMessage a (stub_address s) (request_token_call t pid)).
  fold (wire net m).
  change (serve (S fuel) (stub_address s) (request_token_call t pid))
    with (DistributedLock.request_token (remote fuel) (stub_address s) t pid).
  rewrite (request_token_unfold (remote fuel) _ (wire net m) c Hc).
  rewrite bool_decide_eq_false_2 by done. cbn [andb].
  set (net1 := upd (wire net m) (stub_address s) (merged c t pid)).
  assert (Hget1 : ∀ x, x ≠ stub_address s →
            Dict.get (procs net1) x = Dict.get (procs net) x).
  { intros x Hx. unfold net1. by rewrite get_upd_ne. }
  assert (Hstate1 : ∀ x, state_at net1 x = state_at net x).
  { intros x. unfold state_at, net1. rewrite get_upd.
    case_decide as Hx; [|done]. subst x. cbn [wire procs]. by rewrite Hc. }
  destruct (IH net1) as (net' & Hrun & Ha' & Hst & Hget).
  { by rewrite Hget1. }
  { intros s' Hs'. destruct (Hl s') as (Hs'a & c' & Hc' & Hstate');
      [by constructor|]. split; [done|].
    pose proof (Hstate1 (stub_address s')) as Heq. unfold state_at in Heq.
    rewrite Hc' in Heq.
    destruct (Dict.get (procs net1) (stub_address s')) as [c1|]; [|done].
    exists c1. split; [done|]. cbn in Heq. by injection Heq as ->. }
  exists net'. split; [done|]. split; [done|]. split.
  - intros x. by rewrite Hst.
  - intros x Hx. rewrite Hget, Hget1; [done|..].
    + intros Heq. apply (Hx s); [constructor|done].
    + intros s' Hs'. apply Hx. by constructor.
Qed.

(** [acquire] at a peer without the token, in a network where the token
    lies unused at one of its peers, no request is open there, and every
    other peer it asks runs and has no token: the call returns with the
    caller in [TOKEN_HELD] and the former holder in [NO_TOKEN], and no other
    process changes state. *)
Theorem acquire_from_idle_holder fuel a b net ca cb sa sb before after :
  Dict.get (procs net) a = Some ca →
  state (distributed_lock ca) = NO_TOKEN →
  Dict.values (peers (peer_list ca)) = before ++ sb :: after →
  stub_address sb = b →
  (∀ s, s ∈ before ++ after →
     stub_address s ≠ a ∧
     ∃ c, Dict.get (procs net) (stub_address s) = Some c ∧
          state (distributed_lock c) = NO_TOKEN) →
  a ≠ b →
  Dict.get (procs net) b = Some cb →
  state (distributed_lock cb) = TOKEN_PRESENT →
  localLock (distributed_lock cb) = false →
  chosen cb = None →
  id ca ≠ id cb →
  Dict.get (peers (peer_list cb)) (id ca) = Some sa →
  stub_address sa = a →
  Counter.get (token (distributed_lock cb)) (id ca)
    < time (distributed_lock ca) + 1 →
  0 < time (distributed_lock ca) + 1 →
  ∃ net',
    acquire (S (S fuel)) a net = Return net' tt ∧
    state_at net' a = Some TOKEN_HELD ∧
    state_at net' b = Some NO_TOKEN ∧
    ∀ x, x ≠ a → x ≠ b → state_at net' x = state_at net x.
Proof.
  intros Ha Hsa Hvals Hsb Hidle Hab Hb Hsb' Hlb Hnone Hid Hpa Hsa' Htok Hpos.
  unfold acquire, DistributedLock.acquire.
  match goal with
  | |- context [for_each _ ?f] => change f with (ask (S (S fuel)) a)
  end.
  mrun Ha. rewrite Hsa. mrun Ha. rewrite Hvals.
  set (t := time (distributed_lock ca) + 1).
  match goal with |- context [upd net a ?x] => set (ca1 := x) end.
  set (net0 := upd net a ca1).
  assert (Ha0 : Dict.get (procs net0) a = Some ca1) by apply get_upd_eq.
  assert (Hget0 : ∀ x, x ≠ a → Dict.get (procs net0) x = Dict.get (procs net) x).
  { intros x Hx. unfold net0. by rewrite get_upd_ne. }
  assert (Hidle0 : ∀ s, s ∈ before ++ after →
     stub_address s ≠ a ∧ stub_address s ≠ b ∧
     ∃ c, Dict.get (procs net0) (stub_address s) = Some c ∧
          state (distributed_lock c) = NO_TOKEN).
  { intros s Hs. destruct (Hidle s Hs) as (Hne & c & Hc & Hst).
    split; [done|]. split.
    - intros Heq. rewrite Heq, Hb in Hc. injection Hc as <-. congruence.
    - exists c. by rewrite Hget0. }
  (* the peers asked before the holder *)
  rewrite for_each_app. unfold mbind at 1, M_bind at 1.
  destruct (broadcast_idle (S fuel) a ca1 before net0 Ha0)
    as (net1 & Hrun1 & Ha1 & Hst1 & Hget1).
  { intros s Hs. destruct (Hidle0 s) as (? & ? & c & Hc & Hst).
    - rewrite elem_of_app. by left.
    - split; [done|]. exists c. split; [done|]. by rewrite Hst. }
  rewrite Hrun1.
  assert (Hb1 : Dict.get (procs net1) b = Some cb).
  { rewrite Hget1.
    - by rewrite Hget0.
    - intros s Hs. destruct (Hidle0 s) as (? & ? & _); [|done].
      rewrite elem_of_app. by left. }
  (* the holder *)
  cbn [for_each]. unfold mbind at 1, M_bind at 1.
  unfold ask at 1. mrun Ha1.
  unfold remote at 1, rpc. unfold Dict.mem. cbn [procs]. rewrite Hsb, Hb1.
  cbn [ca1 id distributed_lock time].
  set (m := mkMessage a b (request_token_call t (id ca))).
  fold (wire net1 m).
  change (serve (S (S fuel)) b (request_token_call t (id ca)))
    with (request_token (S fuel) b t (id ca)).
  destruct (hand_over_run fuel b (wire net1 m) cb t (id ca) sa ca1)
    as (net2 & Hrun2 & _ & Hb2 & Ha2 & Hget2); try done.
  { by rewrite Hsa'. }
  { by rewrite Hsa'. }
  { cbn [ca1 id distributed_lock request]. unfold Counter.get at 2.
    rewrite DictFacts.get_set_eq. done. }
  { cbn [ca1 id distributed_lock request]. unfold Counter.get.
    rewrite DictFacts.get_set_eq. done. }
  rewrite Hsa' in Ha2, Hget2. rewrite Hrun2.
  set (payload := DistributedLock.cleaned (id cb) (peers (peer_list cb))
                    (token (distributed_lock cb))) in *.
  (* the peers asked after the holder *)
  destruct (broadcast_idle (S fuel) a (adopted ca1 payload) after net2 Ha2)
    as (net3 & Hrun3 & Ha3 & Hst3 & Hget3).
  { intros s Hs. destruct (Hidle0 s) as (Hne & Hnb & c & Hc & Hst).
    { rewrite elem_of_app. by right. }
    split; [done|].
    pose proof (Hst1 (stub_address s)) as Heq. unfold state_at in Heq.
    rewrite Hc in Heq. pose proof (Hget2 _ Hnb Hne) as H2.
    cbn [wire procs] in H2. rewrite <- H2 in Heq.
    destruct (Dict.get (procs net2) (stub_address s)) as [c2|]; [|done].
    exists c2. split; [done|]. cbn in Heq. injection Heq as ->.
    by rewrite Hst. }
  rewrite Hrun3. mrun Ha3. rewrite decide_False by done.
  exists net3. split; [done|]. unfold state_at in *. split; [by rewrite Ha3|].
  split.
  - rewrite Hst3, Hb2. done.
  - intros x Hxa Hxb. rewrite Hst3, (Hget2 x Hxb Hxa).
    cbn [wire procs]. rewrite Hst1. by rewrite Hget0.
Qed.

Lemma acquire_from_idle_holder_witness :
  ∃ net',
    acquire 2 (host 3) three_peers = Return net' tt ∧
    state_at net' (host 3) = Some TOKEN_HELD ∧
    state_at net' (host 1) = Some NO_TOKEN.
Proof.
  destruct (acquire_from_idle_holder 0 (host 3) (host 1) three_peers
              (idle_peer 3 [1; 2]) (idle_holder 1 [2; 3])
              (mkStub (host 3)) (mkStub (host 1)) [] [mkStub (host 2)])
    as (net' & Hrun & Ha & Hb & _); try by vm_compute.
  - intros s ->%list_elem_of_singleton. split; [done|].
    exists (idle_peer 2 [1; 3]). by vm_compute.
  - by exists net'.
Defined.

(** ** Joining *)

Lemma alive_but_mem net net' ps dead :
  (∀ x, Dict.mem x (procs net') = Dict.mem x (procs net)) →
  alive_but net ps dead → alive_but net' ps dead.
Proof. intros Hmem H q stub Hq Hs. rewrite Hmem. by eapply H. Qed.

Lemma alive_but_set net ps pid paddr :
  Dict.mem paddr (procs net) = true →
  alive_but net ps [] → alive_but net (Dict.set ps pid (mkStub paddr)) [].
Proof.
  intros Ha H q stub Hq. rewrite DictFacts.get_set. case_decide.
  - by intros [= <-].
  - by apply H.
Qed.

(** The rounds of [PeerList.initialize] over directory entries whose
    processes run and have only live peers: every one is registered, and
    has registered the newcomer. *)
Lemma initialize_loop_symmetric fuel a pid es : ∀ net c,
  NoDup es.*1 → NoDup es.*2 →
  Dict.get (procs net) a = Some c → id c = pid → address c = a →
  (∀ q aq, (q, aq) ∈ es → q ≠ pid →
     aq ≠ a ∧ ∃ cq, Dict.get (procs net) aq = Some cq ∧
                    alive_but net (peers (peer_list cq)) []) →
  ∃ net' c',
    for_each es (registration_step (S fuel) a) net = Return net' tt ∧
    Dict.get (procs net') a = Some c' ∧ id c' = pid ∧ address c' = a ∧
    distributed_lock c' = distributed_lock c ∧
    (∀ q, q ∉ es.*1 ∨ q = pid →
       Dict.get (peers (peer_list c')) q = Dict.get (peers (peer_list c)) q) ∧
    (∀ x, x ≠ a → x ∉ es.*2 →
       Dict.get (procs net') x = Dict.get (procs net) x) ∧
    (∀ x, Dict.mem x (procs net') = Dict.mem x (procs net)) ∧
    ∀ q aq, (q, aq) ∈ es → q ≠ pid →
      Dict.get (peers (peer_list c')) q = Some (mkStub aq) ∧
      ∃ cq', Dict.get (procs net') aq = Some cq' ∧
             Dict.get (peers (peer_list cq')) pid = Some (mkStub a).
Proof.
  induction es as [|[q aq] es IH]; intros net c Hids Haddrs Hc Hid Haddr Hes.
  { exists net, c. split_and!; try done. by intros ?? ?%elem_of_nil. }
  cbn [fmap list_fmap fst snd] in Hids, Haddrs.
  apply NoDup_cons in Hids as [Hq Hids].
  apply NoDup_cons in Haddrs as [Haq Haddrs].
  cbn [for_each]. unfold mbind at 1, M_bind at 1.
  unfold registration_step at 1. mrun Hc.
  destruct (decide (q ≠ id c)) as [Hne|Heq].
  2: { (* the newcomer's own entry *)
    apply dec_stable in Heq. mrun Hc.
    destruct (IH net c Hids Haddrs Hc Hid Haddr)
      as (net' & c' & Hrun & Hc' & Hid' & Haddr' & Hl' & Hpeers & Hothers
          & Hmem & Hsym).
    { intros q' aq' Hin. apply Hes. by constructor. }
    exists net', c'. split_and!; try done.
    - intros q' Hq'. apply Hpeers. rewrite fmap_cons, not_elem_of_cons in Hq'.
      tauto.
    - intros x Hx [? ?]%not_elem_of_cons. by apply Hothers.
    - intros q' aq' [[= -> ->]|Hin]%elem_of_cons Hq'; [congruence|].
      by apply Hsym. }
  destruct (Hes q aq) as (Hqa & cq & Hcq & Hcq_alive);
    [constructor|congruence|].
  unfold PeerList.register_peer. mrun Hc.
  rewrite DictFacts.get_set_eq. mrun Hc.
  match goal with |- context [upd net a ?x] => set (c1 := x) end.
  (* the call to the peer *)
  unfold remote at 1, rpc. unfold Dict.mem. cbn [procs upd stub_address].
  rewrite DictFacts.get_set_ne, Hcq by done.
  set (m := mkMessage a aq (register_peer_call (id c) (address c))).
  fold (upd net a c1). fold (wire (upd net a c1) m).
  set (net1 := wire (upd net a c1) m).
  assert (Hmem1 : ∀ x, Dict.mem x (procs net1) = Dict.mem x (procs net)).
  { intros x. unfold net1. cbn [wire procs]. by apply (mem_upd net a c). }
  assert (Hcq1 : Dict.get (procs net1) aq = Some cq).
  { unfold net1. cbn [wire procs]. by rewrite get_upd_ne. }
  change (serve (S fuel) aq (register_peer_call (id c) (address c)))
    with (Client.register_peer (owner_unregister_peer fuel) aq (id c)
            (address c)).
  rewrite Client_register_peer_unfold. unfold mbind at 1, M_bind at 1.
  rewrite (check_all_alive_loop _ aq net1 cq Hcq1).
  rewrite (sweep_alive _ aq net1 cq _ [] Hcq1); first last.
  { intros x _. apply not_elem_of_nil. }
  { by apply (alive_but_mem net). }
  { done. }
  unfold modify at 1. rewrite Hcq1.
  fold (introduced cq (id c) (address c)).
  set (net2 := upd net1 aq (introduced cq (id c) (address c))).
  assert (Hmem2 : ∀ x, Dict.mem x (procs net2) = Dict.mem x (procs net)).
  { intros x. unfold net2. by rewrite (mem_upd net1 aq cq _ _ Hcq1). }
  assert (Hget2 : ∀ x, x ≠ a → x ≠ aq →
            Dict.get (procs net2) x = Dict.get (procs net) x).
  { intros x Hxa Hxq. unfold net2, net1. rewrite get_upd_ne by done.
    cbn [wire procs]. by rewrite get_upd_ne. }
  assert (Hc2 : Dict.get (procs net2) a = Some c1).
  { unfold net2, net1. rewrite get_upd_ne by done. cbn [wire procs].
    apply get_upd_eq. }
  destruct (IH net2 c1 Hids Haddrs Hc2 Hid Haddr)
    as (net' & c' & Hrun & Hc' & Hid' & Haddr' & Hl' & Hpeers & Hothers
        & Hmem & Hsym).
  { intros q' aq' Hin Hq'. destruct (Hes q' aq') as (Hq'a & cq' & Hcq' & Hal);
      [by constructor|done|]. split; [done|].
    assert (aq' ≠ aq).
    { intros ->. apply Haq. apply list_elem_of_fmap. by exists (q', aq). }
    exists cq'. split; [by rewrite Hget2|]. by apply (alive_but_mem net). }
  exists net', c'. split; [done|]. split; [done|]. split; [done|].
  split; [done|]. split; [done|]. split; [|split; [|split]].
  - intros q' Hq'. rewrite fmap_cons, not_elem_of_cons in Hq'. cbn [fst] in Hq'.
    rewrite Hpeers by tauto. cbn [c1 peer_list peers].
    apply DictFacts.get_set_ne. destruct Hq' as [[? _]| ->]; congruence.
  - intros x Hx [Hx' Hnin]%not_elem_of_cons. rewrite (Hothers x Hx Hnin).
    by apply Hget2.
  - intros x. pose proof (Hmem x) as Hx1. pose proof (Hmem2 x) as Hx2.
    unfold Dict.mem in Hx1, Hx2. by rewrite Hx1.
  - intros q' aq' [[= -> ->]|Hin]%elem_of_cons Hq'; [|by apply Hsym].
    split.
    + rewrite (Hpeers q (or_introl Hq)). cbn [c1 peer_list peers].
      apply DictFacts.get_set_eq.
    + exists (introduced cq (id c) (address c)). split.
      * rewrite (Hothers aq Hqa Haq). apply get_upd_eq.
      * cbn [introduced with_peers peer_list peers]. rewrite Hid, Haddr.
        apply DictFacts.get_set_eq.
Qed.

Lemma dict_empty {K V} `{EqDecision K} (d : dict K V) :
  (∀ k, Dict.get d k = None) → d = [].
Proof.
  destruct d as [|[k v] d]; [done|]. intros H. specialize (H k).
  cbn in H. by rewrite decide_True in H.
Qed.

(** A peer that starts while every process of the directory runs and has
    only live peers joins symmetrically: the constructor returns, the
    newcomer has registered exactly the peers of the directory, each under
    its address, and each of them has registered the newcomer; and the
    newcomer has the token exactly when the directory was empty. *)
Theorem start_symmetric fuel pid a net :
  Dict.get (procs net) a = None →
  pid ∉ (name_service net).*1 →
  a ∉ (name_service net).*2 →
  NoDup (name_service net).*1 →
  NoDup (name_service net).*2 →
  (∀ q aq, (q, aq) ∈ name_service net →
     ∃ cq, Dict.get (procs net) aq = Some cq ∧
           alive_but net (peers (peer_list cq)) []) →
  ∃ net' c',
    start (S fuel) pid a net = Return net' tt ∧
    Dict.get (procs net') a = Some c' ∧
    (∀ q, q ∉ (name_service net).*1 →
       Dict.get (peers (peer_list c')) q = None) ∧
    (∀ q aq, (q, aq) ∈ name_service net →
       Dict.get (peers (peer_list c')) q = Some (mkStub aq) ∧
       ∃ cq', Dict.get (procs net') aq = Some cq' ∧
              Dict.get (peers (peer_list cq')) pid = Some (mkStub a)) ∧
    state (distributed_lock c') =
      if decide (name_service net = []) then TOKEN_PRESENT else NO_TOKEN.
Proof.
  intros Ha Hpid Haddr Hids Haddrs Hrun.
  set (fresh := mkClient pid a PeerList.__init__ DistributedLock.__init__).
  set (net0 := started pid a net).
  assert (Hfresh : Dict.get (procs net0) a = Some fresh).
  { unfold net0. rewrite get_started. by rewrite decide_True. }
  assert (Hmem0 : ∀ x, Dict.mem x (procs net) = true →
                       Dict.mem x (procs net0) = true).
  { intros x. unfold Dict.mem, net0. rewrite get_started. by case_decide. }
  assert (Hne : ∀ q aq, (q, aq) ∈ name_service net → q ≠ pid ∧ aq ≠ a).
  { intros q aq Hin. split; intros ->.
    - apply Hpid. apply list_elem_of_fmap. by exists (pid, aq).
    - apply Haddr. apply list_elem_of_fmap. by exists (q, a). }
  destruct (initialize_loop_symmetric fuel a pid (name_service net0) net0 fresh)
    as (net1 & c1 & Hloop & Hc1 & Hid1 & Haddr1 & Hl1 & Hpeers & _ & _ & Hsym);
    try done.
  { unfold net0. cbn [started name_service]. rewrite fmap_app.
    apply NoDup_app. split_and!; [done| |apply NoDup_singleton].
    by intros q Hq ->%list_elem_of_singleton. }
  { unfold net0. cbn [started name_service]. rewrite fmap_app.
    apply NoDup_app. split_and!; [done| |apply NoDup_singleton].
    by intros q Hq ->%list_elem_of_singleton. }
  { unfold net0 at 1. cbn [started name_service].
    intros q aq [Hin|[[=]|[]%elem_of_nil]%elem_of_cons]%elem_of_app Hq;
      [|done].
    destruct (Hne q aq Hin) as [_ Haq]. split; [done|].
    destruct (Hrun q aq Hin) as (cq & Hcq & Halive). exists cq. split.
    - unfold net0. rewrite get_started. by rewrite decide_False.
    - intros q' stub Hq' Hs. apply Hmem0. by eapply Halive. }
  assert (Hstart : start (S fuel) pid a net =
            DistributedLock.initialize a net1).
  { unfold start, Client.__init__. unfold mbind at 1, M_bind at 1.
    change (Client.Peer_start pid a net) with (Return net0 tt).
    cbv iota beta. unfold mbind at 1, M_bind at 1.
    rewrite PeerList_initialize_loop.
    unfold mbind at 1, M_bind at 1, PeerList.name_service_get_peers.
    by rewrite Hloop. }
  rewrite Hstart, (DistributedLock_initialize_run a net1 c1 Hc1).
  assert (Hnone : ∀ q, q ∉ (name_service net).*1 →
            Dict.get (peers (peer_list c1)) q = None).
  { intros q Hq. rewrite Hpeers; [done|].
    unfold net0. cbn [started name_service]. rewrite fmap_app.
    destruct (decide (q = pid)) as [|Hqp]; [by right|]. left.
    rewrite not_elem_of_app. split; [done|].
    by intros ?%list_elem_of_singleton. }
  assert (Hsome : ∀ q aq, (q, aq) ∈ name_service net →
            Dict.get (peers (peer_list c1)) q = Some (mkStub aq) ∧
            ∃ cq', Dict.get (procs net1) aq = Some cq' ∧
                   Dict.get (peers (peer_list cq')) pid = Some (mkStub a)).
  { intros q aq Hin. apply Hsym; [|by destruct (Hne q aq Hin)].
    unfold net0. cbn [started name_service]. rewrite elem_of_app. by left. }
  destruct (decide (name_service net = [])) as [Hempty|Hnonempty].
  - assert (Hp : peers (peer_list c1) = []).
    { apply dict_empty. intros q. apply Hnone. rewrite Hempty.
      apply not_elem_of_nil. }
    rewrite Hp. cbn [length]. rewrite decide_True by done.
    eexists _, _. split; [reflexivity|]. split; [apply get_upd_eq|].
    cbn [with_lock peer_list distributed_lock set_state state].
    split_and!; try done. intros q aq Hin. rewrite Hempty in Hin.
    by apply elem_of_nil in Hin.
  - destruct (name_service net) as [|[q aq] ns] eqn:Hns; [done|].
    destruct (Hsome q aq) as [Hq _]; [constructor|].
    rewrite decide_False.
    2: { destruct (peers (peer_list c1)); [done|]. by cbn. }
    exists net1, c1. split_and!; try done. by rewrite Hl1.
Qed.

Lemma start_symmetric_witness :
  ∃ net' c',
    start 1 3 (host 3) two_peers = Return net' tt ∧
    Dict.get (procs net') (host 3) = Some c' ∧
    Dict.keys (peers (peer_list c')) = [1; 2] ∧
    state (distributed_lock c') = NO_TOKEN.
Proof.
  destruct (start_symmetric 0 3 (host 3) two_peers)
    as (net' & c' & Hrun & Hc' & _ & _ & Hs).
  - done.
  - apply (bool_decide_unpack _). by vm_compute.
  - apply (bool_decide_unpack _). by vm_compute.
  - apply (bool_decide_unpack _). by vm_compute.
  - apply (bool_decide_unpack _). by vm_compute.
  - intros q aq Hin. unfold two_peers in *. cbn [name_service procs] in *.
    apply elem_of_cons in Hin as [[= -> ->]|Hin].
    { eexists. split; [reflexivity|]. intros q stub _. cbn.
      repeat case_decide; try done; by intros [= <-]. }
    apply list_elem_of_singleton in Hin as [= -> ->].
    eexists. split; [reflexivity|]. intros q stub _. cbn.
    repeat case_decide; try done; by intros [= <-].
  - exists net', c'. split; [done|]. split; [done|]. split; [|done].
    vm_compute in Hrun. injection Hrun as <-. vm_compute in Hc'.
    by injection Hc' as <-.
Defined.

(** ** Leaving *)

(** The rounds of [PeerList.destroy] over peers that run, know the leaver
    and have only live peers: each of them forgets the leaver. *)
Lemma destroy_loop_run fuel a c ps : ∀ net,
  Dict.get (procs net) a = Some c →
  NoDup (stub_address <$> ps.*2) →
  (∀ q s, (q, s) ∈ ps →
     Dict.get (peers (peer_list c)) q = Some s ∧ stub_address s ≠ a ∧
     ∃ cq sa, Dict.get (procs net) (stub_address s) = Some cq ∧
              Dict.get (peers (peer_list cq)) (id c) = Some sa ∧
              alive_but net (peers (peer_list cq)) [id c]) →
  ∃ net',
    for_each (Dict.keys ps) (farewell (S fuel) a) net = Return net' tt ∧
    Dict.get (procs net') a = Some c ∧
    name_service net' = name_service net ∧
    (∀ x, x ∉ stub_address <$> ps.*2 →
       Dict.get (procs net') x = Dict.get (procs net) x) ∧
    ∀ q s cq, (q, s) ∈ ps →
      Dict.get (procs net) (stub_address s) = Some cq →
      Dict.get (procs net') (stub_address s) = Some (forgotten cq (id c)).
Proof.
  induction ps as [|[q s] ps IH]; intros net Hc Hnd Hps.
  { exists net. split_and!; try done. by intros ??? ?%elem_of_nil. }
  cbn [fmap list_fmap snd] in Hnd. apply NoDup_cons in Hnd as [Hs Hnd].
  destruct (Hps q s) as (Hq & Hsa & cq & sa & Hcq & Hknows & Halive);
    [constructor|].
  cbn [Dict.keys fmap list_fmap fst for_each].
  unfold mbind at 1, M_bind at 1. unfold farewell at 1. mrun Hc.
  rewrite Hq. mrun Hc. unfold remote at 1, rpc. unfold Dict.mem at 1. cbn [procs]. rewrite Hcq.
  set (m := mkMessage a (stub_address s) (unregister_peer_call (id c))).
  fold (wire net m).
  change (serve (S fuel) (stub_address s) (unregister_peer_call (id c)))
    with (Client.unregister_peer (owner_unregister_peer fuel)
            (stub_address s) (id c)).
  rewrite (Client_unregister_peer_run _ (stub_address s) (wire net m) cq Hcq
             (id c) sa Hknows Halive).
  set (net1 := upd (wire net m) (stub_address s) (forgotten cq (id c))).
  assert (Hget1 : ∀ x, x ≠ stub_address s →
            Dict.get (procs net1) x = Dict.get (procs net) x).
  { intros x Hx. unfold net1. by rewrite get_upd_ne. }
  assert (Hmem1 : ∀ x, Dict.mem x (procs net1) = Dict.mem x (procs net)).
  { intros x. unfold net1. by rewrite (mem_upd (wire net m) _ cq). }
  destruct (IH net1) as (net' & Hrun & Hc' & Hns & Hothers & Hgone).
  { by rewrite Hget1. }
  { done. }
  { intros q' s' Hin.
    destruct (Hps q' s') as (Hq' & Hs'a & cq' & sa' & Hcq' & Hknows' & Halive');
      [by constructor|].
    split; [done|]. split; [done|]. exists cq', sa'.
    assert (Hne : stub_address s' ≠ stub_address s).
    { intros Heq. apply Hs. rewrite <- Heq. apply list_elem_of_fmap.
      exists s'. split; [done|]. apply list_elem_of_fmap. by exists (q', s'). }
    split; [by rewrite Hget1|]. split; [done|].
    by apply (alive_but_mem net). }
  exists net'. split; [done|]. split; [done|]. split; [done|]. split.
  - intros x [Hx Hnin]%not_elem_of_cons. rewrite (Hothers x Hnin).
    by apply Hget1.
  - intros q' s' cq' [[= -> ->]|Hin]%elem_of_cons Hcq'.
    + rewrite (Hothers _ Hs). unfold net1. rewrite get_upd_eq.
      rewrite Hcq in Hcq'. by injection Hcq' as <-.
    + apply (Hgone q' s' cq' Hin). rewrite Hget1; [done|].
      intros Heq. apply Hs. rewrite <- Heq. apply list_elem_of_fmap.
      exists s'. split; [done|]. apply list_elem_of_fmap. by exists (q', s').
Qed.

Lemma elem_of_dict_get {K V} `{EqDecision K} (d : dict K V) k v :
  NoDup (Dict.keys d) → (k, v) ∈ d → Dict.get d k = Some v.
Proof.
  unfold Dict.keys. induction d as [|[k' v'] d IH]; [by intros _ ?%elem_of_nil|].
  cbn [fmap list_fmap fst]. intros [Hk Hnd]%NoDup_cons.
  intros [[= -> ->]|Hin]%elem_of_cons; cbn [Dict.get].
  - by rewrite decide_True.
  - rewrite decide_False; [by apply IH|]. intros ->. apply Hk.
    apply list_elem_of_fmap. by exists (k, v).
Qed.

Lemma dict_get_elem_of {K V} `{EqDecision K} (d : dict K V) k v :
  Dict.get d k = Some v → (k, v) ∈ d.
Proof.
  induction d as [|[k' v'] d IH]; [done|]. cbn [Dict.get].
  case_decide as Hk.
  - intros [= ->]. subst. constructor.
  - intros Hg. apply elem_of_cons. right. by apply IH.
Qed.

Lemma same_processes_mem net net' x :
  same_processes net net' →
  Dict.mem x (procs net') = Dict.mem x (procs net).
Proof.
  intros H. specialize (H x). unfold Dict.mem.
  by destruct (Dict.get (procs net) x), (Dict.get (procs net') x).
Qed.

Lemma PeerList_destroy_run fuel a net c :
  Dict.get (procs net) a = Some c →
  NoDup (Dict.keys (peers (peer_list c))) →
  NoDup (stub_address <$> Dict.values (peers (peer_list c))) →
  (∀ q s, Dict.get (peers (peer_list c)) q = Some s →
     stub_address s ≠ a ∧
     ∃ cq sa, Dict.get (procs net) (stub_address s) = Some cq ∧
              Dict.get (peers (peer_list cq)) (id c) = Some sa ∧
              alive_but net (peers (peer_list cq)) [id c]) →
  ∃ net',
    PeerList.destroy (remote (S fuel)) (owner_unregister_peer (S fuel)) a net
      = Return net' tt ∧
    name_service net' = name_service net ∧
    ∀ q s cq, Dict.get (peers (peer_list c)) q = Some s →
      Dict.get (procs net) (stub_address s) = Some cq →
      Dict.get (procs net') (stub_address s) = Some (forgotten cq (id c)).
Proof.
  intros Hc Hkeys Haddrs Hps. unfold PeerList.destroy.
  match goal with
  | |- context [for_each _ ?f] => change f with (farewell (S fuel) a)
  end.
  unfold mbind at 1, M_bind at 1.
  rewrite (check_all_alive_loop _ a net c Hc).
  rewrite (sweep_alive _ a net c _ [] Hc); first last.
  { intros q _. apply not_elem_of_nil. }
  { intros q s _ Hq. destruct (Hps q s Hq) as (_ & cq & _ & Hcq & _).
    unfold Dict.mem. by rewrite Hcq. }
  { done. }
  mrun Hc.
  destruct (destroy_loop_run fuel a c (peers (peer_list c)) net Hc Haddrs)
    as (net' & Hrun & _ & Hns & _ & Hgone).
  { intros q s Hin. apply elem_of_dict_get in Hin; [|done].
    split; [done|]. by apply (Hps q s). }
  exists net'. split; [done|]. split; [done|].
  intros q s cq Hq. apply (Hgone q s cq). by apply dict_get_elem_of.
Qed.

(** A peer that leaves while its peers run, know it and have only live
    peers is forgotten by all of them: once the token is handed off,
    [destroy] returns, and each of its peers has dropped it from its peer
    list and from its request table. *)
Theorem destroy_unregisters_everywhere fuel a net c net1 handed :
  Dict.get (procs net) a = Some c →
  NoDup (Dict.keys (peers (peer_list c))) →
  NoDup (stub_address <$> Dict.values (peers (peer_list c))) →
  (∀ q s, Dict.get (peers (peer_list c)) q = Some s →
     stub_address s ≠ a ∧
     ∃ cq sa, Dict.get (procs net) (stub_address s) = Some cq ∧
              Dict.get (peers (peer_list cq)) (id c) = Some sa ∧
              alive_but net (peers (peer_list cq)) [id c]) →
  _offload_token (S fuel) a net = Return net1 handed →
  ∃ net',
    destroy (S fuel) a net = Return net' tt ∧
    ∀ q s, Dict.get (peers (peer_list c)) q = Some s →
      ∃ cq', Dict.get (procs net') (stub_address s) = Some cq' ∧
             Dict.get (peers (peer_list cq')) (id c) = None ∧
             Dict.get (request (distributed_lock cq')) (id c) = None.
Proof.
  intros Hc Hkeys Haddrs Hps Hoff.
  pose proof (_offload_token_passes (remote (S fuel))
                (remote_answers (S fuel)) a net c Hc) as Hframe.
  unfold _offload_token in Hoff. rewrite Hoff in Hframe. cbn in Hframe.
  destruct Hframe as [Hns _ Hsame _].
  destruct (same_processes_get _ _ a c Hsame Hc)
    as (c1 & Hc1 & Hid1 & _ & Hpl1 & _).
  set (net2 := mkNetwork (procs net1) (sent net1)
                 (filter (λ e, e.2 ≠ a) (name_service net1))).
  destruct (PeerList_destroy_run fuel a net2 c1) as (net' & Hrun & Hns' & Hgone).
  { done. }
  { by rewrite Hpl1. }
  { by rewrite Hpl1. }
  { rewrite Hpl1, Hid1. intros q s Hq.
    destruct (Hps q s Hq) as (Hsa & cq & sa & Hcq & Hknows & Halive).
    split; [done|].
    destruct (same_processes_get _ _ _ cq Hsame Hcq)
      as (cq1 & Hcq1 & _ & _ & Hplq & _).
    exists cq1, sa. split; [done|]. rewrite Hplq. split; [done|].
    apply (alive_but_mem net); [|done]. intros x.
    by apply same_processes_mem. }
  exists net'. split.
  - unfold destroy, Client.destroy, DistributedLock.destroy.
    unfold mbind, M_bind. rewrite Hoff. by cbn.
  - intros q s Hq.
    destruct (Hps q s Hq) as (Hsa & cq & sa & Hcq & _).
    destruct (same_processes_get _ _ _ cq Hsame Hcq) as (cq1 & Hcq1 & _).
    exists (forgotten cq1 (id c)). split.
    + rewrite <- Hid1. apply (Hgone q s cq1); [by rewrite Hpl1|done].
    + cbn [forgotten with_lock with_peers peer_list peers distributed_lock
           set_request request]. unfold Counter.del.
      by rewrite !DictFacts.get_del_eq.
Qed.

Lemma destroy_unregisters_everywhere_witness :
  ∃ net',
    destroy 3 (host 1) three_peers = Return net' tt ∧
    memberships net' = [(1, [2; 3]); (2, [3]); (3, [2])] ∧
    states net' = [(1, NO_TOKEN); (2, TOKEN_PRESENT); (3, NO_TOKEN)].
Proof.
  assert (Hoff : ∃ net1 handed,
            _offload_token 3 (host 1) three_peers = Return net1 handed).
  { vm_compute. eauto. }
  destruct Hoff as (net1 & handed & Hoff).
  destruct (destroy_unregisters_everywhere 2 (host 1) three_peers
              (idle_holder 1 [2; 3]) net1 handed)
    as (net' & Hrun & _); try done.
  - apply (bool_decide_unpack _). by vm_compute.
  - apply (bool_decide_unpack _). by vm_compute.
  - intros q s. unfold idle_holder, idle_peer.
    cbn [with_lock peer_list peers fmap list_fmap Dict.get id].
    repeat case_decide; try done; intros [= <-]; (split; [done|]).
    + exists (idle_peer 2 [1; 3]), (mkStub (host 1)). split; [done|].
      split; [done|]. intros q' s' _. cbn.
      repeat case_decide; try done; by intros [= <-].
    + exists (idle_peer 3 [1; 2]), (mkStub (host 1)). split; [done|].
      split; [done|]. intros q' s' _. cbn.
      repeat case_decide; try done; by intros [= <-].
  - exists net'. split; [done|]. vm_compute in Hrun. injection Hrun as <-.
    by vm_compute.
Defined.

(** ** Waiting for the token, and getting it *)

(** The broadcast over peers that run and have no token to give leaves the
    request on record at every one of them. *)
Lemma broadcast_recorded fuel a ca l : ∀ net,
  Dict.get (procs net) a = Some ca →
  (∀ s, s ∈ l →
     stub_address s ≠ a ∧
     ∃ c, Dict.get (procs net) (stub_address s) = Some c ∧
          state (distributed_lock c) ≠ TOKEN_PRESENT) →
  ∃ net',
    for_each l (ask (S fuel) a) net = Return net' tt ∧
    Dict.get (procs net') a = Some ca ∧
    (∀ x, state_at net' x = state_at net x) ∧
    (∀ x c, Dict.get (procs net) x = Some c →
       ∃ c', Dict.get (procs net') x = Some c' ∧
             Counter.get (request (distributed_lock c)) (id ca)
               ≤ Counter.get (request (distributed_lock c')) (id ca)) ∧
    ∀ s, s ∈ l →
      ∃ c', Dict.get (procs net') (stub_address s) = Some c' ∧
            time (distributed_lock ca)
              ≤ Counter.get (request (distributed_lock c')) (id ca).
Proof.
  induction l as [|s l IH]; intros net Ha Hl.
  { exists net. split_and!; try done.
    - intros x c Hx. by exists c.
    - by intros ? ?%elem_of_nil. }
  destruct (Hl s) as (Hsa & c & Hc & Hstate); [constructor|].
  cbn [for_each]. unfold mbind at 1, M_bind at 1. unfold ask at 1. mrun Ha.
  unfold remote at 1, rpc. unfold Dict.mem at 1. cbn [procs]. rewrite Hc.
  set (t := time (distributed_lock ca)). set (pid := id ca).
  set (m := mkMessage a (stub_address s) (request_token_call t pid)).
  fold (wire net m).
  change (serve (S fuel) (stub_address s) (request_token_call t pid))
    with (DistributedLock.request_token (remote fuel) (stub_address s) t pid).
  rewrite (request_token_unfold (remote fuel) _ (wire net m) c Hc).
  rewrite bool_decide_eq_false_2 by done. cbn [andb].
  set (net1 := upd (wire net m) (stub_address s) (merged c t pid)).
  assert (Hget1 : ∀ x, x ≠ stub_address s →
            Dict.get (procs net1) x = Dict.get (procs net) x).
  { intros x Hx. unfold net1. by rewrite get_upd_ne. }
  assert (Hs1 : Dict.get (procs net1) (stub_address s) = Some (merged c t pid))
    by apply get_upd_eq.
  assert (Hmerged : Counter.get (request (distributed_lock (merged c t pid))) pid
                    = Z.max (Counter.get (request (distributed_lock c)) pid) t).
  { cbn [merged with_lock distributed_lock set_request request].
    unfold Counter.get at 1. by rewrite DictFacts.get_set_eq. }
  assert (Hstate1 : ∀ x, state_at net1 x = state_at net x).
  { intros x. unfold state_at, net1. rewrite get_upd.
    case_decide as Hx; [|done]. subst x. cbn [wire procs]. by rewrite Hc. }
  assert (Hgrow1 : ∀ x cx, Dict.get (procs net) x = Some cx →
            ∃ c1, Dict.get (procs net1) x = Some c1 ∧
                  Counter.get (request (distributed_lock cx)) pid
                    ≤ Counter.get (request (distributed_lock c1)) pid).
  { intros x cx Hx. destruct (decide (x = stub_address s)) as [->|Hne].
    - exists (merged c t pid). split; [done|]. rewrite Hmerged.
      rewrite Hc in Hx. injection Hx as <-. lia.
    - exists cx. by rewrite Hget1. }
  destruct (IH net1) as (net' & Hrun & Ha' & Hst & Hgrow & Hrec).
  { by rewrite Hget1. }
  { intros s' Hs'. destruct (Hl s') as (Hs'a & c' & Hc' & Hstate');
      [by constructor|]. split; [done|].
    pose proof (Hstate1 (stub_address s')) as Heq. unfold state_at in Heq.
    rewrite Hc' in Heq.
    destruct (Dict.get (procs net1) (stub_address s')) as [c1|]; [|done].
    exists c1. split; [done|]. cbn in Heq. by injection Heq as ->. }
  exists net'. split; [done|]. split; [done|]. split; [|split].
  - intros x. by rewrite Hst.
  - intros x cx Hx. destruct (Hgrow1 x cx Hx) as (c1 & Hx1 & Hle1).
    destruct (Hgrow x c1 Hx1) as (c' & Hx' & Hle'). exists c'.
    split; [done|]. unfold pid in *. lia.
  - intros s' [->|Hin]%elem_of_cons; [|by apply Hrec].
    destruct (Hgrow _ _ Hs1) as (c' & Hc' & Hle). exists c'.
    split; [done|]. unfold t, pid in *. rewrite Hmerged in Hle. lia.
Qed.

(** [acquire] at a peer without the token, while every peer it has
    registered runs and none of them has the token unused, waits: the clock
    has advanced by one, every peer has the request on record under the new
    timestamp, and no state has changed.  The first condition is needed:
    when peer 2 of [two_peers_handed] has gone, the broadcast of peer 1
    raises the stub's error instead of waiting. *)
Theorem acquire_waits fuel a net ca :
  Dict.get (procs net) a = Some ca →
  state (distributed_lock ca) = NO_TOKEN →
  (∀ s, s ∈ Dict.values (peers (peer_list ca)) →
     stub_address s ≠ a ∧
     ∃ c, Dict.get (procs net) (stub_address s) = Some c ∧
          state (distributed_lock c) ≠ TOKEN_PRESENT) →
  ∃ net' ca',
    acquire (S fuel) a net = Blocked net' ∧
    (∀ x, state_at net' x = state_at net x) ∧
    Dict.get (procs net') a = Some ca' ∧
    time (distributed_lock ca') = time (distributed_lock ca) + 1 ∧
    Counter.get (request (distributed_lock ca')) (id ca)
      = time (distributed_lock ca) + 1 ∧
    ∀ s, s ∈ Dict.values (peers (peer_list ca)) →
      ∃ c', Dict.get (procs net') (stub_address s) = Some c' ∧
            time (distributed_lock ca) + 1
              ≤ Counter.get (request (distributed_lock c')) (id ca).
Proof.
  intros Ha Hs Hpeers. unfold acquire, DistributedLock.acquire.
  match goal with
  | |- context [for_each _ ?f] => change f with (ask (S fuel) a)
  end.
  mrun Ha. rewrite Hs. mrun Ha.
  match goal with |- context [upd net a ?x] => set (ca1 := x) end.
  assert (Ha1 : Dict.get (procs (upd net a ca1)) a = Some ca1)
    by apply get_upd_eq.
  destruct (broadcast_recorded fuel a ca1 (Dict.values (peers (peer_list ca)))
              (upd net a ca1) Ha1)
    as (net' & Hrun & Ha' & Hst & _ & Hrec).
  { intros s Hin. destruct (Hpeers s Hin) as (Hne & c & Hc & Hstate).
    split; [done|]. exists c. by rewrite get_upd_ne. }
  rewrite Hrun. mrun Ha'.
  change (state (distributed_lock ca1)) with (state (distributed_lock ca)).
  rewrite Hs. rewrite decide_True by done.
  exists net', ca1. split; [done|]. split.
  { intros x. rewrite Hst. unfold state_at. rewrite get_upd.
    case_decide; [|done]. subst. rewrite Ha. cbn. by rewrite Hs. }
  split; [done|]. split; [done|]. split.
  { cbn [ca1 distributed_lock request]. unfold Counter.get.
    by rewrite DictFacts.get_set_eq. }
  exact Hrec.
Qed.

Lemma acquire_waits_witness :
  (∃ net', acquire 1 (host 1) (exit (host 2) two_peers_handed)
           = Raise net' (ConnectionError (host 2))) ∧
  ∃ net' ca',
    acquire 1 (host 1) two_peers_handed = Blocked net' ∧
    Dict.get (procs net') (host 1) = Some ca' ∧
    time (distributed_lock ca') = 1 ∧
    states net' = [(1, NO_TOKEN); (2, TOKEN_HELD)].
Proof.
  split; [eexists; by vm_compute|].
  destruct (acquire_waits 0 (host 1) two_peers_handed
              (mkClient 1 (host 1) (mkPeerList [(2, mkStub (host 2))])
                 (mkLock 0 NO_TOKEN false [] [(2, 1)])))
    as (net' & ca' & Hrun & _ & Ha' & Ht & _).
  - done.
  - done.
  - intros s ->%list_elem_of_singleton. split; [done|]. eexists.
    split; [reflexivity|]. done.
  - exists net', ca'. split; [done|]. split; [done|]. split; [done|].
    vm_compute in Hrun. injection Hrun as <-. by vm_compute.
Defined.

(** [release] by the holder hands the token to the requester
    [_check_token] selects: when that requester runs and is waiting, the
    call returns with the former holder in [NO_TOKEN] and the requester in
    [TOKEN_HELD], after one [obtain_token] message with the purged token;
    no other process changes. *)
Theorem release_hands_over fuel b net cb pid stub ca :
  Dict.get (procs net) b = Some cb →
  state (distributed_lock cb) = TOKEN_HELD →
  localLock (distributed_lock cb) = false →
  chosen cb = Some pid →
  Dict.get (peers (peer_list cb)) pid = Some stub →
  stub_address stub ≠ b →
  Dict.get (procs net) (stub_address stub) = Some ca →
  Counter.get (token (distributed_lock cb)) (id ca)
    < Counter.get (request (distributed_lock ca)) (id ca) →
  0 < Counter.get (request (distributed_lock ca)) (id ca) →
  let payload :=
    DistributedLock.cleaned (id cb) (peers (peer_list cb))
      (token (distributed_lock cb)) in
  ∃ net',
    release (S fuel) b net = Return net' tt ∧
    sent net' =
      sent net ++ [mkMessage b (stub_address stub) (obtain_token_call payload)] ∧
    Dict.get (procs net') b = Some (relock cb NO_TOKEN false payload) ∧
    Dict.get (procs net') (stub_address stub) = Some (adopted ca payload) ∧
    ∀ x, x ≠ b → x ≠ stub_address stub →
         Dict.get (procs net') x = Dict.get (procs net) x.
Proof.
  intros Hb Hs Hl Hchosen Hp Hab Ha Hwant Hpos payload.
  set (a := stub_address stub) in *.
  set (cr := released cb).
  assert (Hcr : Dict.get (procs (upd net b cr)) b = Some cr)
    by apply get_upd_eq.
  unfold release.
  rewrite (release_unfold (remote (S fuel)) b net cb Hb).
  rewrite decide_True by done. fold cr.
  rewrite (_check_token_send (remote (S fuel)) b _ cr Hcr pid stub);
    [|done|done|done|done].
  rewrite upd_upd. fold a.
  change (token (distributed_lock (handing_over cr))) with payload.
  unfold remote, rpc. cbn [procs sent name_service upd]. unfold Dict.mem.
  fold a. rewrite DictFacts.get_set_ne, Ha by done.
  change (serve (S fuel) a (obtain_token_call payload))
    with (DistributedLock.obtain_token (remote fuel) a payload).
  set (net2 := mkNetwork _ _ _).
  assert (Ha2 : Dict.get (procs net2) a = Some ca).
  { unfold net2. cbn [procs]. by rewrite DictFacts.get_set_ne. }
  assert (Hb2 : Dict.get (procs net2) b = Some (handing_over cr)).
  { unfold net2. cbn [procs]. by rewrite DictFacts.get_set_eq. }
  rewrite (obtain_token_unfold (remote fuel) a net2 ca Ha2).
  rewrite decide_True.
  2: { unfold payload. rewrite get_cleaned. case_decide; lia. }
  cbn [after_send]. unfold DistributedLock.localLock_release.
  assert (Hb3 : Dict.get (procs (upd net2 a (adopted ca payload))) b
                = Some (handing_over cr)).
  { by rewrite get_upd_ne. }
  mrun Hb3. cbn [void]. eexists. split; [reflexivity|].
  split; [done|]. split; [by rewrite get_upd_eq|]. split.
  - by rewrite get_upd_ne, get_upd_eq.
  - intros x Hxb Hxa. rewrite !get_upd_ne by done. unfold net2.
    cbn [procs]. by rewrite DictFacts.get_set_ne.
Qed.

Lemma release_hands_over_witness :
  ∃ net',
    release 1 (host 2) two_peers_waiting = Return net' tt ∧
    state_at net' (host 2) = Some NO_TOKEN ∧
    state_at net' (host 1) = Some TOKEN_HELD.
Proof.
  destruct (release_hands_over 0 (host 2) two_peers_waiting
              (mkClient 2 (host 2) (mkPeerList [(1, mkStub (host 1))])
                 (mkLock 1 TOKEN_HELD false [(2, 1)] [(2, 1); (1, 1)]))
              1 (mkStub (host 1))
              (mkClient 1 (host 1) (mkPeerList [(2, mkStub (host 2))])
                 (mkLock 1 NO_TOKEN false [] [(2, 1); (1, 1)])))
    as (net' & Hrun & _ & Hb & Ha & _); try by vm_compute.
  cbn [stub_address] in Ha.
  exists net'. split; [done|]. unfold state_at. by rewrite Hb, Ha.
Defined.

(** ** Handing the token off before leaving *)

Lemma remote_obtain_token_raise fuel a stub tok net c net' e :
  Dict.get (procs net) a = Some c →
  clean_payload c tok →
  remote fuel a stub (obtain_token_call tok) net = Raise net' e →
  Dict.mem (stub_address stub) (procs net) = false ∧ procs net' = procs net.
Proof.
  intros Hc Hclean Hrun.
  pose proof (remote_answers fuel a stub tok net c Hc Hclean) as Hans.
  rewrite Hrun in Hans. destruct Hans as [_ Hprocs]. split; [|done].
  unfold remote, rpc in Hrun. cbn [procs] in Hrun.
  destruct (Dict.mem (stub_address stub) (procs net)) eqn:Hmem; [|done].
  unfold Dict.mem in Hmem.
  destruct (Dict.get (procs net) (stub_address stub)) as [c'|] eqn:Hc';
    [|done].
  set (m := mkMessage a (stub_address stub) (obtain_token_call tok)) in *.
  pose proof (serve_obtain_token_passes fuel (stub_address stub) tok
                (wire net m) c' Hc') as Hp.
  unfold wire in Hp. by rewrite Hrun in Hp.
Qed.

Lemma _offload_loop_false fuel a all_peers pids : ∀ net c net',
  Dict.get (procs net) a = Some c →
  clean_payload c (token (distributed_lock c)) →
  DistributedLock._offload_loop (remote fuel) a all_peers pids net
    = Return net' false →
  (∀ pid stub, pid ∈ pids → Dict.get all_peers pid = Some stub →
     Dict.mem (stub_address stub) (procs net) = false) ∧
  ∃ c', Dict.get (procs net') a = Some c' ∧
        (pids = [] → c' = c) ∧
        (pids ≠ [] → state (distributed_lock c') = NO_TOKEN).
Proof.
  induction pids as [|pid pids IH]; intros net c net' Hc Hclean.
  { intros [= <-]. split; [by intros ?? ?%elem_of_nil|]. by exists c. }
  cbn [DistributedLock._offload_loop]. mrun Hc.
  match goal with |- context [upd net a ?x] => set (c1 := x) end.
  assert (Hc1 : Dict.get (procs (upd net a c1)) a = Some c1)
    by apply get_upd_eq.
  assert (Hclean1 : clean_payload c1 (token (distributed_lock c))) by done.
  assert (Hrest : ∀ net1, procs net1 = procs (upd net a c1) →
    DistributedLock._offload_loop (remote fuel) a all_peers pids net1
      = Return net' false →
    (∀ pid stub, pid ∈ pids → Dict.get all_peers pid = Some stub →
       Dict.mem (stub_address stub) (procs net) = false) ∧
    ∃ c', Dict.get (procs net') a = Some c' ∧
          state (distributed_lock c') = NO_TOKEN).
  { intros net1 Hprocs Hloop.
    assert (Hc1' : Dict.get (procs net1) a = Some c1) by by rewrite Hprocs.
    destruct (IH net1 c1 net' Hc1' Hclean1 Hloop) as (Hdead & c' & Hc' & Hnil & Hcons).
    split.
    - intros q s Hq Hs. rewrite <- (mem_upd net a c c1 _ Hc), <- Hprocs.
      by apply (Hdead q s).
    - exists c'. split; [done|]. destruct pids as [|q pids']; [|by apply Hcons].
      by rewrite Hnil. }
  destruct (Dict.get all_peers pid) as [stub|] eqn:Hp; mrun Hc.
  - destruct (remote fuel a stub _ (upd net a c1))
      as [net1 []|net1 e|net1|] eqn:Hsend; try done.
    destruct (remote_obtain_token_raise fuel a stub _ _ c1 net1 e Hc1 Hclean1
                Hsend) as [Hdead1 Hprocs].
    intros Hloop. destruct (Hrest net1 Hprocs Hloop) as (Hdead & c' & Hc' & Hs').
    split.
    + intros q s [->|Hq]%elem_of_cons Hs.
      * rewrite Hp in Hs. injection Hs as <-.
        by rewrite (mem_upd net a c c1 _ Hc) in Hdead1.
      * by apply (Hdead q s).
    + exists c'. by split.
  - intros Hloop. destruct (Hrest _ eq_refl Hloop) as (Hdead & c' & Hc' & Hs').
    split.
    + intros q s [->|Hq]%elem_of_cons Hs; [congruence|]. by apply (Hdead q s).
    + exists c'. by split.
Qed.

(** [_offload_token] at a peer that has the token returns [False] only when
    none of its registered peers runs; and if it has any peer registered,
    it is then left in [NO_TOKEN]: the token is gone. *)
Theorem _offload_token_false fuel a net c net' :
  Dict.get (procs net) a = Some c →
  state (distributed_lock c) ≠ NO_TOKEN →
  _offload_token fuel a net = Return net' false →
  (∀ pid stub, Dict.get (peers (peer_list c)) pid = Some stub →
     Dict.mem (stub_address stub) (procs net) = false) ∧
  (peers (peer_list c) ≠ [] → state_at net' a = Some NO_TOKEN).
Proof.
  intros Hc Hs. unfold _offload_token, DistributedLock._offload_token.
  mrun Hc. rewrite decide_False by done.
  pose proof (_check_token_passes (remote fuel) (remote_answers fuel)
                a net c Hc) as Hchk.
  destruct (DistributedLock._check_token (remote fuel) a net)
    as [net1 [|]|net1 e|net1|]; simpl in Hchk; try done.
  destruct (same_processes_get _ _ a _ (frame_procs _ _ Hchk) Hc)
    as (c1 & Hc1 & Hid1 & _ & Hpl1 & _).
  mrun Hc1. destruct (localLock (distributed_lock c1)); [done|].
  mrun Hc1. set (c2 := mkClient _ _ _ _).
  assert (Hclean2 : clean_payload c2 (token (distributed_lock c2))).
  { intros k [Hk _]%elem_of_keys_cleaned. exact Hk. }
  destruct (DistributedLock._offload_loop _ _ _ _ _)
    as [net3 [|]|net3 e|net3|] eqn:Hloop; try done.
  { destruct (Dict.get (procs net3) a); by cbn. }
  destruct (_offload_loop_false fuel a _ _ _ c2 net3 (get_upd_eq _ _ _)
              Hclean2 Hloop) as (Hdead & c3 & Hc3 & _ & Hs3).
  mrun Hc3. intros [= <-]. split.
  - intros pid stub Hp.
    rewrite <- (same_processes_mem net net1 _ (frame_procs _ _ Hchk)).
    rewrite <- (mem_upd net1 a c1 c2 _ Hc1).
    apply (Hdead pid stub); [|by rewrite Hpl1].
    rewrite Hpl1. by eapply DictFacts.get_Some_keys.
  - intros Hne. unfold state_at. rewrite get_upd_eq. cbn. f_equal.
    apply Hs3. rewrite Hpl1. by destruct (peers (peer_list c)).
Qed.

Lemma _offload_token_false_witness :
  _offload_token 5 (host 3)
    (mkNetwork [(host 3, ring_holder)] [] [(3, host 3)])
  = Return
      (mkNetwork
         [(host 3,
           mkClient 3 (host 3)
             (mkPeerList
                [(1, mkStub (host 1)); (2, mkStub (host 2));
                 (5, mkStub (host 5))])
             (mkLock 0 NO_TOKEN false [] [(2, 1); (5, 1); (1, 1)]))]
         [mkMessage (host 3) (host 5) (obtain_token_call []);
          mkMessage (host 3) (host 1) (obtain_token_call []);
          mkMessage (host 3) (host 2) (obtain_token_call []);
          mkMessage (host 3) (host 5) (obtain_token_call [])]
         [(3, host 3)])
      false ∧
  Dict.mem (host 2) [(host 3, ring_holder)] = false.
Proof.
  assert (Hrun : ∃ net',
            _offload_token 5 (host 3)
              (mkNetwork [(host 3, ring_holder)] [] [(3, host 3)])
            = Return net' false) by (vm_compute; eauto).
  destruct Hrun as (net' & Hrun).
  destruct (_offload_token_false 5 (host 3)
              (mkNetwork [(host 3, ring_holder)] [] [(3, host 3)])
              ring_holder net' eq_refl) as [Hdead _]; [done|done|].
  split; [by vm_compute|]. exact (Hdead 2 (mkStub (host 2)) eq_refl).
Defined.
